(** * Connect Four alpha-beta engine (alphaBetaPruning_connect4.py)

    A shallow embedding of the search engine and proofs about it.

    Data model.
    - A board is the 6x7 numpy integer array of the source, kept as a list
      of rows (row 0 is the bottom row), each row a list of cells in [Z].
      On a 6x7 array every index the engine computes is in range, so no
      IndexError is modelled; the theorems assume [wf_board].
    - The numbers stored in a state or passed as alpha/beta are Python
      ints, the float [0.00001] of [create_state] and the two float
      infinities of [abmax]/[abmin]; the engine only compares them.
    - numpy arrays are mutable objects: they live in a heap and a state
      holds a reference.  The four-element Python list that represents a
      state is always freshly built ([create_state], [copy.deepcopy],
      slicing), it is threaded by value and [make_move] returns the
      updated list. *)

From Stdlib Require Import ZArith Lia Bool List OrdersTac.
From Stdlib Require String Ascii DecimalString.
From stdpp Require Import base option list list_numbers.

Local Open Scope Z_scope.

(** ** Constants *)

Definition VIC : Z := 10 ^ 20.
Definition LOSS : Z := - VIC.
Definition TIE : Z := 0.
Definition DEPTH : nat := 4.
Definition COMPUTER : Z := 2.
Definition HUMAN : Z := 1.
Definition EMPTY : Z := 0.

Definition ROW_COUNT : Z := 6.
Definition COLUMN_COUNT : Z := 7.

(** ** Python numbers that occur as values *)

Inductive pynum : Type :=
| PInt (z : Z)      (* a Python int *)
| PSmall            (* the float 0.00001, strictly between 0 and 1 *)
| PInf              (* float("inf") *)
| PNegInf.          (* float("-inf") *)

(** Finite numbers are compared through twice their value, which puts
    [0.00001] strictly between the ints 0 and 1. *)
Definition key (x : pynum) : Z :=
  match x with
  | PInt z => 2 * z
  | PSmall => 1
  | _ => 0
  end.

(** [x < y] *)
Definition pylt (x y : pynum) : bool :=
  match x, y with
  | PInf, _ => false
  | _, PNegInf => false
  | PNegInf, _ => true
  | _, PInf => true
  | _, _ => key x <? key y
  end.

(** [x > y], [x <= y], [x >= y], [x == y] *)
Definition pygt (x y : pynum) : bool := pylt y x.
Definition pyle (x y : pynum) : bool := negb (pylt y x).
Definition pyge (x y : pynum) : bool := negb (pylt x y).
Definition pyeq (x y : pynum) : bool := negb (pylt x y) && negb (pylt y x).

(** ** Boards *)

Abbreviation board := (list (list Z)).

(** [range(n)] *)
Definition range (n : Z) : list Z := seqZ 0 n.

(** [row[c]] and [board[r][c]].  The engine only uses indices that are in
    range on a 6x7 array; outside that range (where Python raises, or
    wraps a negative index) the lookup below answers 0. *)
Definition at_col (row : list Z) (c : Z) : Z := default 0 (row !! Z.to_nat c).
Definition cell (b : board) (r c : Z) : Z :=
  at_col (default [] (b !! Z.to_nat r)) c.

(** [board[r][c] = v] *)
Definition set_cell (b : board) (r c v : Z) : board :=
  <[Z.to_nat r := <[Z.to_nat c := v]> (default [] (b !! Z.to_nat r))]> b.

(** [np.count_nonzero(window == x)] on a one-dimensional array *)
Definition count_eq (x : Z) (w : list Z) : Z :=
  Z.of_nat (length (filter (fun y => y = x) w)).

(** [np.count_nonzero(board == x)] on the whole array *)
Definition count_board (x : Z) (b : board) : Z :=
  foldr (fun row acc => count_eq x row + acc) 0 b.

Definition wf_board (b : board) : Prop :=
  length b = 6%nat /\ Forall (fun row => length row = 7%nat) b.

Definition get_valid_columns (b : board) : list Z :=
  filter (fun col => cell b (ROW_COUNT - 1) col = EMPTY) (range COLUMN_COUNT).

(** The [for row in range(ROW_COUNT)] loop of [get_next_row], with its
    early return. *)
Fixpoint first_empty_row (b : board) (col : Z) (rows : list Z) : Z :=
  match rows with
  | [] => -1
  | row :: rest =>
      if cell b row col =? EMPTY then row else first_empty_row b col rest
  end.

Definition get_next_row (b : board) (col : Z) : Z :=
  first_empty_row b col (range ROW_COUNT).

Definition check_win (b : board) (piece : Z) : bool :=
  (* horizontal *)
  existsb (fun c => existsb (fun r =>
      (cell b r c =? piece) && (cell b r (c+1) =? piece) &&
      (cell b r (c+2) =? piece) && (cell b r (c+3) =? piece))
    (range ROW_COUNT)) (range (COLUMN_COUNT - 3))
  (* vertical *)
  || existsb (fun c => existsb (fun r =>
      (cell b r c =? piece) && (cell b (r+1) c =? piece) &&
      (cell b (r+2) c =? piece) && (cell b (r+3) c =? piece))
    (range (ROW_COUNT - 3))) (range COLUMN_COUNT)
  (* positively sloped diagonals *)
  || existsb (fun c => existsb (fun r =>
      (cell b r c =? piece) && (cell b (r+1) (c+1) =? piece) &&
      (cell b (r+2) (c+2) =? piece) && (cell b (r+3) (c+3) =? piece))
    (range (ROW_COUNT - 3))) (range (COLUMN_COUNT - 3))
  (* negatively sloped diagonals *)
  || existsb (fun c => existsb (fun r =>
      (cell b r c =? piece) && (cell b (r-1) (c+1) =? piece) &&
      (cell b (r-2) (c+2) =? piece) && (cell b (r-3) (c+3) =? piece))
    (seqZ 3 (ROW_COUNT - 3))) (range (COLUMN_COUNT - 3)).

(** ** Evaluator *)

Definition opponent (piece : Z) : Z :=
  if piece =? COMPUTER then HUMAN else COMPUTER.

Definition evaluate_window (window : list Z) (piece : Z) : Z :=
  let score := 0 in
  let opp_piece := opponent piece in
  let piece_count := count_eq piece window in
  let empty_count := count_eq EMPTY window in
  let opp_count := count_eq opp_piece window in
  let score :=
    if piece_count =? 4 then score + 100
    else if (piece_count =? 3) && (empty_count =? 1) then score + 5
    else if (piece_count =? 2) && (empty_count =? 2) then score + 2
    else score in
  let score :=
    if (opp_count =? 3) && (empty_count =? 1) then score - 50
    else if (opp_count =? 2) && (empty_count =? 2) then score - 3
    else score in
  score.

(** Array slices used by [score_position]. *)
Definition column (b : board) (c : Z) : list Z :=        (* board[:, c] *)
  map (fun row => at_col row c) b.
Definition row_of (b : board) (r : Z) : list Z :=        (* board[r, :] *)
  default [] (b !! Z.to_nat r).
Definition slice4 (w : list Z) (c : Z) : list Z :=       (* w[c:c+4] *)
  take 4 (drop (Z.to_nat c) w).

(** [for x in xs: score += f x] *)
Definition sum_over (xs : list Z) (f : Z -> Z) (score : Z) : Z :=
  fold_left (fun acc x => acc + f x) xs score.

Definition score_position (b : board) (piece : Z) : Z :=
  let score := 0 in
  let center_array := column b (COLUMN_COUNT / 2) in
  let center_count := count_eq piece center_array in
  let score := score + center_count * 6 in
  let opp_piece := opponent piece in
  let bottom_row := row_of b 0 in
  let opp_bottom_count := count_eq opp_piece bottom_row in
  let score :=
    if opp_bottom_count =? 2 then
      sum_over (range (COLUMN_COUNT - 3)) (fun c =>
        let window := slice4 bottom_row c in
        if (count_eq opp_piece window =? 2) && (count_eq EMPTY window =? 2)
        then -10 else 0) score
    else score in
  (* horizontal *)
  let score :=
    sum_over (range ROW_COUNT) (fun r =>
      sum_over (range (COLUMN_COUNT - 3)) (fun c =>
        evaluate_window (slice4 (row_of b r) c) piece) 0) score in
  (* vertical *)
  let score :=
    sum_over (range COLUMN_COUNT) (fun c =>
      sum_over (range (ROW_COUNT - 3)) (fun r =>
        evaluate_window (slice4 (column b c) r) piece) 0) score in
  (* positive sloped diagonal *)
  let score :=
    sum_over (range (ROW_COUNT - 3)) (fun r =>
      sum_over (range (COLUMN_COUNT - 3)) (fun c =>
        evaluate_window (map (fun i => cell b (r+i) (c+i)) (range 4)) piece)
        0) score in
  (* negative sloped diagonal *)
  let score :=
    sum_over (range (ROW_COUNT - 3)) (fun r =>
      sum_over (range (COLUMN_COUNT - 3)) (fun c =>
        evaluate_window (map (fun i => cell b (r+3-i) (c+i)) (range 4)) piece)
        0) score in
  score.

Definition empty_board : board := replicate 6 (replicate 7 0).

(** ** Heap of numpy arrays and search states *)

Abbreviation loc := nat (only parsing).
Abbreviation heap := (list board).

(** The Python list [[board, heuristic_value, whose_turn, empty_cells]];
    [s_rest] holds what has been appended after index 3 (the column
    [get_next] stores). *)
Record state : Type := mkState {
  s_board : loc;
  s_value : pynum;
  s_turn : Z;
  s_empty : Z;
  s_rest : list Z
}.

(** Heap-passing computations. *)
Definition M (A : Type) : Type := heap -> A * heap.

Definition ret {A} (x : A) : M A := fun h => (x, h).
Definition bind {A B} (m : M A) (f : A -> M B) : M B :=
  fun h => let (x, h') := m h in f x h'.

Notation "'let*' x ':=' m 'in' k" := (bind m (fun x => k))
  (at level 10, x name, m at level 100, k at level 200).

(** The array at [l]; every location the engine uses is allocated. *)
Definition deref (l : loc) : M board :=
  fun h => (default [] (h !! l), h).

(** [board[row][col] = v] on the array at [l] *)
Definition store_cell (l : loc) (row col v : Z) : M unit :=
  fun h => (tt, <[l := set_cell (default [] (h !! l)) row col v]> h).

(** [copy.deepcopy(s)]: the array is copied to a new location. *)
Definition deepcopy (s : state) : M state :=
  fun h =>
    (mkState (length h) (s_value s) (s_turn s) (s_empty s) (s_rest s),
     h ++ [default [] (h !! s_board s)]).

(** [s[:4]]: a new list that shares the array. *)
Definition first4 (s : state) : state :=
  mkState (s_board s) (s_value s) (s_turn s) (s_empty s) [].

(** [state[-1] if len(state) > 4 else 0] *)
Definition col_played (s : state) : Z :=
  if 4 <? 4 + Z.of_nat (length (s_rest s)) then List.last (s_rest s) 0 else 0.

Definition create_state (l : loc) : M state :=
  let* b := deref l in
  let empty_count := count_board 0 b in
  let whose_turn := COMPUTER in
  ret (mkState l PSmall whose_turn empty_count []).

Definition value (s : state) : pynum := s_value s.

Definition is_finished (s : state) : bool :=
  existsb (pyeq (s_value s)) [PInt LOSS; PInt VIC; PInt TIE]
  || (s_empty s =? 0).

Definition is_hum_turn (s : state) : bool := s_turn s =? HUMAN.

(** The value [make_move] stores after the piece has been placed. *)
Definition evaluate (b : board) (empty : Z) : pynum :=
  if check_win b COMPUTER then PInt VIC
  else if check_win b HUMAN then PInt LOSS
  else if empty =? 0 then PInt TIE
  else PInt (score_position b COMPUTER - score_position b HUMAN).

(** [make_move] mutates the array of [s] in the heap and returns the
    updated state list. *)
Definition make_move (s : state) (col : Z) : M state :=
  let* b := deref (s_board s) in
  let row := get_next_row b col in
  if row =? -1 then ret s
  else
    let* _ := store_cell (s_board s) row col (s_turn s) in
    let empty := s_empty s - 1 in
    let turn := if s_turn s =? HUMAN then COMPUTER else HUMAN in
    let* b := deref (s_board s) in
    ret (mkState (s_board s) (evaluate b empty) turn empty (s_rest s)).

(** [sorted(xs, key=k)]: Python's sort is stable; so is this insertion
    sort, which puts an element before the first later element whose key
    is not smaller. *)
Fixpoint insert_by (k : Z -> Z) (x : Z) (xs : list Z) : list Z :=
  match xs with
  | [] => [x]
  | y :: ys => if k x <=? k y then x :: xs else y :: insert_by k x ys
  end.

Definition sorted (xs : list Z) (k : Z -> Z) : list Z :=
  foldr (insert_by k) [] xs.

Fixpoint get_next_loop (s : state) (cols : list Z) : M (list state) :=
  match cols with
  | [] => ret []
  | col :: rest =>
      let* state_copy := deepcopy s in
      let* state_copy := make_move state_copy col in
      let state_copy :=
        mkState (s_board state_copy) (s_value state_copy) (s_turn state_copy)
                (s_empty state_copy) (s_rest state_copy ++ [col]) in
      let* next_states := get_next_loop s rest in
      ret (state_copy :: next_states)
  end.

Definition get_next (s : state) : M (list state) :=
  let* b := deref (s_board s) in
  let valid_cols := get_valid_columns b in
  let center := COLUMN_COUNT / 2 in
  let ordered_cols := sorted valid_cols (fun x => Z.abs (x - center)) in
  get_next_loop s ordered_cols.

(** The [for state in next_states] loop of [abmax]; [rec] is the call to
    [abmin] at depth [d-1]. *)
Fixpoint abmax_loop (rec : state -> pynum -> pynum -> M (pynum * Z))
    (next_states : list state) (v : pynum) (best_col : Z) (a b : pynum)
    : M (pynum * Z) :=
  match next_states with
  | [] => ret (v, best_col)
  | st :: rest =>
      let col_played := col_played st in
      let* child := deepcopy (first4 st) in
      let* tmp := rec child a b in
      let '(v, best_col) :=
        if pygt (fst tmp) v then (fst tmp, col_played) else (v, best_col) in
      if pyge v b then ret (v, col_played)
      else
        let a := if pygt v a then v else a in
        abmax_loop rec rest v best_col a b
  end.

(** The loop of [abmin]; [rec] is the call to [abmax] at depth [d-1]. *)
Fixpoint abmin_loop (rec : state -> pynum -> pynum -> M (pynum * Z))
    (next_states : list state) (v : pynum) (best_col : Z) (a b : pynum)
    : M (pynum * Z) :=
  match next_states with
  | [] => ret (v, best_col)
  | st :: rest =>
      let col_played := col_played st in
      let* child := deepcopy (first4 st) in
      let* tmp := rec child a b in
      let '(v, best_col) :=
        if pylt (fst tmp) v then (fst tmp, col_played) else (v, best_col) in
      if pyle v a then ret (v, col_played)
      else
        let b := if pylt v b then v else b in
        abmin_loop rec rest v best_col a b
  end.

Fixpoint abmax (d : nat) (s : state) (a b : pynum) : M (pynum * Z) :=
  match d with
  | O => ret (value s, 0)
  | S d' =>
      if is_finished s then ret (value s, 0)
      else
        let* next_states := get_next s in
        abmax_loop (abmin d') next_states PNegInf 0 a b
  end
with abmin (d : nat) (s : state) (a b : pynum) : M (pynum * Z) :=
  match d with
  | O => ret (value s, 0)
  | S d' =>
      if is_finished s then ret (value s, 0)
      else
        let* next_states := get_next s in
        abmin_loop (abmax d') next_states PInf 0 a b
  end.

(** [go(board)]: [l] is the caller's array. *)
Definition go (l : loc) : M Z :=
  let* state := create_state l in
  let* result := abmax DEPTH state (PInt (LOSS - 1)) (PInt (VIC + 1)) in
  ret (snd result).

(** ** The engine on board values

    The same functions with the array of a state held by value.  The heap
    version above is what the source does; [V] is what it computes, and
    the two are related by [abmax_view] and [go_view] below. *)

Module V.

Record vstate : Type := mkV {
  v_board : board;
  v_value : pynum;
  v_turn : Z;
  v_empty : Z;
  v_rest : list Z
}.

Definition first4 (s : vstate) : vstate :=
  mkV (v_board s) (v_value s) (v_turn s) (v_empty s) [].

Definition col_played (s : vstate) : Z :=
  if 4 <? 4 + Z.of_nat (length (v_rest s)) then List.last (v_rest s) 0 else 0.

Definition create_state (b : board) : vstate :=
  mkV b PSmall COMPUTER (count_board 0 b) [].

Definition is_finished (s : vstate) : bool :=
  existsb (pyeq (v_value s)) [PInt LOSS; PInt VIC; PInt TIE]
  || (v_empty s =? 0).

Definition make_move (s : vstate) (col : Z) : vstate :=
  let row := get_next_row (v_board s) col in
  if row =? -1 then s
  else
    let b := set_cell (v_board s) row col (v_turn s) in
    let empty := v_empty s - 1 in
    let turn := if v_turn s =? HUMAN then COMPUTER else HUMAN in
    mkV b (evaluate b empty) turn empty (v_rest s).

Definition child (s : vstate) (col : Z) : vstate :=
  let c := make_move s col in
  mkV (v_board c) (v_value c) (v_turn c) (v_empty c) (v_rest c ++ [col]).

Definition get_next (s : vstate) : list vstate :=
  let valid_cols := get_valid_columns (v_board s) in
  let center := COLUMN_COUNT / 2 in
  let ordered_cols := sorted valid_cols (fun x => Z.abs (x - center)) in
  map (child s) ordered_cols.

Fixpoint abmax_loop (rec : vstate -> pynum -> pynum -> pynum * Z)
    (next_states : list vstate) (v : pynum) (best_col : Z) (a b : pynum)
    : pynum * Z :=
  match next_states with
  | [] => (v, best_col)
  | st :: rest =>
      let col_played := col_played st in
      let tmp := rec (first4 st) a b in
      let '(v, best_col) :=
        if pygt (fst tmp) v then (fst tmp, col_played) else (v, best_col) in
      if pyge v b then (v, col_played)
      else
        let a := if pygt v a then v else a in
        abmax_loop rec rest v best_col a b
  end.

Fixpoint abmin_loop (rec : vstate -> pynum -> pynum -> pynum * Z)
    (next_states : list vstate) (v : pynum) (best_col : Z) (a b : pynum)
    : pynum * Z :=
  match next_states with
  | [] => (v, best_col)
  | st :: rest =>
      let col_played := col_played st in
      let tmp := rec (first4 st) a b in
      let '(v, best_col) :=
        if pylt (fst tmp) v then (fst tmp, col_played) else (v, best_col) in
      if pyle v a then (v, col_played)
      else
        let b := if pylt v b then v else b in
        abmin_loop rec rest v best_col a b
  end.

Fixpoint abmax (d : nat) (s : vstate) (a b : pynum) : pynum * Z :=
  match d with
  | O => (v_value s, 0)
  | S d' =>
      if is_finished s then (v_value s, 0)
      else abmax_loop (abmin d') (get_next s) PNegInf 0 a b
  end
with abmin (d : nat) (s : vstate) (a b : pynum) : pynum * Z :=
  match d with
  | O => (v_value s, 0)
  | S d' =>
      if is_finished s then (v_value s, 0)
      else abmin_loop (abmax d') (get_next s) PInf 0 a b
  end.

Definition go (b : board) : Z :=
  snd (abmax DEPTH (create_state b) (PInt (LOSS - 1)) (PInt (VIC + 1))).

End V.

(** The state list [s] in heap [h], with its array read out. *)
Definition view (h : heap) (s : state) : V.vstate :=
  V.mkV (default [] (h !! s_board s)) (s_value s) (s_turn s) (s_empty s)
        (s_rest s).

(** * Specification vocabulary *)

(** Four same-owner cells contiguous in a row, a column or a diagonal. *)
Definition directions : list (Z * Z) := [(0, 1); (1, 0); (1, 1); (-1, 1)].

Definition four_in_a_row (b : board) (p : Z) : Prop :=
  exists r c dr dc,
    In (dr, dc) directions /\
    forall i, 0 <= i < 4 ->
      0 <= r + i * dr < 6 /\ 0 <= c + i * dc < 7 /\
      cell b (r + i * dr) (c + i * dc) = p.

(** No piece floats above an empty cell. *)
Definition gravity (b : board) : Prop :=
  forall r r' c, 0 <= r <= r' -> r' < 6 -> 0 <= c < 7 ->
    cell b r c = 0 -> cell b r' c = 0.

(** A board the game loop can supply: 6x7, every cell empty or owned by a
    player, columns filled from the bottom. *)
Definition valid_board (b : board) : Prop :=
  wf_board b /\
  (forall r c, 0 <= r < 6 -> 0 <= c < 7 ->
     cell b r c = EMPTY \/ cell b r c = HUMAN \/ cell b r c = COMPUTER) /\
  gravity b.

(** A finite number between the two sentinels. *)
Definition bounded (x : pynum) : Prop :=
  pyle (PInt LOSS) x = true /\ pyle x (PInt VIC) = true.

Definition inv (s : V.vstate) : Prop :=
  wf_board (V.v_board s) /\
  gravity (V.v_board s) /\
  V.v_empty s = count_board 0 (V.v_board s) /\
  (V.v_turn s = HUMAN \/ V.v_turn s = COMPUTER) /\
  bounded (V.v_value s).

(** [rec] on heap states computes [vrec] on their views and only
    allocates. *)
Definition computes (rec : state -> pynum -> pynum -> M (pynum * Z))
    (vrec : V.vstate -> pynum -> pynum -> pynum * Z) : Prop :=
  forall s a b h, (s_board s < length h)%nat ->
    exists t, rec s a b h = (vrec (view h s) a b, h ++ t).

(** The values [tmp[0]] that the loop of [abmax] obtains from its
    children, in generation order, up to the child at which it returns. *)
Fixpoint abmax_backed_up (rec : V.vstate -> pynum -> pynum -> pynum * Z)
    (next_states : list V.vstate) (v a b : pynum) : list pynum :=
  match next_states with
  | [] => []
  | st :: rest =>
      let x := fst (rec (V.first4 st) a b) in
      let v := if pygt x v then x else v in
      x :: (if pyge v b then []
            else abmax_backed_up rec rest v (if pygt v a then v else a) b)
  end.

Fixpoint abmin_backed_up (rec : V.vstate -> pynum -> pynum -> pynum * Z)
    (next_states : list V.vstate) (v a b : pynum) : list pynum :=
  match next_states with
  | [] => []
  | st :: rest =>
      let x := fst (rec (V.first4 st) a b) in
      let v := if pylt x v then x else v in
      x :: (if pyle v a then []
            else abmin_backed_up rec rest v a (if pylt v b then v else b))
  end.

(** [(v, col)] is the first position of the largest value: [v] is the
    largest of [xs] and [col] sits in [cols] where [v] first occurs. *)
Definition first_largest (xs : list pynum) (cols : list Z)
    (v : pynum) (col : Z) : Prop :=
  exists i : nat,
    xs !! i = Some v /\ cols !! i = Some col /\
    (forall (j : nat) y, xs !! j = Some y -> pyle y v = true) /\
    (forall (j : nat) y, (j < i)%nat -> xs !! j = Some y -> pylt y v = true).

Definition first_smallest (xs : list pynum) (cols : list Z)
    (v : pynum) (col : Z) : Prop :=
  exists i : nat,
    xs !! i = Some v /\ cols !! i = Some col /\
    (forall (j : nat) y, xs !! j = Some y -> pyle v y = true) /\
    (forall (j : nat) y, (j < i)%nat -> xs !! j = Some y -> pylt v y = true).

(** A checker for [valid_board], for concrete boards. *)
Definition valid_boardb (b : board) : bool :=
  (length b =? 6)%nat && forallb (fun row => (length row =? 7)%nat) b &&
  forallb (fun c => forallb (fun r =>
      ((cell b r c =? EMPTY) || (cell b r c =? HUMAN) ||
       (cell b r c =? COMPUTER)) &&
      forallb (fun r' =>
        negb (r <=? r') || negb (cell b r c =? 0) || (cell b r' c =? 0))
        (range 6))
    (range 6)) (range 7).

(** Column [col] is legal and playing it gives COMPUTER four in a row. *)
Definition wins_now (b : board) (col : Z) : Prop :=
  0 <= col < 7 /\ cell b 5 col = 0 /\
  four_in_a_row (set_cell b (get_next_row b col) col COMPUTER) COMPUTER.

(** The legal columns in generation order. *)
Definition generation_order (b : board) : list Z :=
  filter (fun col => cell b 5 col = 0) [3; 2; 4; 1; 5; 0; 6].

(** The values backed up to the root of the search that [go] runs. *)
Definition root_backed_up (b : board) : list pynum :=
  abmax_backed_up (V.abmin 3) (V.get_next (V.create_state b)) PNegInf
    (PInt (LOSS - 1)) (PInt (VIC + 1)).

(** Boards used as examples. *)
Definition full_board : board :=
  [ [1; 1; 2; 2; 1; 1; 2];
    [2; 2; 1; 1; 2; 2; 1];
    [1; 1; 2; 2; 1; 1; 2];
    [2; 2; 1; 1; 2; 2; 1];
    [1; 1; 2; 2; 1; 1; 2];
    [2; 2; 1; 1; 2; 2; 1] ].

Definition two_threats_board : board :=
  [ [1; 2; 2; 2; 0; 1; 1];
    [0; 2; 2; 0; 0; 0; 0];
    [0; 1; 1; 0; 0; 0; 0];
    [0; 0; 0; 0; 0; 0; 0];
    [0; 0; 0; 0; 0; 0; 0];
    [0; 0; 0; 0; 0; 0; 0] ].

(** The heuristic as the specification words it: a centre bonus, a score
    for every four-cell window of the grid, and the bottom-row penalty. *)
Definition other_player (p : Z) : Z := if p =? HUMAN then COMPUTER else HUMAN.

(** A window is a start cell and a direction; it fits when its fourth
    cell is still on the grid. *)
Definition fits (w : Z * Z * Z * Z) : bool :=
  let '(r, c, dr, dc) := w in
  (0 <=? r + 3 * dr) && (r + 3 * dr <? 6) &&
  (0 <=? c + 3 * dc) && (c + 3 * dc <? 7).

Definition all_windows : list (Z * Z * Z * Z) :=
  List.filter fits
    (flat_map (fun d =>
       flat_map (fun r => map (fun c => (r, c, fst d, snd d)) (range 7))
                (range 6))
       directions).

Definition window_cells (b : board) (w : Z * Z * Z * Z) : list Z :=
  let '(r, c, dr, dc) := w in
  map (fun i => cell b (r + i * dr) (c + i * dc)) (range 4).

(** The window holds exactly [n] pieces of [p] and [e] empty cells. *)
Definition holds (w : list Z) (n p e : Z) : bool :=
  (count_eq p w =? n) && (count_eq EMPTY w =? e).

Definition window_score (w : list Z) (p : Z) : Z :=
  (if count_eq p w =? 4 then 100 else 0)
  + (if holds w 3 p 1 then 5 else 0)
  + (if holds w 2 p 2 then 2 else 0)
  + (if holds w 3 (other_player p) 1 then -50 else 0)
  + (if holds w 2 (other_player p) 2 then -3 else 0).

Definition sum_list (xs : list Z) : Z := foldr Z.add 0 xs.

(** How many of the listed cells hold a piece of [p]. *)
Definition pieces_in (b : board) (p : Z) (cells : list (Z * Z)) : Z :=
  Z.of_nat (length (List.filter (fun rc => cell b (fst rc) (snd rc) =? p) cells)).

Definition spec_score (b : board) (p : Z) : Z :=
  6 * pieces_in b p (map (fun r => (r, 3)) (range 6))
  + sum_list (map (fun w => window_score (window_cells b w) p) all_windows)
  + (if pieces_in b (other_player p) (map (fun c => (0, c)) (range 7)) =? 2
     then sum_list (map (fun c =>
            if holds (window_cells b (0, c, 0, 1)) 2 (other_player p) 2
            then -10 else 0) (range 4))
     else 0).

(** ** Plain minimax, for comparison with the pruned search

    The same tree as [abmax]/[abmin] walk (same cut at depth 0 and at
    finished states, same children), every child visited. *)
Definition pymax (x y : pynum) : pynum := if pygt y x then y else x.
Definition pymin (x y : pynum) : pynum := if pylt y x then y else x.

Fixpoint minimax_max (d : nat) (s : V.vstate) : pynum :=
  match d with
  | O => V.v_value s
  | S d' =>
      if V.is_finished s then V.v_value s
      else fold_left (fun v c => pymax v (minimax_min d' (V.first4 c)))
                     (V.get_next s) PNegInf
  end
with minimax_min (d : nat) (s : V.vstate) : pynum :=
  match d with
  | O => V.v_value s
  | S d' =>
      if V.is_finished s then V.v_value s
      else fold_left (fun v c => pymin v (minimax_max d' (V.first4 c)))
                     (V.get_next s) PInf
  end.

(** What a fail-soft alpha-beta call with window [(a, b)] says about the
    minimax value [m] through its result [v]: an upper bound when it
    fails low, the value itself inside the window, a lower bound when it
    fails high. *)
Definition fail_soft (v m a b : pynum) : Prop :=
  (pyle v a = true -> pyle m v = true) /\
  (pylt a v = true -> pylt v b = true -> v = m) /\
  (pyle b v = true -> pyle v m = true).

(** The order on Python numbers, packaged for the order tactic. *)
Module PyOrd.
Definition t : Type := pynum.
Definition eq : pynum -> pynum -> Prop := @Logic.eq pynum.
Definition lt (x y : pynum) : Prop := pylt x y = true.
Definition le (x y : pynum) : Prop := pylt y x = false.
End PyOrd.

(** * The game module (connect4.py)

    The functions of the game loop that work on the board, with the
    engine's heap.  What they print is not modelled.  A computation can now
    end in an IndexError. *)

Definition RED_INT : Z := 1.
Definition BLUE_INT : Z := 2.

(** Heap-passing computations that may raise: [None] is an IndexError. *)
Definition MX (A : Type) : Type := heap -> option (A * heap).

Definition xret {A} (x : A) : MX A := fun h => Some (x, h).
Definition xbind {A B} (m : MX A) (f : A -> MX B) : MX B :=
  fun h => match m h with
           | Some (x, h') => f x h'
           | None => None
           end.
Definition lift {A} (m : M A) : MX A := fun h => Some (m h).
Definition raise {A} : MX A := fun _ => None.

Notation "'let+' x ':=' m 'in' k" := (xbind m (fun x => k))
  (at level 10, x name, m at level 100, k at level 200).

(** [np.zeros((ROW_COUNT, COLUMN_COUNT), dtype=int)] in a new array *)
Definition create_board : M loc :=
  fun h => (length h,
            h ++ [replicate (Z.to_nat ROW_COUNT)
                    (replicate (Z.to_nat COLUMN_COUNT) 0)]).

(** [copy.deepcopy(board)] *)
Definition copy_board (l : loc) : M loc :=
  fun h => (length h, h ++ [default [] (h !! l)]).

(** [board[row][col] = chip].  [row] is what [get_next_open_row] gave,
    possibly Python's [None]: then [board[None]] is the array seen as a
    1x6x7 array, whose only entry along the new axis (index 0 or -1) is
    the whole board, so the assignment fills every cell; another index is
    out of bounds. *)
Definition drop_chip (l : loc) (row : option Z) (col chip : Z) : MX unit :=
  match row with
  | Some r => lift (store_cell l r col chip)
  | None =>
      if (col =? 0) || (col =? -1)
      then fun h =>
             Some (tt, <[l := map (map (fun _ => chip)) (default [] (h !! l))]> h)
      else raise
  end.

Definition is_valid_location (b : board) (col : Z) : bool :=
  cell b (ROW_COUNT - 1) col =? 0.

(** The loop of [get_next_open_row]; falling off its end returns
    [None]. *)
Fixpoint first_open_row (b : board) (col : Z) (rows : list Z) : option Z :=
  match rows with
  | [] => None
  | r :: rest => if cell b r col =? 0 then Some r else first_open_row b col rest
  end.

Definition get_next_open_row (b : board) (col : Z) : option Z :=
  first_open_row b col (range ROW_COUNT).

(** [str(x)] for an integer *)
Definition py_str (x : Z) : String.string :=
  DecimalString.NilZero.string_of_int (Z.to_int x).

(** ["".join(list(map(str, xs)))] *)
Definition join_str (xs : list Z) : String.string :=
  String.concat String.EmptyString (map py_str xs).

(** [needle in hay] on strings *)
Fixpoint starts_with (needle hay : String.string) : bool :=
  match needle, hay with
  | String.EmptyString, _ => true
  | String.String a n', String.String b h' =>
      Ascii.eqb a b && starts_with n' h'
  | String.String _ _, String.EmptyString => false
  end.

Fixpoint contains (needle hay : String.string) : bool :=
  starts_with needle hay ||
  match hay with
  | String.EmptyString => false
  | String.String _ h' => contains needle h'
  end.

(** [board.diagonal(offset)] of a two-dimensional array *)
Definition nrows (b : board) : Z := Z.of_nat (length b).
Definition ncols (b : board) : Z := Z.of_nat (length (row_of b 0)).

Definition diagonal (b : board) (offset : Z) : list Z :=
  if 0 <=? offset
  then map (fun i => cell b i (i + offset))
           (range (Z.min (nrows b) (ncols b - offset)))
  else map (fun i => cell b (i - offset) i)
           (range (Z.min (nrows b + offset) (ncols b))).

(** [np.flip(board, 1)] *)
Definition flip_columns (b : board) : board := map (@rev Z) b.

Definition game_is_won (b : board) (chip : Z) : bool :=
  let winning_Sequence := [chip; chip; chip; chip] in
  existsb (fun r => contains (join_str winning_Sequence) (join_str (row_of b r)))
          (range ROW_COUNT)
  || existsb (fun c => contains (join_str winning_Sequence) (join_str (column b c)))
             (range COLUMN_COUNT)
  || existsb (fun offset =>
                contains (join_str winning_Sequence) (join_str (diagonal b offset)))
             (seqZ (-2) 6)
  || existsb (fun offset =>
                contains (join_str winning_Sequence)
                         (join_str (diagonal (flip_columns b) offset)))
             (seqZ (-2) 6).

Definition get_valid_locations (b : board) : list Z :=
  List.filter (is_valid_location b) (range COLUMN_COUNT).

(** The loop shared by [should_win] and [should_block]: the first column
    of [cols] where dropping [piece] on a copy of the board wins. *)
Fixpoint first_winning_drop (l : loc) (piece : Z) (cols : list Z)
    : MX (option Z) :=
  match cols with
  | [] => xret None
  | col :: rest =>
      let+ temp_board := lift (copy_board l) in
      let+ tb := lift (deref temp_board) in
      let row := get_next_open_row tb col in
      let+ _ := drop_chip temp_board row col piece in
      let+ tb := lift (deref temp_board) in
      if game_is_won tb piece then xret (Some col)
      else first_winning_drop l piece rest
  end.

Definition should_win (l : loc) (piece : Z) : MX (option Z) :=
  let+ b := lift (deref l) in
  first_winning_drop l piece (get_valid_locations b).

Definition should_block (l : loc) (piece : Z) : MX (option Z) :=
  let opponent := if piece =? BLUE_INT then RED_INT else BLUE_INT in
  let+ b := lift (deref l) in
  first_winning_drop l opponent (get_valid_locations b).

Definition MoveAI (l : loc) (color : Z) : MX unit :=
  let+ best_col := lift (go l) in
  let+ b := lift (deref l) in
  let row := get_next_open_row b best_col in
  drop_chip l row best_col color.

(** The loop of [MoveSmartAI] that collects every column where the
    opponent would win. *)
Fixpoint blocks_loop (l : loc) (opponent : Z) (cols : list Z)
    (blocks_needed : list Z) : MX (list Z) :=
  match cols with
  | [] => xret blocks_needed
  | col :: rest =>
      let+ temp_board := lift (copy_board l) in
      let+ tb := lift (deref temp_board) in
      let row := get_next_open_row tb col in
      let+ _ := drop_chip temp_board row col opponent in
      let+ tb := lift (deref temp_board) in
      let blocks_needed :=
        if game_is_won tb opponent then blocks_needed ++ [col]
        else blocks_needed in
      blocks_loop l opponent rest blocks_needed
  end.

Definition MoveSmartAI (l : loc) (color : Z) : MX unit :=
  let+ win_col := should_win l color in
  match win_col with
  | Some win_col =>
      let+ b := lift (deref l) in
      let row := get_next_open_row b win_col in
      drop_chip l row win_col color
  | None =>
      let opponent := if color =? BLUE_INT then RED_INT else BLUE_INT in
      let+ b := lift (deref l) in
      let+ blocks_needed := blocks_loop l opponent (get_valid_locations b) [] in
      if (Z.of_nat (length blocks_needed) =? 1)
      then
        let col := nth 0 blocks_needed 0 in
        let+ b := lift (deref l) in
        let row := get_next_open_row b col in
        drop_chip l row col color
      else MoveAI l color
  end.

(** The character [str] gives for a one-digit number, and the test for
    four consecutive entries equal to [p] that the substring search
    amounts to on one-digit entries. *)
Definition digit_char (x : Z) : Ascii.ascii :=
  match py_str x with
  | String.String c _ => c
  | String.EmptyString => Ascii.zero
  end.

Definition starts4 (p : Z) (l : list Z) : bool :=
  match l with
  | a :: b :: c :: d :: _ => (a =? p) && (b =? p) && (c =? p) && (d =? p)
  | _ => false
  end.

Fixpoint has_run4 (p : Z) (l : list Z) : bool :=
  match l with
  | [] => false
  | _ :: rest => starts4 p l || has_run4 p rest
  end.

(** Every cell of the grid prints as one digit. *)
Definition digits_board (b : board) : Prop :=
  forall r c, 0 <= r < 6 -> 0 <= c < 7 -> 0 <= cell b r c <= 9.

(** The board after a chip of [piece] has been dropped in column [col],
    and the columns where that drop makes four in a row. *)
Definition dropped (b : board) (col piece : Z) : board :=
  set_cell b (get_next_row b col) col piece.

Definition drop_wins (b : board) (col piece : Z) : Prop :=
  0 <= col < 7 /\ cell b 5 col = 0 /\
  four_in_a_row (dropped b col piece) piece.

(** * Proofs *)

(** ** The heap engine computes the value engine and only allocates *)

Section Refinement.

Lemma view_app (h t : heap) (s : state) :
  (s_board s < length h)%nat -> view (h ++ t) s = view h s.
Proof.
  intros Hlt. unfold view. now rewrite lookup_app_l.
Qed.

Lemma view_last (h : heap) (b : board) (l : loc) v t e r :
  l = length h -> view (h ++ [b]) (mkState l v t e r) = V.mkV b v t e r.
Proof.
  intros ->. unfold view. simpl.
  now rewrite list_lookup_middle.
Qed.

Lemma is_finished_view (h : heap) (s : state) :
  is_finished s = V.is_finished (view h s).
Proof. reflexivity. Qed.

Lemma col_played_view (h : heap) (s : state) :
  col_played s = V.col_played (view h s).
Proof. reflexivity. Qed.

(** A move on the array allocated last rewrites that array only. *)
Lemma make_move_last (h : heap) (b : board) (s : state) (col : Z) :
  s_board s = length h ->
  exists s' b',
    make_move s col (h ++ [b]) = (s', h ++ [b']) /\
    s_board s' = length h /\
    view (h ++ [b']) s' = V.make_move (view (h ++ [b]) s) col.
Proof.
  intros Hl. destruct s as [l v t e r]. simpl in Hl. subst l.
  unfold make_move, bind, deref, store_cell, ret. simpl.
  rewrite (view_last h b _ v t e r eq_refl).
  unfold V.make_move. simpl.
  rewrite list_lookup_middle by reflexivity. simpl.
  destruct (get_next_row b col =? -1) eqn:Hrow.
  - exists (mkState (length h) v t e r), b. split; [reflexivity|].
    split; [reflexivity|]. now apply view_last.
  - rewrite insert_app_r_alt by lia.
    replace (length h - length h)%nat with 0%nat by lia. simpl.
    rewrite !list_lookup_middle by reflexivity. simpl.
    eexists _, _. split; [reflexivity|]. split; [reflexivity|].
    now apply view_last.
Qed.

Lemma get_next_loop_view (cols : list Z) :
  forall (s : state) (h : heap),
    (s_board s < length h)%nat ->
    exists cs t,
      get_next_loop s cols h = (cs, h ++ t) /\
      Forall (fun c => (s_board c < length (h ++ t))%nat) cs /\
      map (view (h ++ t)) cs = map (V.child (view h s)) cols /\
      map s_board cs = seq (length h) (length cols).
Proof.
  induction cols as [|col rest IH]; intros s h Hs.
  - exists [], []. simpl. unfold ret. rewrite app_nil_r. auto.
  - simpl. unfold bind at 1. unfold deepcopy.
    set (b := default [] (h !! s_board s)).
    set (s1 := mkState (length h) (s_value s) (s_turn s) (s_empty s) (s_rest s)).
    destruct (make_move_last h b s1 col eq_refl) as (s2 & b' & Hmv & Hl2 & Hv2).
    unfold bind at 1. rewrite Hmv.
    assert (Hs' : (s_board s < length (h ++ [b']))%nat)
      by (rewrite length_app; simpl; lia).
    destruct (IH s (h ++ [b']) Hs') as (cs & t & Hrun & Hall & Hmap & Hlocs).
    unfold bind. rewrite Hrun. unfold ret.
    exists (mkState (s_board s2) (s_value s2) (s_turn s2) (s_empty s2)
                    (s_rest s2 ++ [col]) :: cs), ([b'] ++ t).
    rewrite app_assoc. split; [reflexivity|]. split; [|split].
    + constructor; [|exact Hall]. simpl. rewrite Hl2, !length_app. simpl. lia.
    + simpl. f_equal.
      * rewrite view_app by (simpl; rewrite Hl2, length_app; simpl; lia).
        unfold V.child. rewrite <- (view_app h [b]) by exact Hs.
        replace (view (h ++ [b]) s) with (view (h ++ [b]) s1).
        2:{ unfold s1. rewrite (view_last h b _ _ _ _ _ eq_refl).
            rewrite view_app by exact Hs. reflexivity. }
        rewrite <- Hv2. reflexivity.
      * rewrite Hmap. now rewrite view_app.
    + simpl. rewrite Hlocs, Hl2, length_app. simpl.
      now replace (length h + 1)%nat with (S (length h)) by lia.
Qed.

Lemma get_next_view (s : state) (h : heap) :
  (s_board s < length h)%nat ->
  exists cs t,
    get_next s h = (cs, h ++ t) /\
    Forall (fun c => (s_board c < length (h ++ t))%nat) cs /\
    map (view (h ++ t)) cs = V.get_next (view h s) /\
    map s_board cs = seq (length h) (length (V.get_next (view h s))).
Proof.
  intros Hs. unfold get_next, bind, deref, V.get_next.
  rewrite length_map.
  apply (get_next_loop_view _ s h Hs).
Qed.

Lemma views_app (h t : heap) (cs : list state) :
  Forall (fun c => (s_board c < length h)%nat) cs ->
  map (view (h ++ t)) cs = map (view h) cs.
Proof.
  induction 1 as [|c cs Hc _ IH]; simpl; [reflexivity|].
  now rewrite IH, view_app.
Qed.

Lemma alloc_app (h t : heap) (cs : list state) :
  Forall (fun c => (s_board c < length h)%nat) cs ->
  Forall (fun c => (s_board c < length (h ++ t))%nat) cs.
Proof.
  intros Hall. eapply Forall_impl; [exact Hall|].
  intros c Hc. simpl in *. rewrite length_app. lia.
Qed.

Lemma deepcopy_first4 (h : heap) (st : state) :
  exists c b,
    deepcopy (first4 st) h = (c, h ++ [b]) /\
    s_board c = length h /\
    view (h ++ [b]) c = V.first4 (view h st).
Proof.
  eexists _, _. split; [reflexivity|]. split; [reflexivity|].
  simpl. now rewrite view_last.
Qed.

Lemma abmax_loop_view rec vrec (cs : list state) :
  computes rec vrec ->
  forall h v best a b,
    Forall (fun c => (s_board c < length h)%nat) cs ->
    exists t,
      abmax_loop rec cs v best a b h =
      (V.abmax_loop vrec (map (view h) cs) v best a b, h ++ t).
Proof.
  intros Hrec. induction cs as [|st rest IH]; intros h v best a b Hall.
  - exists []. simpl. unfold ret. now rewrite app_nil_r.
  - inversion Hall as [|? ? Hst Hrest]; subst.
    destruct (deepcopy_first4 h st) as (c & bd & Hcp & Hl & Hv).
    simpl. unfold bind at 1. rewrite Hcp.
    destruct (Hrec c a b (h ++ [bd])) as (t1 & Hrun).
    { rewrite Hl, length_app. simpl. lia. }
    unfold bind at 1. rewrite Hrun, Hv. clear Hrun Hcp.
    rewrite <- (col_played_view h).
    set (tmp := vrec (V.first4 (view h st)) a b).
    destruct (if pygt (fst tmp) v then (fst tmp, col_played st) else (v, best))
      as [v' best'].
    destruct (pyge v' b).
    + exists ([bd] ++ t1). unfold ret. now rewrite !app_assoc.
    + destruct (IH ((h ++ [bd]) ++ t1) v' best' (if pygt v' a then v' else a) b)
        as (t2 & Hrun2).
      { rewrite <- app_assoc. now apply alloc_app. }
      rewrite Hrun2. exists (([bd] ++ t1) ++ t2).
      rewrite <- app_assoc, views_app by exact Hrest.
      now rewrite !app_assoc.
Qed.

Lemma abmin_loop_view rec vrec (cs : list state) :
  computes rec vrec ->
  forall h v best a b,
    Forall (fun c => (s_board c < length h)%nat) cs ->
    exists t,
      abmin_loop rec cs v best a b h =
      (V.abmin_loop vrec (map (view h) cs) v best a b, h ++ t).
Proof.
  intros Hrec. induction cs as [|st rest IH]; intros h v best a b Hall.
  - exists []. simpl. unfold ret. now rewrite app_nil_r.
  - inversion Hall as [|? ? Hst Hrest]; subst.
    destruct (deepcopy_first4 h st) as (c & bd & Hcp & Hl & Hv).
    simpl. unfold bind at 1. rewrite Hcp.
    destruct (Hrec c a b (h ++ [bd])) as (t1 & Hrun).
    { rewrite Hl, length_app. simpl. lia. }
    unfold bind at 1. rewrite Hrun, Hv. clear Hrun Hcp.
    rewrite <- (col_played_view h).
    set (tmp := vrec (V.first4 (view h st)) a b).
    destruct (if pylt (fst tmp) v then (fst tmp, col_played st) else (v, best))
      as [v' best'].
    destruct (pyle v' a).
    + exists ([bd] ++ t1). unfold ret. now rewrite !app_assoc.
    + destruct (IH ((h ++ [bd]) ++ t1) v' best' a (if pylt v' b then v' else b))
        as (t2 & Hrun2).
      { rewrite <- app_assoc. now apply alloc_app. }
      rewrite Hrun2. exists (([bd] ++ t1) ++ t2).
      rewrite <- app_assoc, views_app by exact Hrest.
      now rewrite !app_assoc.
Qed.

Lemma abmax_abmin_view (d : nat) :
  computes (abmax d) (V.abmax d) /\ computes (abmin d) (V.abmin d).
Proof.
  induction d as [|d [IHmax IHmin]].
  - split; intros s a b h _; exists []; simpl; unfold ret;
      now rewrite app_nil_r.
  - split; intros s a b h Hs; simpl;
      rewrite <- (is_finished_view h); destruct (is_finished s).
    + exists []. unfold ret. now rewrite app_nil_r.
    + destruct (get_next_view s h Hs) as (cs & t & Hrun & Hall & Hmap & _).
      unfold bind. rewrite Hrun.
      destruct (abmax_loop_view _ _ cs IHmin (h ++ t) PNegInf 0 a b Hall)
        as (t2 & Hrun2).
      rewrite Hrun2, Hmap. exists (t ++ t2). now rewrite app_assoc.
    + exists []. unfold ret. now rewrite app_nil_r.
    + destruct (get_next_view s h Hs) as (cs & t & Hrun & Hall & Hmap & _).
      unfold bind. rewrite Hrun.
      destruct (abmin_loop_view _ _ cs IHmax (h ++ t) PInf 0 a b Hall)
        as (t2 & Hrun2).
      rewrite Hrun2, Hmap. exists (t ++ t2). now rewrite app_assoc.
Qed.

(** [go] returns what the value engine computes on the caller's array and
    leaves a heap that extends the initial one. *)
Lemma go_view (l : loc) (h : heap) :
  (l < length h)%nat ->
  exists t, go l h = (V.go (default [] (h !! l)), h ++ t).
Proof.
  intros Hl. unfold go, create_state, bind, deref, ret.
  destruct (proj1 (abmax_abmin_view DEPTH)
              (mkState l PSmall COMPUTER (count_board 0 (default [] (h !! l))) [])
              (PInt (LOSS - 1)) (PInt (VIC + 1)) h Hl) as (t & Hrun).
  rewrite Hrun. exists t. reflexivity.
Qed.

End Refinement.

(** ** Boards: cells, rows, four in a row *)

Section Boards.

Lemma in_range (n x : Z) : In x (range n) <-> 0 <= x < n.
Proof.
  unfold range. rewrite <- list_elem_of_In, elem_of_seqZ. lia.
Qed.

Lemma in_seqZ (m n x : Z) : In x (seqZ m n) <-> m <= x < m + n.
Proof. now rewrite <- list_elem_of_In, elem_of_seqZ. Qed.

Lemma wf_row (b : board) (r : Z) :
  wf_board b -> 0 <= r < 6 ->
  exists row, b !! Z.to_nat r = Some row /\ length row = 7%nat.
Proof.
  intros [Hlen Hrows] Hr.
  destruct (lookup_lt_is_Some_2 b (Z.to_nat r)) as [row Hrow]; [lia|].
  exists row. split; [exact Hrow|].
  rewrite Forall_forall in Hrows. apply Hrows.
  apply list_elem_of_lookup. eauto.
Qed.

Lemma wf_set_cell (b : board) (r c v : Z) :
  wf_board b -> wf_board (set_cell b r c v).
Proof.
  intros [Hlen Hrows]. unfold set_cell.
  destruct (b !! Z.to_nat r) as [row|] eqn:Hrow; simpl.
  - split; [now rewrite length_insert|].
    apply Forall_insert; [exact Hrows|].
    rewrite length_insert.
    rewrite Forall_forall in Hrows. apply Hrows.
    apply list_elem_of_lookup. eauto.
  - apply lookup_ge_None in Hrow. rewrite list_insert_ge by lia.
    now split.
Qed.

Lemma cell_set_cell (b : board) (r c v r' c' : Z) :
  wf_board b -> 0 <= r < 6 -> 0 <= c < 7 -> 0 <= r' -> 0 <= c' ->
  cell (set_cell b r c v) r' c' =
  if (r' =? r) && (c' =? c) then v else cell b r' c'.
Proof.
  intros Hwf Hr Hc Hr' Hc'.
  destruct (wf_row b r Hwf Hr) as (row & Hrow & Hlen).
  unfold cell, set_cell, at_col. rewrite Hrow. simpl.
  destruct (Z.eqb_spec r' r) as [->|Hne]; simpl.
  - rewrite list_lookup_insert_eq
      by (apply lookup_lt_is_Some; rewrite Hrow; eauto).
    simpl. rewrite Hrow. simpl.
    destruct (Z.eqb_spec c' c) as [->|Hnc].
    + rewrite list_lookup_insert_eq by lia. reflexivity.
    + rewrite list_lookup_insert_ne by lia. reflexivity.
  - rewrite list_lookup_insert_ne by lia. reflexivity.
Qed.

(** What [get_next_row] returns: the lowest empty row of the column, or
    [-1] when rows 0..5 of the column are all occupied. *)
Lemma first_empty_row_spec (b : board) (col : Z) (rows : list Z) :
  (first_empty_row b col rows = -1 /\
   forall r, In r rows -> r <> -1 -> cell b r col <> 0) \/
  (exists pre post,
     rows = pre ++ first_empty_row b col rows :: post /\
     cell b (first_empty_row b col rows) col = 0 /\
     forall r, In r pre -> cell b r col <> 0).
Proof.
  induction rows as [|row rest IH]; simpl.
  - left. split; [reflexivity|]. intros r [].
  - destruct (Z.eqb_spec (cell b row col) EMPTY) as [He|Hne].
    + right. exists [], rest. simpl. split; [reflexivity|].
      split; [exact He|]. intros r [].
    + destruct IH as [[Hm Hall]|(pre & post & Heq & Hz & Hpre)].
      * left. split; [exact Hm|]. intros r [<-|Hin] Hr; auto.
      * right. exists (row :: pre), post. simpl.
        split; [now rewrite <- Heq|]. split; [exact Hz|].
        intros r [<-|Hin]; auto.
Qed.

Lemma range_split (n : Z) (pre post : list Z) (x : Z) :
  range n = pre ++ x :: post ->
  0 <= x < n /\ forall r, 0 <= r < x -> In r pre.
Proof.
  intros Heq.
  assert (Hx : In x (range n)) by (rewrite Heq; apply in_or_app; simpl; auto).
  apply in_range in Hx. split; [exact Hx|].
  intros r Hr.
  assert (Hlk : range n !! Z.to_nat r = Some r).
  { unfold range. rewrite lookup_seqZ_lt by lia. f_equal. lia. }
  assert (Hlx : range n !! length pre = Some x)
    by (rewrite Heq; now apply list_lookup_middle).
  unfold range in Hlx. apply lookup_seqZ in Hlx. destruct Hlx as [Hxv _].
  rewrite Heq in Hlk. rewrite lookup_app_l in Hlk by lia.
  apply list_elem_of_In. apply list_elem_of_lookup. eauto.
Qed.

Lemma get_next_row_full (b : board) (col : Z) :
  get_next_row b col = -1 <->
  forall r, 0 <= r < 6 -> cell b r col <> 0.
Proof.
  unfold get_next_row.
  destruct (first_empty_row_spec b col (range ROW_COUNT))
    as [[Hm Hall]|(pre & post & Heq & Hz & Hpre)].
  - split; [|intros _; exact Hm]. intros _ r Hr.
    apply Hall; [apply in_range; exact Hr | lia].
  - destruct (range_split _ _ _ _ Heq) as [Hx _].
    set (x := first_empty_row b col (range ROW_COUNT)) in *.
    unfold ROW_COUNT in Hx.
    split; [lia|]. intros Hall. exfalso. now apply (Hall _ Hx).
Qed.

Lemma get_next_row_lowest (b : board) (col : Z) :
  get_next_row b col <> -1 ->
  0 <= get_next_row b col < 6 /\
  cell b (get_next_row b col) col = 0 /\
  forall r, 0 <= r < get_next_row b col -> cell b r col <> 0.
Proof.
  unfold get_next_row.
  destruct (first_empty_row_spec b col (range ROW_COUNT))
    as [[Hm Hall]|(pre & post & Heq & Hz & Hpre)]; [congruence|].
  intros _. destruct (range_split _ _ _ _ Heq) as [Hx Hlow].
  split; [exact Hx|]. split; [exact Hz|].
  intros r Hr. apply Hpre. now apply Hlow.
Qed.

Lemma legal_has_row (b : board) (col : Z) :
  cell b 5 col = 0 -> get_next_row b col <> -1.
Proof.
  intros Htop Hfull. rewrite get_next_row_full in Hfull.
  apply (Hfull 5); [lia | exact Htop].
Qed.

Lemma valid_columns_spec (b : board) (col : Z) :
  In col (get_valid_columns b) <-> 0 <= col < 7 /\ cell b 5 col = 0.
Proof.
  unfold get_valid_columns. rewrite <- list_elem_of_In, list_elem_of_filter.
  rewrite list_elem_of_In, in_range. unfold ROW_COUNT, COLUMN_COUNT, EMPTY.
  simpl. tauto.
Qed.

Ltac cell_hyp :=
  match goal with
  | H : cell ?b ?r ?c = ?p |- cell ?b ?x ?y = ?p =>
      replace x with r by lia; replace y with c by lia; exact H
  end.

Ltac four_cells Hc Hr :=
  intros i Hi;
  assert (Hcase : i = 0 \/ i = 1 \/ i = 2 \/ i = 3) by lia;
  unfold ROW_COUNT, COLUMN_COUNT in Hc, Hr; simpl in Hc, Hr;
  destruct Hcase as [-> | [-> | [-> | ->]]];
  (split; [lia | split; [lia | cell_hyp]]).

Lemma check_win_four (b : board) (p : Z) :
  check_win b p = true -> four_in_a_row b p.
Proof.
  unfold check_win. rewrite !orb_true_iff.
  intros [[[H|H]|H]|H];
    apply existsb_exists in H; destruct H as (c & Hc & H);
    apply existsb_exists in H; destruct H as (r & Hr & H);
    rewrite !andb_true_iff, !Z.eqb_eq in H;
    destruct H as [[[H0 H1] H2] H3];
    first [apply in_range in Hc | apply in_seqZ in Hc];
    first [apply in_range in Hr | apply in_seqZ in Hr].
  - exists r, c, 0, 1. split; [simpl; auto|]. four_cells Hc Hr.
  - exists r, c, 1, 0. split; [simpl; auto|]. four_cells Hc Hr.
  - exists r, c, 1, 1. split; [simpl; auto|]. four_cells Hc Hr.
  - exists r, c, (-1), 1. split; [simpl; auto 6|]. four_cells Hc Hr.
Qed.

Ltac four_eqs H :=
  rewrite !andb_true_iff, !Z.eqb_eq;
  pose proof (H 0 ltac:(lia)) as (_ & _ & ?);
  pose proof (H 1 ltac:(lia)) as (_ & _ & ?);
  pose proof (H 2 ltac:(lia)) as (_ & _ & ?);
  pose proof (H 3 ltac:(lia)) as (_ & _ & ?);
  repeat split; cell_hyp.

Lemma four_check_win (b : board) (p : Z) :
  four_in_a_row b p -> check_win b p = true.
Proof.
  intros (r & c & dr & dc & Hd & H).
  pose proof (H 0 ltac:(lia)) as (Hr0 & Hc0 & _).
  pose proof (H 3 ltac:(lia)) as (Hr3 & Hc3 & _).
  unfold check_win. rewrite !orb_true_iff.
  simpl in Hd.
  destruct Hd as [Hd|[Hd|[Hd|[Hd|[]]]]]; inversion Hd; subst dr dc; clear Hd.
  - left; left; left. apply existsb_exists. exists c.
    split; [apply in_range; unfold COLUMN_COUNT; lia|].
    apply existsb_exists. exists r.
    split; [apply in_range; unfold ROW_COUNT; lia|]. four_eqs H.
  - left; left; right. apply existsb_exists. exists c.
    split; [apply in_range; unfold COLUMN_COUNT; lia|].
    apply existsb_exists. exists r.
    split; [apply in_range; unfold ROW_COUNT; lia|]. four_eqs H.
  - left; right. apply existsb_exists. exists c.
    split; [apply in_range; unfold COLUMN_COUNT; lia|].
    apply existsb_exists. exists r.
    split; [apply in_range; unfold ROW_COUNT; lia|]. four_eqs H.
  - right. apply existsb_exists. exists c.
    split; [apply in_range; unfold COLUMN_COUNT; lia|].
    apply existsb_exists. exists r.
    split; [apply in_seqZ; unfold ROW_COUNT; lia|]. four_eqs H.
Qed.

Lemma check_win_spec (b : board) (p : Z) :
  check_win b p = true <-> four_in_a_row b p.
Proof. split; [apply check_win_four | apply four_check_win]. Qed.

End Boards.

(** ** Counting cells *)

Section Counting.

Lemma count_eq_nil (x : Z) : count_eq x [] = 0.
Proof. reflexivity. Qed.

Lemma count_eq_cons (x y : Z) (w : list Z) :
  count_eq x (y :: w) = (if decide (y = x) then 1 else 0) + count_eq x w.
Proof.
  unfold count_eq. rewrite filter_cons.
  destruct (decide (y = x)); simpl length; lia.
Qed.

Lemma count_eq_bounds (x : Z) (w : list Z) :
  0 <= count_eq x w <= Z.of_nat (length w).
Proof.
  induction w as [|y w IH]; [rewrite count_eq_nil; simpl; lia|].
  rewrite count_eq_cons. simpl length.
  destruct (decide (y = x)); lia.
Qed.

Lemma count_eq_insert_zero (row : list Z) (i : nat) (v : Z) :
  row !! i = Some 0 -> v <> 0 ->
  count_eq 0 (<[i:=v]> row) = count_eq 0 row - 1.
Proof.
  revert i. induction row as [|y row IH]; intros i Hi Hv; [discriminate|].
  destruct i as [|i]; simpl in *.
  - injection Hi as ->. rewrite !count_eq_cons.
    destruct (decide (v = 0)); [contradiction|].
    destruct (decide (0 = 0)); [lia|contradiction].
  - rewrite !count_eq_cons, IH by assumption. lia.
Qed.

Lemma count_board_insert (x : Z) (b : board) (i : nat) (row row' : list Z) :
  b !! i = Some row ->
  count_board x (<[i:=row']> b) = count_board x b - count_eq x row + count_eq x row'.
Proof.
  revert i. induction b as [|r0 b IH]; intros i Hi; [discriminate|].
  destruct i as [|i]; simpl in *.
  - injection Hi as ->. lia.
  - rewrite (IH i Hi). lia.
Qed.

Lemma count_board_set_cell (b : board) (r c v : Z) :
  wf_board b -> 0 <= r < 6 -> 0 <= c < 7 -> cell b r c = 0 -> v <> 0 ->
  count_board 0 (set_cell b r c v) = count_board 0 b - 1.
Proof.
  intros Hwf Hr Hc Hz Hv.
  destruct (wf_row b r Hwf Hr) as (row & Hrow & Hlen).
  unfold set_cell. rewrite Hrow. simpl.
  rewrite (count_board_insert 0 b _ row _ Hrow).
  unfold cell, at_col in Hz. rewrite Hrow in Hz. simpl in Hz.
  destruct (lookup_lt_is_Some_2 row (Z.to_nat c)) as [y Hy]; [lia|].
  rewrite Hy in Hz. simpl in Hz. subst y.
  rewrite (count_eq_insert_zero row _ v Hy Hv). lia.
Qed.

Lemma count_eq_pos (row : list Z) :
  count_eq 0 row <> 0 -> exists i, row !! i = Some 0.
Proof.
  induction row as [|y row IH]; [intros H; now rewrite count_eq_nil in H|].
  rewrite count_eq_cons. destruct (decide (y = 0)) as [->|Hy].
  - intros _. now exists 0%nat.
  - intros H. destruct IH as [i Hi]; [lia|]. now exists (S i).
Qed.

Lemma count_board_pos (b : board) :
  count_board 0 b <> 0 ->
  exists i row, b !! i = Some row /\ count_eq 0 row <> 0.
Proof.
  induction b as [|r0 b IH]; simpl; [congruence|].
  destruct (Z.eq_dec (count_eq 0 r0) 0) as [Hz|Hnz].
  - intros H. destruct IH as (i & row & Hi & Hrow); [lia|].
    now exists (S i), row.
  - intros _. now exists 0%nat, r0.
Qed.

Lemma exists_empty_cell (b : board) :
  wf_board b -> count_board 0 b <> 0 ->
  exists r c, 0 <= r < 6 /\ 0 <= c < 7 /\ cell b r c = 0.
Proof.
  intros [Hlen Hrows] Hcount.
  destruct (count_board_pos b Hcount) as (i & row & Hi & Hrow).
  destruct (count_eq_pos row Hrow) as (j & Hj).
  pose proof (lookup_lt_Some _ _ _ Hi) as Hil.
  pose proof (lookup_lt_Some _ _ _ Hj) as Hjl.
  rewrite Forall_forall in Hrows.
  rewrite (Hrows row) in Hjl by (apply list_elem_of_lookup; eauto).
  exists (Z.of_nat i), (Z.of_nat j). split; [lia|]. split; [lia|].
  unfold cell, at_col. rewrite !Nat2Z.id, Hi. simpl. now rewrite Hj.
Qed.

End Counting.


(** ** Order on Python numbers *)

Section Order.

Lemma VIC_value : VIC = 100000000000000000000.
Proof. reflexivity. Qed.

Lemma pylt_int (x y : Z) : pylt (PInt x) (PInt y) = (x <? y).
Proof.
  unfold pylt, key.
  destruct (Z.ltb_spec (2 * x) (2 * y)), (Z.ltb_spec x y); auto; lia.
Qed.

Lemma pyle_int (x y : Z) : pyle (PInt x) (PInt y) = (x <=? y).
Proof.
  unfold pyle. rewrite pylt_int.
  destruct (Z.ltb_spec y x), (Z.leb_spec x y); auto; lia.
Qed.

Ltac py_order :=
  unfold bounded, pygt, pyge, pyle, pylt, key in *;
  repeat match goal with x : pynum |- _ => destruct x end;
  simpl in *;
  rewrite ?negb_true_iff, ?negb_false_iff, ?Z.ltb_lt, ?Z.ltb_ge in *;
  repeat match goal with
         | H : _ /\ _ |- _ => destruct H
         | H : negb _ = true |- _ => rewrite negb_true_iff in H
         | H : negb _ = false |- _ => rewrite negb_false_iff in H
         | H : (_ <? _) = true |- _ => rewrite Z.ltb_lt in H
         | H : (_ <? _) = false |- _ => rewrite Z.ltb_ge in H
         end;
  try congruence; try lia.

Lemma pylt_trans (x y z : pynum) :
  pylt x y = true -> pylt y z = true -> pylt x z = true.
Proof. intros; py_order. Qed.

Lemma pyle_lt_trans (x y z : pynum) :
  pyle x y = true -> pylt y z = true -> pylt x z = true.
Proof. intros; py_order. Qed.

Lemma pylt_le_trans (x y z : pynum) :
  pylt x y = true -> pyle y z = true -> pylt x z = true.
Proof. intros; py_order. Qed.

Lemma pylt_le (x y : pynum) : pylt x y = true -> pyle x y = true.
Proof. intros; py_order. Qed.

Lemma pyle_refl (x : pynum) : pyle x x = true.
Proof. py_order. Qed.

Lemma pyle_trans (x y z : pynum) :
  pyle x y = true -> pyle y z = true -> pyle x z = true.
Proof. intros; py_order. Qed.

Lemma not_pylt_le (x y : pynum) : pylt x y = false -> pyle y x = true.
Proof. intros; py_order. Qed.

Lemma bounded_gt_neginf (x : pynum) : bounded x -> pylt PNegInf x = true.
Proof. intros H. unfold bounded, LOSS in H. rewrite VIC_value in H. py_order. Qed.

Lemma bounded_lt_inf (x : pynum) : bounded x -> pylt x PInf = true.
Proof. intros H. unfold bounded, LOSS in H. rewrite VIC_value in H. py_order. Qed.

Lemma bounded_int (z : Z) : LOSS <= z <= VIC -> bounded (PInt z).
Proof.
  intros H. unfold bounded. rewrite !pyle_int. split; apply Z.leb_le; lia.
Qed.

Lemma bounded_small : bounded PSmall.
Proof. unfold bounded, LOSS. rewrite VIC_value. py_order. Qed.

Lemma bounded_lt_beta (x : pynum) :
  bounded x -> pylt x (PInt (VIC + 1)) = true.
Proof. intros H. unfold bounded, LOSS in H. rewrite VIC_value in *. py_order. Qed.

End Order.

(** ** Magnitude of the heuristic *)

Section Heuristic.

Lemma evaluate_window_bounds (w : list Z) (p : Z) :
  -50 <= evaluate_window w p <= 100.
Proof.
  unfold evaluate_window. cbv zeta.
  repeat match goal with
         | |- context [if ?c then _ else _] => destruct c
         end; lia.
Qed.

Lemma sum_over_bounds (xs : list Z) (f : Z -> Z) (lo hi acc : Z) :
  (forall x, lo <= f x <= hi) ->
  acc + lo * Z.of_nat (length xs) <= sum_over xs f acc
    <= acc + hi * Z.of_nat (length xs).
Proof.
  intros Hf. unfold sum_over. revert acc.
  induction xs as [|x xs IH]; intros acc; simpl fold_left; simpl length.
  - lia.
  - specialize (IH (acc + f x)). specialize (Hf x). lia.
Qed.

Lemma column_length (b : board) (c : Z) : length (column b c) = length b.
Proof. unfold column. apply length_map. Qed.

Lemma score_position_bounds (b : board) (p : Z) :
  wf_board b -> -3490 <= score_position b p <= 6936.
Proof.
  intros [Hlen _]. unfold score_position. cbv zeta.
  pose proof (count_eq_bounds p (column b (COLUMN_COUNT / 2))) as Hc.
  rewrite column_length, Hlen in Hc.
  set (c0 := 0 + count_eq p (column b (COLUMN_COUNT / 2)) * 6) in *.
  assert (Hc0 : 0 <= c0 <= 36) by (unfold c0; lia).
  clearbody c0. clear Hc.
  match goal with
  | |- context [if ?c then sum_over ?xs ?f c0 else c0] =>
      pose proof (sum_over_bounds xs f (-10) 0 c0) as H0;
      set (s0 := if c then sum_over xs f c0 else c0) in *;
      assert (Hs0 : -40 <= s0 <= 36)
  end.
  { unfold s0. destruct (_ =? 2); [|lia].
    simpl length in H0.
    assert (forall x : Z, -10 <= (let window := slice4 (row_of b 0) x in
              if (count_eq (opponent p) window =? 2) && (count_eq EMPTY window =? 2)
              then -10 else 0) <= 0) as Hf
      by (intros x; cbv zeta; destruct (_ && _); lia).
    specialize (H0 Hf). lia. }
  clearbody s0. clear H0.
  match goal with |- _ <= ?t <= _ => remember t as total eqn:Htotal end.
  repeat match goal with
  | H : context [sum_over ?xs (fun r => sum_over ?ys (@?g r) 0) ?acc] |- _ =>
      let Hs := fresh "Hsum" in
      assert (Hs : acc + (-50 * Z.of_nat (length ys)) * Z.of_nat (length xs)
                  <= sum_over xs (fun r => sum_over ys (g r) 0) acc
                  <= acc + (100 * Z.of_nat (length ys)) * Z.of_nat (length xs));
      [ apply sum_over_bounds; intros r;
        pose proof (sum_over_bounds ys (g r) (-50) 100 0
                      (fun c => evaluate_window_bounds _ p)); lia
      | let s := fresh "s" in
        set (s := sum_over xs (fun r => sum_over ys (g r) 0) acc) in *;
        simpl length in Hs; clearbody s ]
  end.
  lia.
Qed.

Lemma evaluate_bounded (b : board) (e : Z) :
  wf_board b -> bounded (evaluate b e).
Proof.
  intros Hwf. unfold evaluate.
  pose proof (score_position_bounds b COMPUTER Hwf).
  pose proof (score_position_bounds b HUMAN Hwf).
  repeat match goal with
         | |- context [if ?c then _ else _] => destruct c
         end; apply bounded_int; unfold LOSS, TIE; rewrite VIC_value; lia.
Qed.

End Heuristic.

(** ** The invariant of search states *)

Section Invariant.

Lemma in_insert_by (k : Z -> Z) (x y : Z) (xs : list Z) :
  In y (insert_by k x xs) <-> y = x \/ In y xs.
Proof.
  induction xs as [|z xs IH]; simpl.
  - intuition congruence.
  - destruct (k x <=? k z); simpl; [intuition congruence|].
    rewrite IH. intuition congruence.
Qed.

Lemma in_sorted (k : Z -> Z) (y : Z) (xs : list Z) :
  In y (sorted xs k) <-> In y xs.
Proof.
  unfold sorted. induction xs as [|x xs IH]; simpl; [tauto|].
  rewrite in_insert_by, IH. intuition congruence.
Qed.

Lemma gravity_set_cell (b : board) (col v : Z) :
  wf_board b -> gravity b -> 0 <= col < 7 ->
  get_next_row b col <> -1 -> v <> 0 ->
  gravity (set_cell b (get_next_row b col) col v).
Proof.
  intros Hwf Hg Hcol Hrow Hv.
  destruct (get_next_row_lowest b col Hrow) as (Hr & Hz & Hlow).
  intros r r' c Hrr Hr' Hc.
  rewrite !cell_set_cell by (auto; lia).
  destruct ((r =? get_next_row b col) && (c =? col)) eqn:E1;
    [intros; contradiction|].
  intros Hzero.
  destruct ((r' =? get_next_row b col) && (c =? col)) eqn:E2;
    [|now apply (Hg r r' c)].
  exfalso. apply andb_true_iff in E2. destruct E2 as [E2 E3].
  apply Z.eqb_eq in E2, E3. subst c.
  rewrite Z.eqb_refl, andb_true_r in E1. apply Z.eqb_neq in E1.
  apply (Hlow r); [lia | exact Hzero].
Qed.

Lemma inv_make_move (s : V.vstate) (col : Z) :
  inv s -> 0 <= col < 7 -> cell (V.v_board s) 5 col = 0 ->
  inv (V.make_move s col).
Proof.
  intros (Hwf & Hg & He & Ht & Hb) Hcol Htop.
  pose proof (legal_has_row _ _ Htop) as Hrow.
  destruct (get_next_row_lowest _ _ Hrow) as (Hr & Hz & _).
  assert (Hturn : V.v_turn s <> 0) by (unfold HUMAN, COMPUTER in Ht; lia).
  unfold V.make_move.
  destruct (Z.eqb_spec (get_next_row (V.v_board s) col) (-1)) as [|_];
    [contradiction|].
  assert (Hwf' := wf_set_cell (V.v_board s) (get_next_row (V.v_board s) col)
                    col (V.v_turn s) Hwf).
  split; [exact Hwf'|]. simpl. split; [now apply gravity_set_cell|].
  split; [rewrite count_board_set_cell by auto; lia|].
  split; [destruct (V.v_turn s =? HUMAN); auto|].
  now apply evaluate_bounded.
Qed.

Lemma inv_child (s : V.vstate) (col : Z) :
  inv s -> 0 <= col < 7 -> cell (V.v_board s) 5 col = 0 ->
  inv (V.first4 (V.child s col)).
Proof.
  intros Hinv Hcol Htop. exact (inv_make_move s col Hinv Hcol Htop).
Qed.

Lemma in_get_next (s c : V.vstate) :
  In c (V.get_next s) ->
  exists col, 0 <= col < 7 /\ cell (V.v_board s) 5 col = 0 /\
              c = V.child s col.
Proof.
  unfold V.get_next. rewrite in_map_iff. intros (col & <- & Hin).
  apply in_sorted, valid_columns_spec in Hin. exists col. tauto.
Qed.

Lemma inv_get_next (s c : V.vstate) :
  inv s -> In c (V.get_next s) -> inv (V.first4 c).
Proof.
  intros Hinv Hin. apply in_get_next in Hin.
  destruct Hin as (col & Hcol & Htop & ->). now apply inv_child.
Qed.

Lemma not_finished_empty (s : V.vstate) :
  V.is_finished s = false -> V.v_empty s <> 0.
Proof.
  unfold V.is_finished. rewrite orb_false_iff. intros [_ H].
  now apply Z.eqb_neq.
Qed.

Lemma get_next_nonempty (s : V.vstate) :
  inv s -> V.is_finished s = false -> V.get_next s <> [].
Proof.
  intros (Hwf & Hg & He & _) Hfin.
  apply not_finished_empty in Hfin. rewrite He in Hfin.
  destruct (exists_empty_cell _ Hwf Hfin) as (r & c & Hr & Hc & Hz).
  assert (Htop : cell (V.v_board s) 5 c = 0)
    by (apply (Hg r 5 c); auto; lia).
  assert (Hin : In c (sorted (get_valid_columns (V.v_board s))
                         (fun x => Z.abs (x - COLUMN_COUNT / 2))))
    by (apply in_sorted, valid_columns_spec; auto).
  unfold V.get_next. intros Hnil.
  apply (in_map (V.child s)) in Hin. rewrite Hnil in Hin. exact Hin.
Qed.

Lemma inv_create_state (b : board) :
  valid_board b -> inv (V.create_state b).
Proof.
  intros (Hwf & _ & Hg). unfold inv, V.create_state. simpl.
  split; [exact Hwf|]. split; [exact Hg|]. split; [reflexivity|].
  split; [now right | apply bounded_small].
Qed.

End Invariant.

(** ** The loops of [abmax] and [abmin] *)

Section Loops.

Variable rec : V.vstate -> pynum -> pynum -> pynum * Z.

Lemma abmax_loop_first (cs : list V.vstate) :
  forall v0 best0 a b,
    (pylt v0 b = true \/
     forall (j : nat) y,
       abmax_backed_up rec cs v0 a b !! j = Some y -> pylt v0 y = true) ->
    (V.abmax_loop rec cs v0 best0 a b = (v0, best0) /\
     forall (j : nat) y,
       abmax_backed_up rec cs v0 a b !! j = Some y -> pyle y v0 = true)
    \/
    (pylt v0 (fst (V.abmax_loop rec cs v0 best0 a b)) = true /\
     first_largest (abmax_backed_up rec cs v0 a b) (map V.col_played cs)
       (fst (V.abmax_loop rec cs v0 best0 a b))
       (snd (V.abmax_loop rec cs v0 best0 a b))).
Proof.
  induction cs as [|st rest IH]; intros v0 best0 a b Hpre.
  - left. split; [reflexivity|]. intros j y H. destruct j; discriminate.
  - simpl. set (x := fst (rec (V.first4 st) a b)) in *.
    simpl in Hpre. fold x in Hpre.
    destruct (pygt x v0) eqn:E.
    + right. destruct (pyge x b) eqn:Eb.
      * simpl. split; [exact E|]. exists 0%nat. simpl.
        repeat split; auto.
        -- intros [|j] y H; [|destruct j; discriminate].
           injection H as <-. apply pyle_refl.
        -- intros j y Hj. lia.
      * assert (Hxb : pylt x b = true)
          by (unfold pyge in Eb; now apply negb_false_iff in Eb).
        destruct (IH x (V.col_played st) (if pygt x a then x else a) b
                    (or_introl Hxb)) as [[Hr Hall]|[Hlt (i & Hi & Hc & Hle & Hbefore)]].
        -- rewrite Hr. simpl. split; [exact E|]. exists 0%nat. simpl.
           repeat split; auto.
           ++ intros [|j] y H; [injection H as <-; apply pyle_refl|].
              simpl in H. now apply (Hall j).
           ++ intros j y Hj. lia.
        -- split; [now apply (pylt_trans v0 x)|].
           exists (S i). simpl. repeat split; auto.
           ++ intros [|j] y H; [injection H as <-; now apply pylt_le|].
              simpl in H. now apply (Hle j).
           ++ intros [|j] y Hj H; [injection H as <-; exact Hlt|].
              simpl in H. apply (Hbefore j); [lia | exact H].
    + assert (Hxv : pyle x v0 = true) by (now apply not_pylt_le).
      assert (Hvb : pylt v0 b = true).
      { destruct Hpre as [H|H]; [exact H|].
        specialize (H 0%nat x eq_refl). unfold pygt in E. congruence. }
      assert (Eb : pyge v0 b = false)
        by (unfold pyge; now rewrite Hvb).
      rewrite Eb.
      destruct (IH v0 best0 (if pygt v0 a then v0 else a) b (or_introl Hvb))
        as [[Hr Hall]|[Hlt (i & Hi & Hc & Hle & Hbefore)]].
      * left. split; [exact Hr|].
        intros [|j] y H; [injection H as <-; exact Hxv|].
        simpl in H. now apply (Hall j).
      * right. split; [exact Hlt|].
        exists (S i). simpl. repeat split; auto.
        -- intros [|j] y H; [|simpl in H; now apply (Hle j)].
           injection H as <-. apply pylt_le. now apply (pyle_lt_trans x v0).
        -- intros [|j] y Hj H; [|simpl in H; apply (Hbefore j); [lia|exact H]].
           injection H as <-. now apply (pyle_lt_trans x v0).
Qed.

Lemma abmin_loop_first (cs : list V.vstate) :
  forall v0 best0 a b,
    (pylt a v0 = true \/
     forall (j : nat) y,
       abmin_backed_up rec cs v0 a b !! j = Some y -> pylt y v0 = true) ->
    (V.abmin_loop rec cs v0 best0 a b = (v0, best0) /\
     forall (j : nat) y,
       abmin_backed_up rec cs v0 a b !! j = Some y -> pyle v0 y = true)
    \/
    (pylt (fst (V.abmin_loop rec cs v0 best0 a b)) v0 = true /\
     first_smallest (abmin_backed_up rec cs v0 a b) (map V.col_played cs)
       (fst (V.abmin_loop rec cs v0 best0 a b))
       (snd (V.abmin_loop rec cs v0 best0 a b))).
Proof.
  induction cs as [|st rest IH]; intros v0 best0 a b Hpre.
  - left. split; [reflexivity|]. intros j y H. destruct j; discriminate.
  - simpl. set (x := fst (rec (V.first4 st) a b)) in *.
    simpl in Hpre. fold x in Hpre.
    destruct (pylt x v0) eqn:E.
    + right. destruct (pyle x a) eqn:Ea.
      * simpl. split; [exact E|]. exists 0%nat. simpl.
        repeat split; auto.
        -- intros [|j] y H; [|destruct j; discriminate].
           injection H as <-. apply pyle_refl.
        -- intros j y Hj. lia.
      * assert (Hax : pylt a x = true)
          by (unfold pyle in Ea; now apply negb_false_iff in Ea).
        destruct (IH x (V.col_played st) a (if pylt x b then x else b)
                    (or_introl Hax)) as [[Hr Hall]|[Hlt (i & Hi & Hc & Hle & Hbefore)]].
        -- rewrite Hr. simpl. split; [exact E|]. exists 0%nat. simpl.
           repeat split; auto.
           ++ intros [|j] y H; [injection H as <-; apply pyle_refl|].
              simpl in H. now apply (Hall j).
           ++ intros j y Hj. lia.
        -- split; [now apply (pylt_trans _ x)|].
           exists (S i). simpl. repeat split; auto.
           ++ intros [|j] y H; [injection H as <-; now apply pylt_le|].
              simpl in H. now apply (Hle j).
           ++ intros [|j] y Hj H; [injection H as <-; exact Hlt|].
              simpl in H. apply (Hbefore j); [lia | exact H].
    + assert (Hxv : pyle v0 x = true) by (now apply not_pylt_le).
      assert (Hav : pylt a v0 = true).
      { destruct Hpre as [H|H]; [exact H|].
        specialize (H 0%nat x eq_refl). congruence. }
      assert (Ea : pyle v0 a = false)
        by (unfold pyle; now rewrite Hav).
      rewrite Ea.
      destruct (IH v0 best0 a (if pylt v0 b then v0 else b) (or_introl Hav))
        as [[Hr Hall]|[Hlt (i & Hi & Hc & Hle & Hbefore)]].
      * left. split; [exact Hr|].
        intros [|j] y H; [injection H as <-; exact Hxv|].
        simpl in H. now apply (Hall j).
      * right. split; [exact Hlt|].
        exists (S i). simpl. repeat split; auto.
        -- intros [|j] y H; [|simpl in H; now apply (Hle j)].
           injection H as <-. apply pylt_le. now apply (pylt_le_trans _ v0).
        -- intros [|j] y Hj H; [|simpl in H; apply (Hbefore j); [lia|exact H]].
           injection H as <-. now apply (pylt_le_trans _ v0).
Qed.

Lemma abmax_backed_up_head (cs : list V.vstate) (v a b : pynum) :
  cs <> [] -> exists x, abmax_backed_up rec cs v a b !! 0%nat = Some x.
Proof. destruct cs; [congruence|]. intros _. simpl. eauto. Qed.

Lemma abmin_backed_up_head (cs : list V.vstate) (v a b : pynum) :
  cs <> [] -> exists x, abmin_backed_up rec cs v a b !! 0%nat = Some x.
Proof. destruct cs; [congruence|]. intros _. simpl. eauto. Qed.

(** From [-inf], a non-empty loop whose children return values above
    [-inf] ends on the first child with the largest value. *)
Lemma abmax_loop_top (cs : list V.vstate) (a b : pynum) :
  cs <> [] ->
  (forall (j : nat) y,
     abmax_backed_up rec cs PNegInf a b !! j = Some y ->
     pylt PNegInf y = true) ->
  first_largest (abmax_backed_up rec cs PNegInf a b) (map V.col_played cs)
    (fst (V.abmax_loop rec cs PNegInf 0 a b))
    (snd (V.abmax_loop rec cs PNegInf 0 a b)).
Proof.
  intros Hne Hall.
  destruct (abmax_loop_first cs PNegInf 0 a b (or_intror Hall))
    as [[_ Hle]|[_ H]]; [|exact H].
  destruct (abmax_backed_up_head cs PNegInf a b Hne) as [x Hx].
  specialize (Hall _ _ Hx). specialize (Hle _ _ Hx).
  unfold pyle in Hle. rewrite Hall in Hle. discriminate.
Qed.

Lemma abmin_loop_top (cs : list V.vstate) (a b : pynum) :
  cs <> [] ->
  (forall (j : nat) y,
     abmin_backed_up rec cs PInf a b !! j = Some y -> pylt y PInf = true) ->
  first_smallest (abmin_backed_up rec cs PInf a b) (map V.col_played cs)
    (fst (V.abmin_loop rec cs PInf 0 a b))
    (snd (V.abmin_loop rec cs PInf 0 a b)).
Proof.
  intros Hne Hall.
  destruct (abmin_loop_first cs PInf 0 a b (or_intror Hall))
    as [[_ Hle]|[_ H]]; [|exact H].
  destruct (abmin_backed_up_head cs PInf a b Hne) as [x Hx].
  specialize (Hall _ _ Hx). specialize (Hle _ _ Hx).
  unfold pyle in Hle. rewrite Hall in Hle. discriminate.
Qed.

Lemma abmax_backed_up_forall (P : pynum -> Prop) (cs : list V.vstate) :
  (forall c a b, In c cs -> P (fst (rec (V.first4 c) a b))) ->
  forall v a b (j : nat) y,
    abmax_backed_up rec cs v a b !! j = Some y -> P y.
Proof.
  induction cs as [|st rest IH]; intros Hrec v a b j y H;
    [destruct j; discriminate|].
  simpl in H. destruct j as [|j].
  - injection H as <-. apply Hrec. now left.
  - simpl in H. destruct (pyge _ b); [destruct j; discriminate|].
    eapply IH; [|exact H]. intros c a' b' Hin. apply Hrec. now right.
Qed.

Lemma abmin_backed_up_forall (P : pynum -> Prop) (cs : list V.vstate) :
  (forall c a b, In c cs -> P (fst (rec (V.first4 c) a b))) ->
  forall v a b (j : nat) y,
    abmin_backed_up rec cs v a b !! j = Some y -> P y.
Proof.
  induction cs as [|st rest IH]; intros Hrec v a b j y H;
    [destruct j; discriminate|].
  simpl in H. destruct j as [|j].
  - injection H as <-. apply Hrec. now left.
  - simpl in H. destruct (pyle _ a); [destruct j; discriminate|].
    eapply IH; [|exact H]. intros c a' b' Hin. apply Hrec. now right.
Qed.

End Loops.

(** ** Move ordering *)

Section Ordering.

Lemma range_7 : range COLUMN_COUNT = [0; 1; 2; 3; 4; 5; 6].
Proof. reflexivity. Qed.

(** Sorting the legal columns by distance from the center keeps, of
    3, 2, 4, 1, 5, 0, 6, exactly the legal ones in that order. *)
Lemma sorted_center_first (P : Z -> Prop) `{forall x, Decision (P x)} :
  sorted (filter P [0; 1; 2; 3; 4; 5; 6])
         (fun x => Z.abs (x - COLUMN_COUNT / 2))
  = filter P [3; 2; 4; 1; 5; 0; 6].
Proof.
  rewrite !filter_cons, !filter_nil.
  destruct (decide (P 0)), (decide (P 1)), (decide (P 2)), (decide (P 3)),
    (decide (P 4)), (decide (P 5)), (decide (P 6)); reflexivity.
Qed.

Lemma ordered_columns (b : board) :
  sorted (get_valid_columns b) (fun x => Z.abs (x - COLUMN_COUNT / 2))
  = filter (fun col => cell b 5 col = 0) [3; 2; 4; 1; 5; 0; 6].
Proof.
  unfold get_valid_columns. rewrite range_7.
  apply (sorted_center_first (fun col => cell b 5 col = 0)).
Qed.

Lemma make_move_rest (s : V.vstate) (col : Z) :
  V.v_rest (V.make_move s col) = V.v_rest s.
Proof.
  unfold V.make_move. now destruct (get_next_row (V.v_board s) col =? -1).
Qed.

Lemma col_played_child (s : V.vstate) (col : Z) :
  V.col_played (V.child s col) = col.
Proof.
  unfold V.col_played, V.child. simpl. rewrite make_move_rest.
  rewrite length_app. simpl length.
  destruct (Z.ltb_spec 4 (4 + Z.of_nat (length (V.v_rest s) + 1))); [|lia].
  apply last_last.
Qed.

Lemma children_columns (s : V.vstate) :
  map V.col_played (V.get_next s)
  = filter (fun col => cell (V.v_board s) 5 col = 0) [3; 2; 4; 1; 5; 0; 6].
Proof.
  unfold V.get_next. rewrite map_map, ordered_columns.
  rewrite (map_ext _ (fun x => x)) by (intros; apply col_played_child).
  apply map_id.
Qed.

Lemma in_children_columns (s : V.vstate) (col : Z) :
  In col (map V.col_played (V.get_next s)) <->
  0 <= col < 7 /\ cell (V.v_board s) 5 col = 0.
Proof.
  rewrite children_columns, <- list_elem_of_In, list_elem_of_filter.
  rewrite list_elem_of_In. simpl. split; [|intuition lia].
  intros [Hz Hin]. split; [lia | exact Hz].
Qed.

End Ordering.

(** ** Values and columns returned by the search *)

Section Search.

Lemma ab_bounded (d : nat) :
  forall s a b, inv s ->
    bounded (fst (V.abmax d s a b)) /\ bounded (fst (V.abmin d s a b)).
Proof.
  induction d as [|d IH]; intros s a b Hinv.
  - simpl. split; apply Hinv.
  - simpl. destruct (V.is_finished s) eqn:Hfin; [split; apply Hinv|].
    pose proof (get_next_nonempty s Hinv Hfin) as Hne.
    assert (Hmaxrec : forall c a b, In c (V.get_next s) ->
              bounded (fst (V.abmax d (V.first4 c) a b)))
      by (intros c a' b' Hin; apply IH; now apply (inv_get_next s)).
    assert (Hminrec : forall c a b, In c (V.get_next s) ->
              bounded (fst (V.abmin d (V.first4 c) a b)))
      by (intros c a' b' Hin; apply IH; now apply (inv_get_next s)).
    split.
    + destruct (abmax_loop_top (V.abmin d) (V.get_next s) a b Hne)
        as (i & Hi & _).
      { intros j y Hy. apply bounded_gt_neginf.
        eapply abmax_backed_up_forall; [exact Hminrec | exact Hy]. }
      eapply abmax_backed_up_forall; [exact Hminrec | exact Hi].
    + destruct (abmin_loop_top (V.abmax d) (V.get_next s) a b Hne)
        as (i & Hi & _).
      { intros j y Hy. apply bounded_lt_inf.
        eapply abmin_backed_up_forall; [exact Hmaxrec | exact Hy]. }
      eapply abmin_backed_up_forall; [exact Hmaxrec | exact Hi].
Qed.

Lemma backed_up_bounded_max (d : nat) (s : V.vstate) (v a b : pynum)
    (j : nat) (y : pynum) :
  inv s ->
  abmax_backed_up (V.abmin d) (V.get_next s) v a b !! j = Some y ->
  bounded y.
Proof.
  intros Hinv. apply abmax_backed_up_forall.
  intros c a' b' Hin. apply ab_bounded. now apply (inv_get_next s).
Qed.

Lemma backed_up_bounded_min (d : nat) (s : V.vstate) (v a b : pynum)
    (j : nat) (y : pynum) :
  inv s ->
  abmin_backed_up (V.abmax d) (V.get_next s) v a b !! j = Some y ->
  bounded y.
Proof.
  intros Hinv. apply abmin_backed_up_forall.
  intros c a' b' Hin. apply ab_bounded. now apply (inv_get_next s).
Qed.

Lemma abmax_first_largest (d : nat) (s : V.vstate) (a b : pynum) :
  inv s -> V.is_finished s = false ->
  first_largest
    (abmax_backed_up (V.abmin d) (V.get_next s) PNegInf a b)
    (map V.col_played (V.get_next s))
    (fst (V.abmax (S d) s a b)) (snd (V.abmax (S d) s a b)).
Proof.
  intros Hinv Hfin. simpl. rewrite Hfin.
  apply abmax_loop_top; [now apply get_next_nonempty|].
  intros j y Hy. apply bounded_gt_neginf.
  now apply (backed_up_bounded_max d s PNegInf a b j).
Qed.

Lemma abmin_first_smallest (d : nat) (s : V.vstate) (a b : pynum) :
  inv s -> V.is_finished s = false ->
  first_smallest
    (abmin_backed_up (V.abmax d) (V.get_next s) PInf a b)
    (map V.col_played (V.get_next s))
    (fst (V.abmin (S d) s a b)) (snd (V.abmin (S d) s a b)).
Proof.
  intros Hinv Hfin. simpl. rewrite Hfin.
  apply abmin_loop_top; [now apply get_next_nonempty|].
  intros j y Hy. apply bounded_lt_inf.
  now apply (backed_up_bounded_min d s PInf a b j).
Qed.

Lemma count_eq_elem (row : list Z) (i : nat) :
  row !! i = Some 0 -> 0 < count_eq 0 row.
Proof.
  revert i. induction row as [|y row IH]; intros i Hi; [discriminate|].
  rewrite count_eq_cons. pose proof (count_eq_bounds 0 row).
  destruct i as [|i]; simpl in Hi.
  - injection Hi as ->. destruct (decide (0 = 0)); [lia|contradiction].
  - specialize (IH i Hi). destruct (decide (y = 0)); lia.
Qed.

Lemma count_board_nonneg (b : board) : 0 <= count_board 0 b.
Proof.
  induction b as [|r0 b IH]; simpl; [lia|].
  pose proof (count_eq_bounds 0 r0). lia.
Qed.

Lemma count_board_elem (b : board) (i : nat) (row : list Z) :
  b !! i = Some row -> count_eq 0 row <= count_board 0 b.
Proof.
  revert i. induction b as [|r0 b IH]; intros i Hi; [discriminate|].
  destruct i as [|i]; simpl in *.
  - injection Hi as ->. pose proof (count_board_nonneg b). lia.
  - specialize (IH i Hi). pose proof (count_eq_bounds 0 r0). lia.
Qed.

Lemma empty_cell_counted (b : board) (r c : Z) :
  wf_board b -> 0 <= r < 6 -> 0 <= c < 7 -> cell b r c = 0 ->
  count_board 0 b <> 0.
Proof.
  intros Hwf Hr Hc Hz.
  destruct (wf_row b r Hwf Hr) as (row & Hrow & Hlen).
  unfold cell, at_col in Hz. rewrite Hrow in Hz. simpl in Hz.
  destruct (lookup_lt_is_Some_2 row (Z.to_nat c)) as [y Hy]; [lia|].
  rewrite Hy in Hz. simpl in Hz. subst y.
  pose proof (count_eq_elem _ _ Hy). pose proof (count_board_elem _ _ _ Hrow).
  lia.
Qed.

Lemma root_not_finished (b : board) (c : Z) :
  wf_board b -> 0 <= c < 7 -> cell b 5 c = 0 ->
  V.is_finished (V.create_state b) = false.
Proof.
  intros Hwf Hc Htop. unfold V.is_finished, V.create_state. simpl.
  apply Z.eqb_neq. now apply (empty_cell_counted b 5 c).
Qed.

End Search.

(** ** Concrete boards *)

Section Examples.

Lemma valid_boardb_spec (b : board) :
  valid_boardb b = true -> valid_board b.
Proof.
  unfold valid_boardb. rewrite !andb_true_iff.
  intros [[Hlen Hrows] Hcells].
  apply Nat.eqb_eq in Hlen.
  rewrite forallb_forall in Hrows. rewrite forallb_forall in Hcells.
  assert (Hcell : forall r c, 0 <= r < 6 -> 0 <= c < 7 ->
            (cell b r c = EMPTY \/ cell b r c = HUMAN \/ cell b r c = COMPUTER)
            /\ forall r', 0 <= r' < 6 -> r <= r' -> cell b r c = 0 ->
                 cell b r' c = 0).
  { intros r c Hr Hc.
    specialize (Hcells c (proj2 (in_range 7 c) Hc)).
    rewrite forallb_forall in Hcells.
    specialize (Hcells r (proj2 (in_range 6 r) Hr)).
    apply andb_true_iff in Hcells. destruct Hcells as [Hv Hgr]. split.
    - rewrite !orb_true_iff, !Z.eqb_eq in Hv. tauto.
    - intros r' Hr' Hle Hz. rewrite forallb_forall in Hgr.
      specialize (Hgr r' (proj2 (in_range 6 r') Hr')).
      rewrite !orb_true_iff, !negb_true_iff, Z.leb_gt, Z.eqb_neq, Z.eqb_eq
        in Hgr.
      destruct Hgr as [[Hgr|Hgr]|Hgr]; [lia | contradiction | exact Hgr]. }
  split; [|split].
  - split; [exact Hlen|]. apply Forall_forall. intros row Hin.
    apply Nat.eqb_eq, Hrows. now apply list_elem_of_In.
  - intros r c Hr Hc. now apply Hcell.
  - intros r r' c Hrr Hr' Hc. apply Hcell; lia.
Qed.

Lemma no_four (b : board) (p : Z) :
  check_win b p = false -> ~ four_in_a_row b p.
Proof.
  intros Hf Hfour. apply check_win_spec in Hfour. congruence.
Qed.

End Examples.

(** ** An immediate win at the root *)

Section ImmediateWin.

Lemma lookup_map {A B} (f : A -> B) (xs : list A) (k : nat) :
  map f xs !! k = option_map f (xs !! k).
Proof.
  revert k. induction xs as [|x xs IH]; intros [|k]; simpl; auto.
Qed.

(** With beta above VIC the loop of [abmax] is never cut short: every
    child is evaluated. *)
Lemma abmax_backed_up_reach rec (cs : list V.vstate) :
  (forall c a b, In c cs -> bounded (fst (rec (V.first4 c) a b))) ->
  forall v a (k : nat) c,
    pylt v (PInt (VIC + 1)) = true -> cs !! k = Some c ->
    exists a',
      abmax_backed_up rec cs v a (PInt (VIC + 1)) !! k
      = Some (fst (rec (V.first4 c) a' (PInt (VIC + 1)))).
Proof.
  induction cs as [|st rest IH]; intros Hrec v a k c Hv Hk;
    [destruct k; discriminate|].
  destruct k as [|k]; simpl in Hk.
  - injection Hk as ->. exists a. reflexivity.
  - simpl.
    set (x := fst (rec (V.first4 st) a (PInt (VIC + 1)))).
    assert (Hx : pylt x (PInt (VIC + 1)) = true)
      by (apply bounded_lt_beta, Hrec; now left).
    assert (Hv' : pylt (if pygt x v then x else v) (PInt (VIC + 1)) = true)
      by (now destruct (pygt x v)).
    unfold pyge at 1. rewrite Hv'. simpl.
    apply IH; auto. intros c' a' b' Hin. apply Hrec. now right.
Qed.

Lemma winning_child_value (s : V.vstate) (w : Z) :
  V.v_turn s = COMPUTER -> wins_now (V.v_board s) w ->
  V.v_value (V.child s w) = PInt VIC.
Proof.
  intros Hturn (Hw & Htop & Hfour).
  apply check_win_spec in Hfour.
  unfold V.child, V.make_move. simpl.
  pose proof (legal_has_row _ _ Htop) as Hrow.
  destruct (Z.eqb_spec (get_next_row (V.v_board s) w) (-1)) as [|_];
    [contradiction|].
  simpl. unfold evaluate. rewrite Hturn, Hfour. reflexivity.
Qed.

Lemma finished_returns_value (d : nat) (s : V.vstate) (a b : pynum) :
  V.v_value s = PInt VIC -> V.abmin d s a b = (PInt VIC, 0).
Proof.
  intros Hv. destruct d as [|d]; simpl; [now rewrite Hv|].
  unfold V.is_finished. rewrite Hv. reflexivity.
Qed.

Lemma bounded_at_least_VIC (v : pynum) :
  bounded v -> pyle (PInt VIC) v = true -> v = PInt VIC.
Proof.
  intros [_ Hle] Hge. destruct v as [z| | |]; try discriminate.
  rewrite pyle_int in Hle, Hge. apply Z.leb_le in Hle, Hge.
  f_equal. lia.
Qed.

Lemma in_generation_order (b : board) (col : Z) :
  0 <= col < 7 -> cell b 5 col = 0 -> In col (generation_order b).
Proof.
  intros Hc Htop. unfold generation_order.
  apply list_elem_of_In, list_elem_of_filter. split; [exact Htop|].
  apply list_elem_of_In. simpl. lia.
Qed.

(** The root of [go] on a valid board with an immediate win: the search
    returns VIC and the first column that backs up to VIC. *)
Lemma root_first_VIC (b : board) (w : Z) :
  valid_board b -> wins_now b w ->
  exists i k : nat,
    generation_order b !! i = Some (V.go b) /\
    root_backed_up b !! i = Some (PInt VIC) /\
    (forall (j : nat) y, (j < i)%nat -> root_backed_up b !! j = Some y ->
       pylt y (PInt VIC) = true) /\
    generation_order b !! k = Some w /\
    root_backed_up b !! k = Some (PInt VIC) /\
    (i <= k)%nat.
Proof.
  intros Hvalid Hwin.
  pose proof Hwin as (Hw & Htop & _).
  pose proof (inv_create_state b Hvalid) as Hinv.
  pose proof (root_not_finished b w (proj1 Hvalid) Hw Htop) as Hfin.
  destruct (abmax_first_largest 3 _ (PInt (LOSS - 1)) (PInt (VIC + 1)) Hinv Hfin)
    as (i & Hi & Hcol & Hle & Hbefore).
  fold (root_backed_up b) in Hi, Hle, Hbefore.
  rewrite children_columns in Hcol.
  change (generation_order b !! i = Some (V.go b)) in Hcol.
  destruct (proj1 (list_elem_of_lookup (generation_order b) w)) as [k Hk];
    [apply list_elem_of_In; now apply in_generation_order|].
  assert (Hchild : V.get_next (V.create_state b) !! k
                   = Some (V.child (V.create_state b) w)).
  { unfold V.get_next. rewrite ordered_columns, lookup_map.
    change (filter (fun col => cell (V.v_board (V.create_state b)) 5 col = 0)
              [3; 2; 4; 1; 5; 0; 6]) with (generation_order b).
    now rewrite Hk. }
  destruct (abmax_backed_up_reach (V.abmin 3) (V.get_next (V.create_state b)))
    with (v := PNegInf) (a := PInt (LOSS - 1)) (k := k)
         (c := V.child (V.create_state b) w) as (a' & Hreach); auto.
  { intros c a0 b0 Hin. apply ab_bounded. now apply (inv_get_next _ c Hinv). }
  fold (root_backed_up b) in Hreach.
  rewrite finished_returns_value in Hreach
    by (apply (winning_child_value (V.create_state b) w); auto).
  simpl in Hreach.
  assert (Hv : fst (V.abmax 4 (V.create_state b) (PInt (LOSS - 1))
                      (PInt (VIC + 1))) = PInt VIC).
  { apply bounded_at_least_VIC; [now apply ab_bounded|].
    now apply (Hle k). }
  rewrite Hv in *.
  exists i, k. repeat split; auto.
  destruct (le_lt_dec i k) as [|Hlt]; [assumption|].
  specialize (Hbefore k _ Hlt Hreach). rewrite pylt_int in Hbefore.
  apply Z.ltb_lt in Hbefore. lia.
Qed.

End ImmediateWin.

(** ** The heuristic against its description *)

Section Score.

Lemma pieces_in_count (b : board) (p : Z) (cells : list (Z * Z)) :
  pieces_in b p cells
  = count_eq p (map (fun rc => cell b (fst rc) (snd rc)) cells).
Proof.
  unfold pieces_in. induction cells as [|rc cells IH].
  - reflexivity.
  - cbn [List.filter map]. rewrite count_eq_cons.
    destruct (Z.eqb_spec (cell b (fst rc) (snd rc)) p) as [He|Hne];
      destruct (decide (cell b (fst rc) (snd rc) = p)); try contradiction;
      cbn [length]; lia.
Qed.

Lemma other_player_opponent (p : Z) :
  p = HUMAN \/ p = COMPUTER -> other_player p = opponent p.
Proof. intros [-> | ->]; reflexivity. Qed.

(** The two [if]/[elif] chains of [evaluate_window] add up the five
    window scores: the cases of each chain exclude one another. *)
Lemma window_score_evaluate (w : list Z) (p : Z) :
  p = HUMAN \/ p = COMPUTER -> window_score w p = evaluate_window w p.
Proof.
  intros Hp. unfold window_score, evaluate_window, holds. cbv zeta.
  rewrite (other_player_opponent p Hp).
  destruct (Z.eqb_spec (count_eq p w) 4), (Z.eqb_spec (count_eq p w) 3),
    (Z.eqb_spec (count_eq p w) 2), (Z.eqb_spec (count_eq EMPTY w) 1),
    (Z.eqb_spec (count_eq EMPTY w) 2),
    (Z.eqb_spec (count_eq (opponent p) w) 3),
    (Z.eqb_spec (count_eq (opponent p) w) 2); simpl; lia.
Qed.

Local Arguments evaluate_window : simpl never.
Local Arguments count_eq : simpl never.
Local Arguments opponent : simpl never.

Ltac explode_row r :=
  destruct r as [|? [|? [|? [|? [|? [|? [|? [|? ?]]]]]]]]; try discriminate.

(** On a 6x7 grid the loops of [score_position] visit every window that
    fits, once. *)
Lemma score_position_windows (b : board) (p : Z) :
  wf_board b -> p = HUMAN \/ p = COMPUTER ->
  score_position b p = spec_score b p.
Proof.
  intros [Hlen Hrows] Hp.
  destruct b as [|r0 [|r1 [|r2 [|r3 [|r4 [|r5 [|r6 b]]]]]]]; try discriminate.
  repeat match goal with
         | H : Forall _ (_ :: _) |- _ =>
             apply Forall_cons in H; destruct H
         end.
  explode_row r0; explode_row r1; explode_row r2; explode_row r3;
    explode_row r4; explode_row r5.
  clear - Hp.
  unfold spec_score. rewrite !pieces_in_count.
  rewrite (map_ext (fun w => window_score (window_cells _ w) p)
             (fun w => evaluate_window (window_cells _ w) p))
    by (intros; now apply window_score_evaluate).
  rewrite (other_player_opponent p Hp). clear Hp.
  unfold score_position, holds. cbv zeta. unfold sum_over.
  change (range ROW_COUNT) with [0; 1; 2; 3; 4; 5].
  change (range COLUMN_COUNT) with [0; 1; 2; 3; 4; 5; 6].
  change (range (ROW_COUNT - 3)) with [0; 1; 2].
  change (range (COLUMN_COUNT - 3)) with [0; 1; 2; 3].
  change (range 6) with [0; 1; 2; 3; 4; 5].
  change (range 7) with [0; 1; 2; 3; 4; 5; 6].
  change (range 4) with [0; 1; 2; 3].
  let l := eval vm_compute in all_windows in change all_windows with l.
  unfold row_of, column, slice4, window_cells, cell, at_col.
  change (COLUMN_COUNT / 2) with 3.
  simpl.
  destruct (count_eq (opponent p) _ =? 2); lia.
Qed.

End Score.

(** ** States classified as finished *)

Section Terminal.

(** After a legal move a position that is won or full is finished. *)
Lemma terminal_is_finished (s : V.vstate) (col : Z) :
  cell (V.v_board s) 5 col = 0 ->
  four_in_a_row (V.v_board (V.make_move s col)) COMPUTER \/
  four_in_a_row (V.v_board (V.make_move s col)) HUMAN \/
  V.v_empty (V.make_move s col) = 0 ->
  V.is_finished (V.make_move s col) = true.
Proof.
  intros Htop. pose proof (legal_has_row _ _ Htop) as Hrow.
  unfold V.make_move, V.is_finished.
  destruct (Z.eqb_spec (get_next_row (V.v_board s) col) (-1)) as [|_];
    [contradiction|].
  cbn [V.v_board V.v_value V.v_empty]. unfold evaluate.
  rewrite <- !check_win_spec.
  destruct (check_win _ COMPUTER); [reflexivity|].
  destruct (check_win _ HUMAN); [reflexivity|].
  intros [H|[H|H]]; try discriminate.
  rewrite H. reflexivity.
Qed.

End Terminal.

(** * Main theorems *)

(** C2. On a valid board with at least one legal column, [go] returns a
    column in [0,7) whose topmost cell (row 5) is empty. *)
Theorem go_returns_legal_column (h : heap) (l : loc) (b : board) (c : Z) :
  h !! l = Some b -> valid_board b ->
  0 <= c < 7 -> cell b 5 c = 0 ->
  0 <= fst (go l h) < 7 /\ cell b 5 (fst (go l h)) = 0.
Proof.
  intros Hl Hvalid Hc Htop.
  destruct (go_view l h (lookup_lt_Some _ _ _ Hl)) as (t & Hgo).
  rewrite Hgo, Hl. simpl. unfold V.go.
  pose proof (inv_create_state b Hvalid) as Hinv.
  pose proof (root_not_finished b c (proj1 Hvalid) Hc Htop) as Hfin.
  destruct (abmax_first_largest 3 _ (PInt (LOSS - 1)) (PInt (VIC + 1)) Hinv Hfin)
    as (i & _ & Hcol & _).
  apply (in_children_columns (V.create_state b)).
  apply list_elem_of_In, list_elem_of_lookup. eauto.
Qed.

Lemma go_returns_legal_column_witness :
  0 <= fst (go 0%nat [empty_board]) < 7 /\
  cell empty_board 5 (fst (go 0%nat [empty_board])) = 0.
Proof.
  apply (go_returns_legal_column [empty_board] 0%nat empty_board 3).
  - reflexivity.
  - apply valid_boardb_spec. reflexivity.
  - lia.
  - reflexivity.
Defined.

(** C3, as the code has it.  On a board with no legal column [go] signals
    nothing: it returns column 0. *)
Theorem go_no_legal_column (h : heap) (l : loc) (b : board) :
  h !! l = Some b -> get_valid_columns b = [] ->
  fst (go l h) = 0.
Proof.
  intros Hl Hnone.
  destruct (go_view l h (lookup_lt_Some _ _ _ Hl)) as (t & Hgo).
  rewrite Hgo, Hl. simpl. unfold V.go. simpl.
  destruct (V.is_finished (V.create_state b)); [reflexivity|].
  unfold V.get_next. simpl. rewrite Hnone. reflexivity.
Qed.

Lemma go_no_legal_column_witness :
  fst (go 0%nat [full_board]) = 0.
Proof.
  apply (go_no_legal_column [full_board] 0%nat full_board); reflexivity.
Defined.

(** C3, counterexample.  [full_board] is a valid board without a legal
    column and without four in a row; on it [go] runs to completion and
    returns a column, column 0, which is not legal. *)
Lemma go_full_board_returns :
  valid_board full_board /\ get_valid_columns full_board = [] /\
  ~ four_in_a_row full_board HUMAN /\ ~ four_in_a_row full_board COMPUTER /\
  go 0%nat [full_board] = (0, [full_board]) /\
  cell full_board 5 0 <> 0.
Proof.
  split; [apply valid_boardb_spec; reflexivity|].
  split; [reflexivity|].
  split; [apply no_four; reflexivity|].
  split; [apply no_four; reflexivity|].
  split; [reflexivity | discriminate].
Qed.

(** C9. [go] leaves the caller's array, and every array that existed
    before the call, exactly as it was. *)
Theorem go_preserves_caller_board (h : heap) (l : loc) (b : board) :
  h !! l = Some b ->
  snd (go l h) !! l = Some b /\
  forall l' b', h !! l' = Some b' -> snd (go l h) !! l' = Some b'.
Proof.
  intros Hl.
  destruct (go_view l h (lookup_lt_Some _ _ _ Hl)) as (t & Hgo).
  rewrite Hgo. simpl. split; [now apply lookup_app_l_Some|].
  intros l' b' Hl'. now apply lookup_app_l_Some.
Qed.

Lemma go_preserves_caller_board_witness :
  snd (go 0%nat [two_threats_board]) !! 0%nat = Some two_threats_board /\
  forall l' b', [two_threats_board] !! l' = Some b' ->
    snd (go 0%nat [two_threats_board]) !! l' = Some b'.
Proof.
  apply (go_preserves_caller_board [two_threats_board] 0%nat two_threats_board).
  reflexivity.
Defined.

(** C10. On a full column [make_move] returns without touching anything:
    the heap (hence the grid) and the state come back unchanged. *)
Theorem make_move_full_column (h : heap) (s : state) (b : board) (col : Z) :
  h !! s_board s = Some b -> 0 <= col < 7 ->
  (forall r, 0 <= r < 6 -> cell b r col <> 0) ->
  make_move s col h = (s, h).
Proof.
  intros Hb Hcol Hfull. apply get_next_row_full in Hfull.
  unfold make_move, bind, deref, ret. rewrite Hb. simpl.
  rewrite Hfull. reflexivity.
Qed.

Lemma make_move_full_column_witness :
  make_move (mkState 0%nat PSmall COMPUTER 0 []) 0 [full_board]
  = (mkState 0%nat PSmall COMPUTER 0 [], [full_board]).
Proof.
  apply (make_move_full_column [full_board] _ full_board 0).
  - reflexivity.
  - lia.
  - intros r Hr.
    assert (Hcase : r = 0 \/ r = 1 \/ r = 2 \/ r = 3 \/ r = 4 \/ r = 5) by lia.
    destruct Hcase as [-> | [-> | [-> | [-> | [-> | ->]]]]]; discriminate.
Defined.

(** C4. On a legal column [make_move] writes the mover's piece in the
    lowest empty row of the column and nowhere else, takes one off the
    empty-cell count, hands the turn to the other player and stores VIC,
    LOSS, TIE or the COMPUTER-minus-HUMAN score, in that order of
    precedence and whoever moved. *)
Theorem make_move_legal (h : heap) (s : state) (b : board) (col : Z) :
  h !! s_board s = Some b -> wf_board b ->
  0 <= col < 7 -> cell b 5 col = 0 ->
  exists row,
    (0 <= row < 6 /\ cell b row col = 0 /\
     forall r, 0 <= r < row -> cell b r col <> 0) /\
    let b' := set_cell b row col (s_turn s) in
    let s' := fst (make_move s col h) in
    snd (make_move s col h) = <[s_board s := b']> h /\
    cell b' row col = s_turn s /\
    (forall r c, 0 <= r < 6 -> 0 <= c < 7 -> (r, c) <> (row, col) ->
       cell b' r c = cell b r c) /\
    s_board s' = s_board s /\
    s_empty s' = s_empty s - 1 /\
    (s_turn s = HUMAN -> s_turn s' = COMPUTER) /\
    (s_turn s = COMPUTER -> s_turn s' = HUMAN) /\
    (four_in_a_row b' COMPUTER -> s_value s' = PInt VIC) /\
    (~ four_in_a_row b' COMPUTER -> four_in_a_row b' HUMAN ->
       s_value s' = PInt LOSS) /\
    (~ four_in_a_row b' COMPUTER -> ~ four_in_a_row b' HUMAN ->
       s_empty s - 1 = 0 -> s_value s' = PInt TIE) /\
    (~ four_in_a_row b' COMPUTER -> ~ four_in_a_row b' HUMAN ->
       s_empty s - 1 <> 0 ->
       s_value s' =
       PInt (score_position b' COMPUTER - score_position b' HUMAN)).
Proof.
  intros Hb Hwf Hcol Htop.
  pose proof (legal_has_row b col Htop) as Hrow.
  destruct (get_next_row_lowest b col Hrow) as (Hr & Hz & Hlow).
  exists (get_next_row b col). split; [auto|].
  unfold make_move, bind, deref, store_cell, ret. rewrite Hb. simpl.
  destruct (Z.eqb_spec (get_next_row b col) (-1)) as [|_]; [contradiction|].
  simpl. rewrite ?Hb. simpl.
  rewrite list_lookup_insert_eq by (now apply lookup_lt_Some in Hb).
  simpl. set (b' := set_cell b (get_next_row b col) col (s_turn s)).
  split; [reflexivity|].
  split; [unfold b'; rewrite cell_set_cell by (auto; lia);
          now rewrite !Z.eqb_refl|].
  split.
  { intros r c Hrr Hcc Hne. unfold b'. rewrite cell_set_cell by (auto; lia).
    destruct (Z.eqb_spec r (get_next_row b col)) as [->|_]; [|reflexivity].
    destruct (Z.eqb_spec c col) as [->|_]; [congruence|reflexivity]. }
  split; [reflexivity|]. split; [reflexivity|].
  split; [intros ->; reflexivity|].
  split; [intros ->; reflexivity|].
  unfold evaluate. rewrite <- !check_win_spec.
  destruct (check_win b' COMPUTER), (check_win b' HUMAN);
    destruct (Z.eqb_spec (s_empty s - 1) 0);
    repeat split; intros; try reflexivity; try congruence.
Qed.

Lemma make_move_legal_witness :
  exists row,
    (0 <= row < 6 /\ cell empty_board row 3 = 0 /\
     forall r, 0 <= r < row -> cell empty_board r 3 <> 0) /\
    let s := mkState 0%nat PSmall COMPUTER 42 [] in
    let b' := set_cell empty_board row 3 (s_turn s) in
    let s' := fst (make_move s 3 [empty_board]) in
    snd (make_move s 3 [empty_board]) = <[s_board s := b']> [empty_board] /\
    cell b' row 3 = s_turn s /\
    (forall r c, 0 <= r < 6 -> 0 <= c < 7 -> (r, c) <> (row, 3) ->
       cell b' r c = cell empty_board r c) /\
    s_board s' = s_board s /\
    s_empty s' = s_empty s - 1 /\
    (s_turn s = HUMAN -> s_turn s' = COMPUTER) /\
    (s_turn s = COMPUTER -> s_turn s' = HUMAN) /\
    (four_in_a_row b' COMPUTER -> s_value s' = PInt VIC) /\
    (~ four_in_a_row b' COMPUTER -> four_in_a_row b' HUMAN ->
       s_value s' = PInt LOSS) /\
    (~ four_in_a_row b' COMPUTER -> ~ four_in_a_row b' HUMAN ->
       s_empty s - 1 = 0 -> s_value s' = PInt TIE) /\
    (~ four_in_a_row b' COMPUTER -> ~ four_in_a_row b' HUMAN ->
       s_empty s - 1 <> 0 ->
       s_value s' =
       PInt (score_position b' COMPUTER - score_position b' HUMAN)).
Proof.
  apply (make_move_legal [empty_board] (mkState 0%nat PSmall COMPUTER 42 [])
           empty_board 3).
  - reflexivity.
  - apply valid_boardb_spec. reflexivity.
  - lia.
  - reflexivity.
Defined.

(** C6. [get_next] returns one child per legal column, in the order
    3, 2, 4, 1, 5, 0, 6 restricted to the legal columns; each child is the
    state after that one move, held in an array of its own that did not
    exist before, and nothing that existed before is changed. *)
Theorem get_next_children (h : heap) (s : state) (b : board) :
  h !! s_board s = Some b ->
  let cs := fst (get_next s h) in
  let h' := snd (get_next s h) in
  map col_played cs = generation_order b /\
  map (view h') cs = map (V.child (view h s)) (generation_order b) /\
  NoDup (map s_board cs) /\
  Forall (fun c => (length h <= s_board c < length h')%nat) cs /\
  (forall l b0, h !! l = Some b0 -> h' !! l = Some b0).
Proof.
  intros Hb.
  pose proof (lookup_lt_Some _ _ _ Hb) as Hs.
  destruct (get_next_view s h Hs) as (cs & t & Hrun & Hall & Hmap & Hlocs).
  rewrite Hrun. simpl.
  assert (Hord : V.get_next (view h s)
                 = map (V.child (view h s)) (generation_order b)).
  { unfold V.get_next. rewrite ordered_columns. unfold view. rewrite Hb.
    reflexivity. }
  assert (Hcols : map col_played cs = generation_order b).
  { rewrite (map_ext col_played (fun c => V.col_played (view (h ++ t) c)))
      by (intros; apply col_played_view).
    rewrite <- (map_map (view (h ++ t)) V.col_played), Hmap, children_columns.
    unfold view. rewrite Hb. reflexivity. }
  split; [exact Hcols|]. split; [now rewrite Hmap|].
  split; [rewrite Hlocs; apply NoDup_seq|].
  split.
  - apply Forall_forall. intros c Hc. split.
    + assert (Hin : s_board c ∈ map s_board cs)
        by (apply list_elem_of_In, in_map, list_elem_of_In, Hc).
      rewrite Hlocs in Hin. apply elem_of_seq in Hin. lia.
    + rewrite Forall_forall in Hall. now apply Hall.
  - intros l b0 Hl. now apply lookup_app_l_Some.
Qed.

Lemma get_next_children_witness :
  let h := [two_threats_board] in
  let s := mkState 0%nat PSmall COMPUTER 32 [] in
  let cs := fst (get_next s h) in
  let h' := snd (get_next s h) in
  map col_played cs = generation_order two_threats_board /\
  map (view h') cs
    = map (V.child (view h s)) (generation_order two_threats_board) /\
  NoDup (map s_board cs) /\
  Forall (fun c => (length h <= s_board c < length h')%nat) cs /\
  (forall l b0, h !! l = Some b0 -> h' !! l = Some b0).
Proof.
  apply (get_next_children [two_threats_board]
           (mkState 0%nat PSmall COMPUTER 32 []) two_threats_board).
  reflexivity.
Defined.

(** C7. In [abmax] the recorded column changes only on a strictly larger
    value, so the call returns the largest backed-up value together with
    the first column, in generation order, that reached it; [abmin] is
    the mirror image with the smallest value. *)
Theorem tie_break_keeps_first (d : nat) (h : heap) (s : state) (bd : board)
    (a b : pynum) :
  h !! s_board s = Some bd -> inv (view h s) -> is_finished s = false ->
  let cs := V.get_next (view h s) in
  first_largest (abmax_backed_up (V.abmin d) cs PNegInf a b)
    (generation_order bd)
    (fst (fst (abmax (S d) s a b h))) (snd (fst (abmax (S d) s a b h))) /\
  first_smallest (abmin_backed_up (V.abmax d) cs PInf a b)
    (generation_order bd)
    (fst (fst (abmin (S d) s a b h))) (snd (fst (abmin (S d) s a b h))).
Proof.
  intros Hb Hinv Hfin.
  pose proof (lookup_lt_Some _ _ _ Hb) as Hs.
  destruct (proj1 (abmax_abmin_view (S d)) s a b h Hs) as (t1 & Hmax).
  destruct (proj2 (abmax_abmin_view (S d)) s a b h Hs) as (t2 & Hmin).
  rewrite Hmax, Hmin. cbn [fst snd].
  rewrite (is_finished_view h) in Hfin.
  assert (Hcols : map V.col_played (V.get_next (view h s))
                  = generation_order bd).
  { rewrite children_columns. unfold view. rewrite Hb. reflexivity. }
  rewrite <- Hcols. split.
  - now apply abmax_first_largest.
  - now apply abmin_first_smallest.
Qed.

Lemma tie_break_keeps_first_witness :
  let h := [empty_board] in
  let s := mkState 0%nat PSmall COMPUTER 42 [] in
  let a := PInt (LOSS - 1) in
  let b := PInt (VIC + 1) in
  let cs := V.get_next (view h s) in
  first_largest (abmax_backed_up (V.abmin 3) cs PNegInf a b)
    (generation_order empty_board)
    (fst (fst (abmax 4 s a b h))) (snd (fst (abmax 4 s a b h))) /\
  first_smallest (abmin_backed_up (V.abmax 3) cs PInf a b)
    (generation_order empty_board)
    (fst (fst (abmin 4 s a b h))) (snd (fst (abmin 4 s a b h))).
Proof.
  apply (tie_break_keeps_first 3 [empty_board]
           (mkState 0%nat PSmall COMPUTER 42 []) empty_board).
  - reflexivity.
  - apply (inv_create_state empty_board).
    apply valid_boardb_spec. reflexivity.
  - reflexivity.
Defined.

(** C8, as the code has it.  On a valid board where column [w] wins at
    once, [go] returns the first column in generation order whose
    backed-up value is VIC; that column is [w] or one generated before
    it, and it is [w] when no earlier column backs up to VIC. *)
Theorem go_first_column_backing_up_VIC (h : heap) (l : loc) (b : board)
    (w : Z) :
  h !! l = Some b -> valid_board b -> wins_now b w ->
  (exists i k : nat,
     generation_order b !! i = Some (fst (go l h)) /\
     root_backed_up b !! i = Some (PInt VIC) /\
     (forall (j : nat) y, (j < i)%nat -> root_backed_up b !! j = Some y ->
        pylt y (PInt VIC) = true) /\
     generation_order b !! k = Some w /\
     root_backed_up b !! k = Some (PInt VIC) /\
     (i <= k)%nat) /\
  ((forall (j k : nat) y, generation_order b !! k = Some w -> (j < k)%nat ->
      root_backed_up b !! j = Some y -> y <> PInt VIC) ->
   fst (go l h) = w).
Proof.
  intros Hl Hvalid Hwin.
  destruct (go_view l h (lookup_lt_Some _ _ _ Hl)) as (t & Hgo).
  rewrite Hgo, Hl. simpl.
  destruct (root_first_VIC b w Hvalid Hwin)
    as (i & k & Hi & Hvi & Hbefore & Hk & Hvk & Hik).
  split; [exists i, k; auto 10|].
  intros Hnone.
  destruct (Nat.eq_dec i k) as [->|Hne]; [congruence|].
  exfalso. apply (Hnone i k (PInt VIC)); auto. lia.
Qed.

Lemma go_first_column_backing_up_VIC_witness :
  (exists i k : nat,
     generation_order two_threats_board !! i
       = Some (fst (go 0%nat [two_threats_board])) /\
     root_backed_up two_threats_board !! i = Some (PInt VIC) /\
     (forall (j : nat) y, (j < i)%nat ->
        root_backed_up two_threats_board !! j = Some y ->
        pylt y (PInt VIC) = true) /\
     generation_order two_threats_board !! k = Some 4 /\
     root_backed_up two_threats_board !! k = Some (PInt VIC) /\
     (i <= k)%nat) /\
  ((forall (j k : nat) y,
      generation_order two_threats_board !! k = Some 4 -> (j < k)%nat ->
      root_backed_up two_threats_board !! j = Some y -> y <> PInt VIC) ->
   fst (go 0%nat [two_threats_board]) = 4).
Proof.
  apply (go_first_column_backing_up_VIC [two_threats_board] 0%nat
           two_threats_board 4).
  - reflexivity.
  - apply valid_boardb_spec. reflexivity.
  - split; [lia|]. split; [reflexivity|].
    apply check_win_spec. reflexivity.
Defined.

(** C8, counterexample.  On [two_threats_board] column 4 is the only
    column that wins at once, yet [go] returns column 3, from which the
    win is forced two plies later. *)
Lemma go_prefers_earlier_forced_win :
  valid_board two_threats_board /\
  wins_now two_threats_board 4 /\
  (forall c, wins_now two_threats_board c -> c = 4) /\
  fst (go 0%nat [two_threats_board]) = 3.
Proof.
  split; [apply valid_boardb_spec; reflexivity|].
  split; [split; [lia|]; split; [reflexivity|];
          apply check_win_spec; reflexivity|].
  split; [|vm_compute; reflexivity].
  intros c (Hc & _ & Hfour). apply check_win_spec in Hfour.
  assert (Hcase : c = 0 \/ c = 1 \/ c = 2 \/ c = 3 \/ c = 4 \/ c = 5 \/ c = 6)
    by lia.
  destruct Hcase as [-> | [-> | [-> | [-> | [-> | [-> | ->]]]]]];
    try reflexivity; vm_compute in Hfour; discriminate.
Qed.

(** C5. On a 6x7 grid and for either player, [score_position] is six
    times the player's pieces in column 3, plus the score of every
    horizontal, vertical and diagonal four-cell window (+100, +5, +2, -50,
    -3), plus, when the opponent has exactly two pieces on the bottom
    row, -10 for each bottom-row window with two opponent pieces and two
    empty cells. *)
Theorem score_position_spec (b : board) (p : Z) :
  wf_board b -> p = HUMAN \/ p = COMPUTER ->
  score_position b p = spec_score b p.
Proof. exact (score_position_windows b p). Qed.

Lemma score_position_spec_witness :
  score_position two_threats_board COMPUTER
  = spec_score two_threats_board COMPUTER.
Proof.
  apply (score_position_spec two_threats_board COMPUTER).
  - apply valid_boardb_spec. reflexivity.
  - right. reflexivity.
Defined.

(** C1, where the code departs from it.  From the empty board the move in
    column 0 leads to a child whose heuristic is 0: [is_finished] holds of
    it although nobody has four in a row and 41 cells are empty. *)
Theorem finished_without_terminal_position :
  let root := fst (create_state 0%nat [empty_board]) in
  let cs := fst (get_next root [empty_board]) in
  let h' := snd (get_next root [empty_board]) in
  exists s,
    In s cs /\ col_played s = 0 /\
    is_finished s = true /\
    s_value s = PInt 0 /\
    s_empty s = 41 /\
    count_board 0 (V.v_board (view h' s)) = 41 /\
    ~ four_in_a_row (V.v_board (view h' s)) COMPUTER /\
    ~ four_in_a_row (V.v_board (view h' s)) HUMAN.
Proof.
  exists (mkState 6%nat (PInt 0) HUMAN 41 [0]).
  split; [apply list_elem_of_In, list_elem_of_lookup; exists 5%nat;
          vm_compute; reflexivity|].
  repeat split; try reflexivity; apply no_four; vm_compute; reflexivity.
Qed.

(** * Further properties of the engine *)

Section EngineFacts.

(** [make_move] on any allocated array is the move of the value engine. *)
Lemma make_move_view (h : heap) (s : state) (col : Z) :
  (s_board s < length h)%nat ->
  view (snd (make_move s col h)) (fst (make_move s col h))
  = V.make_move (view h s) col.
Proof.
  intros Hs. destruct (lookup_lt_is_Some_2 h (s_board s) Hs) as [b Hb].
  unfold make_move, bind, deref, store_cell, ret, V.make_move, view.
  rewrite Hb. simpl.
  destruct (get_next_row b col =? -1); simpl; [now rewrite Hb|].
  rewrite ?Hb. simpl. rewrite !list_lookup_insert_eq by exact Hs.
  reflexivity.
Qed.

Lemma get_next_nonempty_count (s : V.vstate) :
  inv s -> V.v_empty s <> 0 -> V.get_next s <> [].
Proof.
  intros (Hwf & Hg & He & _) Hne. rewrite He in Hne.
  destruct (exists_empty_cell _ Hwf Hne) as (r & c & Hr & Hc & Hz).
  assert (Htop : cell (V.v_board s) 5 c = 0)
    by (apply (Hg r 5 c); auto; lia).
  assert (Hin : In c (sorted (get_valid_columns (V.v_board s))
                         (fun x => Z.abs (x - COLUMN_COUNT / 2))))
    by (apply in_sorted, valid_columns_spec; auto).
  unfold V.get_next. intros Hnil.
  apply (in_map (V.child s)) in Hin. rewrite Hnil in Hin. exact Hin.
Qed.

Lemma get_next_empty_full (s : V.vstate) :
  inv s -> V.v_empty s = 0 -> V.get_next s = [].
Proof.
  intros (Hwf & Hg & He & _) Hz. rewrite He in Hz.
  unfold V.get_next.
  destruct (get_valid_columns (V.v_board s)) as [|c cols] eqn:Hcols;
    [reflexivity|].
  exfalso.
  assert (Hin : In c (get_valid_columns (V.v_board s)))
    by (rewrite Hcols; now left).
  apply valid_columns_spec in Hin. destruct Hin as [Hc Htop].
  now apply (empty_cell_counted (V.v_board s) 5 c Hwf).
Qed.

Lemma count_three (x y z : Z) (w : list Z) :
  x <> y -> x <> z -> y <> z ->
  count_eq x w + count_eq y w + count_eq z w <= Z.of_nat (length w).
Proof.
  intros Hxy Hxz Hyz. induction w as [|u w IH];
    [rewrite !count_eq_nil; simpl; lia|].
  rewrite !count_eq_cons. simpl length.
  destruct (decide (u = x)), (decide (u = y)), (decide (u = z));
    subst; try contradiction; lia.
Qed.



End EngineFacts.

(** X1. [check_win] answers true exactly when the player owns four
    contiguous cells of a row, a column or a diagonal of the grid. *)
Theorem check_win_detects_four (b : board) (p : Z) :
  check_win b p = true <-> four_in_a_row b p.
Proof. split; [apply check_win_four | apply four_check_win]. Qed.

(** X2. [get_next_row] returns -1 exactly when rows 0..5 of the column
    are all occupied, and otherwise the lowest empty row. *)
Theorem get_next_row_result (b : board) (col : Z) :
  (get_next_row b col = -1 <-> forall r, 0 <= r < 6 -> cell b r col <> 0) /\
  (get_next_row b col <> -1 ->
   0 <= get_next_row b col < 6 /\
   cell b (get_next_row b col) col = 0 /\
   forall r, 0 <= r < get_next_row b col -> cell b r col <> 0).
Proof.
  split; [apply get_next_row_full | apply get_next_row_lowest].
Qed.

(** X3. For a state whose board obeys gravity and whose counter is the
    number of empty cells, [get_next] returns no child exactly when the
    counter is zero: a state that is not finished always has a child. *)
Theorem get_next_empty_iff_full (h : heap) (s : state) :
  (s_board s < length h)%nat -> inv (view h s) ->
  (fst (get_next s h) = [] <-> s_empty s = 0).
Proof.
  intros Hs Hinv.
  destruct (get_next_view s h Hs) as (cs & t & Hrun & _ & Hmap & _).
  rewrite Hrun. simpl. split.
  - intros ->. simpl in Hmap.
    destruct (Z.eq_dec (s_empty s) 0) as [|Hne]; [assumption|].
    exfalso. now apply (get_next_nonempty_count (view h s) Hinv Hne).
  - intros Hz. rewrite (get_next_empty_full (view h s) Hinv Hz) in Hmap.
    now destruct cs.
Qed.

Lemma get_next_empty_iff_full_witness :
  fst (get_next (mkState 0%nat PSmall COMPUTER 0 []) [full_board]) = []
  <-> s_empty (mkState 0%nat PSmall COMPUTER 0 []) = 0.
Proof.
  apply (get_next_empty_iff_full [full_board]
           (mkState 0%nat PSmall COMPUTER 0 [])).
  - simpl. lia.
  - apply (inv_create_state full_board).
    apply valid_boardb_spec. reflexivity.
Defined.

(** X4. A legal move keeps the state well formed: the board stays 6x7 and
    obeys gravity, the counter still equals the number of empty cells,
    the turn is a player and the stored value lies between LOSS and
    VIC. *)
Theorem make_move_keeps_invariant (h : heap) (s : state) (col : Z) :
  (s_board s < length h)%nat -> inv (view h s) ->
  0 <= col < 7 -> cell (V.v_board (view h s)) 5 col = 0 ->
  inv (view (snd (make_move s col h)) (fst (make_move s col h))).
Proof.
  intros Hs Hinv Hcol Htop. rewrite make_move_view by exact Hs.
  now apply inv_make_move.
Qed.

Lemma make_move_keeps_invariant_witness :
  inv (view (snd (make_move (mkState 0%nat PSmall COMPUTER 32 []) 4
                    [two_threats_board]))
            (fst (make_move (mkState 0%nat PSmall COMPUTER 32 []) 4
                    [two_threats_board]))).
Proof.
  apply (make_move_keeps_invariant [two_threats_board]
           (mkState 0%nat PSmall COMPUTER 32 []) 4).
  - simpl. lia.
  - apply (inv_create_state two_threats_board).
    apply valid_boardb_spec. reflexivity.
  - lia.
  - reflexivity.
Defined.



(** X6. On a state that arises from a valid board the value returned by
    [abmax] and by [abmin], at any depth and for any window, lies between
    LOSS and VIC: the infinities the loops start from never come back. *)
Theorem search_values_bounded (d : nat) (h : heap) (s : state)
    (a b : pynum) :
  (s_board s < length h)%nat -> inv (view h s) ->
  bounded (fst (fst (abmax d s a b h))) /\
  bounded (fst (fst (abmin d s a b h))).
Proof.
  intros Hs Hinv.
  destruct (proj1 (abmax_abmin_view d) s a b h Hs) as (t1 & Hmax).
  destruct (proj2 (abmax_abmin_view d) s a b h Hs) as (t2 & Hmin).
  rewrite Hmax, Hmin. cbn [fst]. now apply ab_bounded.
Qed.

Lemma search_values_bounded_witness :
  bounded (fst (fst (abmax 2 (mkState 0%nat PSmall COMPUTER 32 [])
                       PNegInf PInf [two_threats_board]))) /\
  bounded (fst (fst (abmin 2 (mkState 0%nat PSmall COMPUTER 32 [])
                       PNegInf PInf [two_threats_board]))).
Proof.
  apply (search_values_bounded 2 [two_threats_board]
           (mkState 0%nat PSmall COMPUTER 32 [])).
  - simpl. lia.
  - apply (inv_create_state two_threats_board).
    apply valid_boardb_spec. reflexivity.
Defined.

(** X7. The column [go] returns depends on the contents of the caller's
    array only, not on where it lives nor on what else is on the heap; in
    particular a second call on the same array returns the same
    column. *)
Theorem go_depends_on_board_only (h1 h2 : heap) (l1 l2 : loc) (b : board) :
  h1 !! l1 = Some b -> h2 !! l2 = Some b ->
  fst (go l1 h1) = fst (go l2 h2) /\
  fst (go l1 (snd (go l1 h1))) = fst (go l1 h1).
Proof.
  intros H1 H2.
  destruct (go_view l1 h1 (lookup_lt_Some _ _ _ H1)) as (t1 & Hgo1).
  destruct (go_view l2 h2 (lookup_lt_Some _ _ _ H2)) as (t2 & Hgo2).
  rewrite Hgo1, Hgo2, H1, H2. simpl. split; [reflexivity|].
  assert (H3 : (h1 ++ t1) !! l1 = Some b) by (now apply lookup_app_l_Some).
  destruct (go_view l1 (h1 ++ t1) (lookup_lt_Some _ _ _ H3)) as (t3 & Hgo3).
  rewrite Hgo3, H3. reflexivity.
Qed.

Lemma go_depends_on_board_only_witness :
  fst (go 0%nat [full_board]) = fst (go 1%nat [empty_board; full_board]) /\
  fst (go 0%nat (snd (go 0%nat [full_board]))) = fst (go 0%nat [full_board]).
Proof.
  apply (go_depends_on_board_only [full_board] [empty_board; full_board]
           0%nat 1%nat full_board); reflexivity.
Defined.

(** X8. On a window of four cells [evaluate_window] fires at most one of
    its five rules: for either player the result is one of 100, 5, 2, 0,
    -3 and -50. *)
Theorem evaluate_window_values (w : list Z) (p : Z) :
  length w = 4%nat -> p = HUMAN \/ p = COMPUTER ->
  In (evaluate_window w p) [100; 5; 2; 0; -3; -50].
Proof.
  intros Hlen Hp.
  assert (Hsum : count_eq p w + count_eq EMPTY w + count_eq (opponent p) w
                 <= 4).
  { replace 4 with (Z.of_nat (length w)) by (rewrite Hlen; reflexivity).
    apply count_three; destruct Hp as [-> | ->]; discriminate. }
  pose proof (count_eq_bounds p w). pose proof (count_eq_bounds EMPTY w).
  pose proof (count_eq_bounds (opponent p) w).
  unfold evaluate_window. cbv zeta.
  destruct (Z.eqb_spec (count_eq p w) 4), (Z.eqb_spec (count_eq p w) 3),
    (Z.eqb_spec (count_eq p w) 2), (Z.eqb_spec (count_eq EMPTY w) 1),
    (Z.eqb_spec (count_eq EMPTY w) 2),
    (Z.eqb_spec (count_eq (opponent p) w) 3),
    (Z.eqb_spec (count_eq (opponent p) w) 2);
    simpl; try lia; auto 10.
Qed.

Lemma evaluate_window_values_witness :
  In (evaluate_window [2; 2; 0; 2] COMPUTER) [100; 5; 2; 0; -3; -50].
Proof.
  apply (evaluate_window_values [2; 2; 0; 2] COMPUTER).
  - reflexivity.
  - right. reflexivity.
Defined.

(** ** Alpha-beta against plain minimax *)

Module PyOrdFacts.

Lemma pylt_irrefl (x : pynum) : pylt x x = false.
Proof. destruct x; simpl; auto. apply Z.ltb_irrefl. Qed.

Lemma pylt_total (x y : pynum) :
  pylt x y = true \/ x = y \/ pylt y x = true.
Proof.
  destruct x as [z1| | |], y as [z2| | |]; simpl; auto;
    unfold pylt, key.
  - destruct (Z.ltb_spec (2 * z1) (2 * z2)); auto.
    destruct (Z.ltb_spec (2 * z2) (2 * z1)); auto.
    right; left. f_equal. lia.
  - destruct (Z.ltb_spec (2 * z1) 1); auto.
    destruct (Z.ltb_spec 1 (2 * z1)); auto. lia.
  - destruct (Z.ltb_spec 1 (2 * z2)); auto.
    destruct (Z.ltb_spec (2 * z2) 1); auto. lia.
Qed.

Lemma pylt_asym (x y : pynum) : pylt x y = true -> pylt y x = false.
Proof.
  intros H. destruct (pylt y x) eqn:E; [|reflexivity].
  pose proof (pylt_trans x y x H E) as Hxx.
  rewrite pylt_irrefl in Hxx. discriminate.
Qed.

#[global] Instance eq_equiv : Equivalence PyOrd.eq.
Proof. unfold PyOrd.eq. split; congruence. Qed.

#[global] Instance lt_strorder : StrictOrder PyOrd.lt.
Proof.
  split.
  - intros x H. unfold PyOrd.lt in H. rewrite pylt_irrefl in H.
    discriminate.
  - intros x y z. apply pylt_trans.
Qed.

#[global] Instance lt_compat :
  Proper (PyOrd.eq ==> PyOrd.eq ==> iff) PyOrd.lt.
Proof. intros x x' -> y y' ->. reflexivity. Qed.

Lemma le_lteq (x y : pynum) :
  PyOrd.le x y <-> PyOrd.lt x y \/ PyOrd.eq x y.
Proof.
  unfold PyOrd.le, PyOrd.lt, PyOrd.eq. split.
  - intros H. destruct (pylt_total x y) as [Hl|[He|Hg]]; auto. congruence.
  - intros [H| ->]; [now apply pylt_asym | apply pylt_irrefl].
Qed.

Lemma lt_total (x y : pynum) :
  PyOrd.lt x y \/ PyOrd.eq x y \/ PyOrd.lt y x.
Proof. apply pylt_total. Qed.

End PyOrdFacts.

Module PyTac := !OrdersTac.MakeOrderTac PyOrd PyOrdFacts.

Lemma pylt_false_le (x y : pynum) : pylt x y = false -> PyOrd.le y x.
Proof. intros H. exact H. Qed.

Lemma neginf_least (x : pynum) : PyOrd.le PNegInf x.
Proof. unfold PyOrd.le. now destruct x. Qed.

Lemma inf_greatest (x : pynum) : PyOrd.le x PInf.
Proof. unfold PyOrd.le. now destruct x. Qed.

(** Turn the boolean comparisons of the context and of the goal into the
    relations of [PyOrd] and call the order tactic. *)
Ltac py_prep :=
  unfold fail_soft, pymax, pymin, pygt, pyge, pyle in *;
  repeat match goal with
         | H : negb _ = true |- _ => apply negb_true_iff in H
         | H : negb _ = false |- _ => apply negb_false_iff in H
         | |- negb _ = true => apply negb_true_iff
         | |- negb _ = false => apply negb_false_iff
         end;
  repeat match goal with
         | H : pylt ?x ?y = true |- _ => change (PyOrd.lt x y) in H
         | H : pylt ?x ?y = false |- _ => change (PyOrd.le y x) in H
         | H : @Logic.eq pynum ?x ?y |- _ => change (PyOrd.eq x y) in H
         end;
  match goal with
  | |- pylt ?x ?y = true => change (PyOrd.lt x y)
  | |- pylt ?x ?y = false => change (PyOrd.le y x)
  | |- @Logic.eq pynum ?x ?y => change (PyOrd.eq x y)
  | |- _ => idtac
  end.

Ltac py_ord := py_prep; PyTac.order.

Section FailSoft.

Variable rec : V.vstate -> pynum -> pynum -> pynum * Z.
Variable mm : V.vstate -> pynum.

Hypothesis Hrec : forall c a b,
  pylt a b = true -> fail_soft (fst (rec c a b)) (mm c) a b.

Lemma fold_max_ge (cs : list V.vstate) (m0 : pynum) :
  pyle m0 (fold_left (fun v c => pymax v (mm (V.first4 c))) cs m0) = true.
Proof.
  revert m0. induction cs as [|c cs IH]; intros m0; simpl.
  - apply pyle_refl.
  - specialize (IH (pymax m0 (mm (V.first4 c)))).
    set (r := fold_left _ cs _) in *. clearbody r.
    unfold pymax in *. destruct (pygt (mm (V.first4 c)) m0) eqn:E; py_ord.
Qed.

Lemma fold_min_le (cs : list V.vstate) (m0 : pynum) :
  pyle (fold_left (fun v c => pymin v (mm (V.first4 c))) cs m0) m0 = true.
Proof.
  revert m0. induction cs as [|c cs IH]; intros m0; simpl.
  - apply pyle_refl.
  - specialize (IH (pymin m0 (mm (V.first4 c)))).
    set (r := fold_left _ cs _) in *. clearbody r.
    unfold pymin in *. destruct (pylt (mm (V.first4 c)) m0) eqn:E; py_ord.
Qed.

Lemma abmax_loop_fail_soft (cs : list V.vstate) :
  forall v0 best0 acur a0 b m0,
    pylt a0 b = true -> pylt v0 b = true ->
    acur = (if pygt v0 a0 then v0 else a0) ->
    (pyle v0 a0 = true -> pyle m0 v0 = true) ->
    (pylt a0 v0 = true -> v0 = m0) ->
    fail_soft (fst (V.abmax_loop rec cs v0 best0 acur b))
      (fold_left (fun v c => pymax v (mm (V.first4 c))) cs m0) a0 b.
Proof.
  induction cs as [|c cs IH]; intros v0 best0 acur a0 b m0 Hab Hvb Hacur Hlow Hexact.
  - simpl. unfold fail_soft. repeat split; intros.
    + auto.
    + auto.
    + exfalso. py_ord.
  - simpl.
    assert (Hcur : pylt acur b = true)
      by (subst acur; destruct (pygt v0 a0); assumption).
    pose proof (Hrec (V.first4 c) acur b Hcur) as Hx.
    set (x := fst (rec (V.first4 c) acur b)) in *. clearbody x.
    set (mc := mm (V.first4 c)) in *.
    pose proof (fold_max_ge cs (pymax m0 mc)) as Hge.
    destruct (pygt x v0) eqn:Exv.
    + destruct (pyge x b) eqn:Exb.
      * (* cut off *)
        simpl. set (r := fold_left _ cs _) in *. clearbody r.
        destruct Hx as (_ & _ & Hhigh).
        assert (Hxm : pyle x mc = true) by (apply Hhigh; py_ord).
        clear Hhigh IH. unfold pymax in Hge.
        destruct (pygt mc m0) eqn:E; unfold fail_soft;
          repeat split; intros; try (exfalso; py_ord); py_ord.
      * eapply IH; try eassumption.
        -- py_ord.
        -- subst acur. destruct (pygt v0 a0) eqn:E1, (pygt x a0) eqn:E2;
             destruct (pygt x v0) eqn:E3; try reflexivity;
             try discriminate; exfalso; py_ord.
        -- intros Hxa. destruct Hx as (Hl & _ & _).
           assert (pyle mc x = true)
             by (apply Hl; subst acur; destruct (pygt v0 a0) eqn:E1; py_ord).
           assert (pyle m0 v0 = true) by (apply Hlow; py_ord).
           unfold pymax. destruct (pygt mc m0); py_ord.
        -- intros Hax. destruct Hx as (_ & Hm & _).
           assert (Hxmc : x = mc).
           { apply Hm; [|py_ord]. subst acur.
             destruct (pygt v0 a0) eqn:E1; py_ord. }
           subst mc. rewrite <- Hxmc in *.
           assert (Hm0 : pyle m0 acur = true).
           { subst acur. destruct (pygt v0 a0) eqn:E1.
             - rewrite <- (Hexact E1). apply pyle_refl.
             - assert (pyle m0 v0 = true) by (apply Hlow; py_ord). py_ord. }
           unfold pymax. destruct (pygt x m0) eqn:E4; [reflexivity|].
           exfalso. subst acur. destruct (pygt v0 a0) eqn:E1; py_ord.
    + assert (Evb : pyge v0 b = false) by py_ord.
      rewrite Evb.
      assert (Hacur' : (if pygt v0 acur then v0 else acur) = acur).
      { subst acur. destruct (pygt v0 a0) eqn:E1.
        - destruct (pygt v0 v0) eqn:E2; [exfalso; py_ord|reflexivity].
        - now rewrite E1. }
      rewrite Hacur'.
      eapply IH; try eassumption.
      * intros Hva. assert (pyle m0 v0 = true) by auto.
        destruct Hx as (Hl & _ & _).
        assert (pyle mc x = true)
          by (apply Hl; subst acur; destruct (pygt v0 a0) eqn:E1; py_ord).
        unfold pymax. destruct (pygt mc m0); py_ord.
      * intros Hav. specialize (Hexact Hav). subst m0.
        destruct Hx as (Hl & _ & _).
        assert (pyle mc x = true).
        { apply Hl. subst acur. destruct (pygt v0 a0) eqn:E1; py_ord. }
        unfold pymax. destruct (pygt mc v0) eqn:E5; [|reflexivity].
        exfalso. py_ord.
Qed.

Lemma abmin_loop_fail_soft (cs : list V.vstate) :
  forall v0 best0 a bcur b0 m0,
    pylt a b0 = true -> pylt a v0 = true ->
    bcur = (if pylt v0 b0 then v0 else b0) ->
    (pyle b0 v0 = true -> pyle v0 m0 = true) ->
    (pylt v0 b0 = true -> v0 = m0) ->
    fail_soft (fst (V.abmin_loop rec cs v0 best0 a bcur))
      (fold_left (fun v c => pymin v (mm (V.first4 c))) cs m0) a b0.
Proof.
  induction cs as [|c cs IH]; intros v0 best0 a bcur b0 m0 Hab Hav Hbcur Hhigh Hexact.
  - simpl. unfold fail_soft. repeat split; intros.
    + exfalso. py_ord.
    + auto.
    + auto.
  - simpl.
    assert (Hcur : pylt a bcur = true)
      by (subst bcur; destruct (pylt v0 b0); assumption).
    pose proof (Hrec (V.first4 c) a bcur Hcur) as Hx.
    set (x := fst (rec (V.first4 c) a bcur)) in *. clearbody x.
    set (mc := mm (V.first4 c)) in *.
    pose proof (fold_min_le cs (pymin m0 mc)) as Hle.
    assert (Hbm : pyle bcur m0 = true).
    { subst bcur. destruct (pylt v0 b0) eqn:E1.
      - rewrite <- (Hexact eq_refl). apply pyle_refl.
      - assert (pyle v0 m0 = true) by (apply Hhigh; py_ord). py_ord. }
    destruct (pylt x v0) eqn:Exv.
    + destruct (pyle x a) eqn:Exa.
      * (* cut off *)
        simpl. set (r := fold_left _ cs _) in *. clearbody r.
        destruct Hx as (Hlow & _ & _).
        assert (Hxm : pyle mc x = true) by (apply Hlow; py_ord).
        clear Hlow IH. unfold pymin in Hle.
        destruct (pylt mc m0) eqn:E; unfold fail_soft;
          repeat split; intros; try (exfalso; py_ord); py_ord.
      * eapply IH; try eassumption.
        -- py_ord.
        -- subst bcur. destruct (pylt v0 b0) eqn:E1, (pylt x b0) eqn:E2;
             destruct (pylt x v0) eqn:E3; try reflexivity;
             try discriminate; exfalso; py_ord.
        -- intros Hbx. destruct Hx as (_ & _ & Hh).
           assert (pyle x mc = true)
             by (apply Hh; subst bcur; destruct (pylt v0 b0) eqn:E1; py_ord).
           assert (pyle v0 m0 = true) by (apply Hhigh; py_ord).
           unfold pymin. destruct (pylt mc m0); py_ord.
        -- intros Hxb. destruct Hx as (_ & Hm & _).
           assert (Hxmc : x = mc).
           { apply Hm; [py_ord|]. subst bcur.
             destruct (pylt v0 b0) eqn:E1; py_ord. }
           subst mc. rewrite <- Hxmc in *.
           unfold pymin. destruct (pylt x m0) eqn:E4; [reflexivity|].
           exfalso. subst bcur. destruct (pylt v0 b0) eqn:E1; py_ord.
    + assert (Eva : pyle v0 a = false) by py_ord.
      rewrite Eva.
      assert (Hbcur' : (if pylt v0 bcur then v0 else bcur) = bcur).
      { subst bcur. destruct (pylt v0 b0) eqn:E1.
        - destruct (pylt v0 v0) eqn:E2; [exfalso; py_ord|reflexivity].
        - now rewrite E1. }
      rewrite Hbcur'.
      eapply IH; try eassumption.
      * intros Hbv. assert (pyle v0 m0 = true) by auto.
        destruct Hx as (_ & _ & Hh).
        assert (pyle x mc = true)
          by (apply Hh; subst bcur; destruct (pylt v0 b0) eqn:E1; py_ord).
        unfold pymin. destruct (pylt mc m0); py_ord.
      * intros Hvb. specialize (Hexact Hvb). subst m0.
        destruct Hx as (_ & _ & Hh).
        assert (pyle x mc = true).
        { apply Hh. subst bcur. destruct (pylt v0 b0) eqn:E1; py_ord. }
        unfold pymin. destruct (pylt mc v0) eqn:E5; [|reflexivity].
        exfalso. py_ord.
Qed.

End FailSoft.

Lemma fail_soft_refl (v a b : pynum) : fail_soft v v a b.
Proof. unfold fail_soft. repeat split; intros; auto; apply pyle_refl. Qed.

Lemma alpha_beta_minimax (d : nat) :
  forall s a b, pylt a b = true ->
    fail_soft (fst (V.abmax d s a b)) (minimax_max d s) a b /\
    fail_soft (fst (V.abmin d s a b)) (minimax_min d s) a b.
Proof.
  induction d as [|d IH]; intros s a b Hab.
  - simpl. split; apply fail_soft_refl.
  - simpl. destruct (V.is_finished s); [split; apply fail_soft_refl|].
    pose proof (neginf_least a) as Hna. pose proof (inf_greatest b) as Hib.
    split.
    + apply (abmax_loop_fail_soft (V.abmin d) (minimax_min d)).
      * intros c a' b' Hab'. now apply IH.
      * exact Hab.
      * py_ord.
      * now destruct a.
      * intros _. apply pyle_refl.
      * intros H. exfalso. py_ord.
    + apply (abmin_loop_fail_soft (V.abmax d) (minimax_max d)).
      * intros c a' b' Hab'. now apply IH.
      * exact Hab.
      * py_ord.
      * now destruct b.
      * intros _. apply pyle_refl.
      * intros H. exfalso. py_ord.
Qed.

(** ** The column chosen at the root *)

Section FirstLargest.

Lemma first_largest_single (x : pynum) (c : Z) : first_largest [x] [c] x c.
Proof.
  exists 0%nat. repeat split; auto.
  - intros [|j] y H; [injection H as <-; apply pyle_refl|].
    destruct j; discriminate.
  - intros j y Hj. lia.
Qed.

Lemma first_largest_in (xs : list pynum) (cols : list Z) (v : pynum)
    (best : Z) :
  first_largest xs cols v best -> In v xs.
Proof.
  intros (i & Hi & _). apply list_elem_of_In, list_elem_of_lookup. eauto.
Qed.

Lemma first_largest_keep (xs : list pynum) (cols : list Z) (v : pynum)
    (best : Z) (y : pynum) (c : Z) :
  first_largest xs cols v best -> pyle y v = true ->
  first_largest (xs ++ [y]) (cols ++ [c]) v best.
Proof.
  intros (i & Hi & Hc & Hle & Hlt) Hy. exists i.
  split; [now apply lookup_app_l_Some|].
  split; [now apply lookup_app_l_Some|]. split.
  - intros j z Hz. apply lookup_app_Some in Hz.
    destruct Hz as [Hz|[_ Hz]]; [now apply (Hle j)|].
    destruct (j - length xs)%nat; [|destruct n; discriminate].
    injection Hz as <-. exact Hy.
  - intros j z Hj Hz. apply lookup_app_Some in Hz.
    destruct Hz as [Hz|[Hge _]]; [now apply (Hlt j)|].
    apply lookup_lt_Some in Hi. lia.
Qed.

Lemma first_largest_new (xs : list pynum) (cols : list Z) (v : pynum)
    (best : Z) (y : pynum) (c : Z) :
  length xs = length cols ->
  first_largest xs cols v best -> pylt v y = true ->
  first_largest (xs ++ [y]) (cols ++ [c]) y c.
Proof.
  intros Hlen (i & Hi & Hc & Hle & Hlt) Hy. exists (length xs).
  split; [now apply list_lookup_middle|].
  split; [now apply list_lookup_middle|]. split.
  - intros j z Hz. apply lookup_app_Some in Hz.
    destruct Hz as [Hz|[_ Hz]].
    + apply pylt_le. apply (pyle_lt_trans z v y); [now apply (Hle j)|exact Hy].
    + destruct (j - length xs)%nat; [|destruct n; discriminate].
      injection Hz as <-. apply pyle_refl.
  - intros j z Hj Hz. rewrite lookup_app_l in Hz by exact Hj.
    apply (pyle_lt_trans z v y); [now apply (Hle j)|exact Hy].
Qed.

End FirstLargest.

Section RootChoice.

Variable rec : V.vstate -> pynum -> pynum -> pynum * Z.
Variable mm : V.vstate -> pynum.
Variables A B : pynum.

Hypothesis Hrec : forall c a b,
  pylt a b = true -> fail_soft (fst (rec c a b)) (mm c) a b.
Hypothesis HAB : pylt A B = true.

(** With every child's minimax value strictly inside the root window
    the loop of [abmax] ends with the largest minimax value and the first
    column that has it. *)
Lemma abmax_loop_first_optimal (cs : list V.vstate) :
  forall (pre : list V.vstate) v0 best0 acur,
    (forall c, In c (pre ++ cs) ->
       pylt A (mm (V.first4 c)) = true /\ pylt (mm (V.first4 c)) B = true) ->
    (pre = [] -> v0 = PNegInf /\ acur = A) ->
    (pre <> [] ->
       first_largest (map (fun c => mm (V.first4 c)) pre)
         (map V.col_played pre) v0 best0 /\ acur = v0) ->
    pre ++ cs <> [] ->
    first_largest (map (fun c => mm (V.first4 c)) (pre ++ cs))
      (map V.col_played (pre ++ cs))
      (fst (V.abmax_loop rec cs v0 best0 acur B))
      (snd (V.abmax_loop rec cs v0 best0 acur B)).
Proof.
  induction cs as [|c cs IH]; intros pre v0 best0 acur Hin Hnil Hcons Hne.
  - rewrite app_nil_r in *. simpl. now apply Hcons.
  - replace (pre ++ c :: cs) with ((pre ++ [c]) ++ cs) in *
      by (now rewrite <- app_assoc).
    destruct (Hin c) as [HAc HcB];
      [apply in_or_app; left; apply in_or_app; right; now left|].
    simpl.
    set (mc := mm (V.first4 c)) in *.
    assert (Hstate : pylt acur B = true /\ pyle A acur = true /\
                     pyle v0 acur = true).
    { destruct pre as [|p pre].
      - destruct (Hnil eq_refl) as [-> ->]. pose proof (neginf_least A).
        repeat split; py_ord.
      - destruct (Hcons ltac:(discriminate)) as [Hfl ->].
        apply first_largest_in, in_map_iff in Hfl.
        destruct Hfl as (q & Hq & Hqin).
        destruct (Hin q) as [HAq HqB];
          [apply in_or_app; left; apply in_or_app; now left|].
        rewrite Hq in *. repeat split; py_ord. }
    destruct Hstate as (HcurB & HAcur & Hvcur).
    pose proof (Hrec (V.first4 c) acur B HcurB) as (Hlow & Hmid & Hhigh).
    fold mc in Hlow, Hmid, Hhigh.
    set (x := fst (rec (V.first4 c) acur B)) in *. clearbody x.
    assert (HxB : pylt x B = true).
    { destruct (pylt x B) eqn:E; [reflexivity|].
      assert (pyle x mc = true) by (apply Hhigh; py_ord). exfalso. py_ord. }
    assert (Hnocut : forall v, pylt v B = true -> pyge v B = false)
      by (intros v Hv; py_ord).
    destruct (pygt x v0) eqn:Exv.
    + (* the child improves on the running best *)
      rewrite (Hnocut x HxB).
      assert (Hax : pylt acur x = true).
      { destruct (pylt acur x) eqn:E; [reflexivity|].
        assert (pyle mc x = true) by (apply Hlow; py_ord).
        destruct pre as [|p pre].
        - destruct (Hnil eq_refl) as [_ ->]. exfalso. py_ord.
        - destruct (Hcons ltac:(discriminate)) as [_ ->]. exfalso. py_ord. }
      assert (Hxmc : x = mc) by (now apply Hmid).
      assert (Hacur' : (if pygt x acur then x else acur) = x)
        by (destruct (pygt x acur) eqn:E; [reflexivity|exfalso; py_ord]).
      rewrite Hacur'.
      apply IH; auto.
      * intros Habs. destruct pre; discriminate.
      * intros _. split; [|reflexivity]. rewrite !map_app. simpl.
        fold mc. rewrite <- Hxmc.
        destruct pre as [|p pre]; [apply first_largest_single|].
        destruct (Hcons ltac:(discriminate)) as [Hfl _].
        eapply first_largest_new; [now rewrite !length_map|exact Hfl|py_ord].
    + (* the running best is kept *)
      destruct pre as [|p pre].
      { destruct (Hnil eq_refl) as [-> ->]. exfalso.
        assert (pyle mc x = true).
        { apply Hlow. pose proof (neginf_least A).
          pose proof (neginf_least x). py_ord. }
        pose proof (neginf_least x). py_ord. }
      destruct (Hcons ltac:(discriminate)) as [Hfl ->].
      assert (Hv0B : pylt v0 B = true) by exact HcurB.
      rewrite (Hnocut v0 Hv0B).
      assert (Hacur' : (if pygt v0 v0 then v0 else v0) = v0)
        by (now destruct (pygt v0 v0)).
      rewrite Hacur'.
      apply IH; auto.
      * intros Habs. discriminate.
      * intros _. split; [|reflexivity]. rewrite !map_app.
        change (map (fun c0 => mm (V.first4 c0)) [c]) with [mc].
        change (map V.col_played [c]) with [V.col_played c].
        apply first_largest_keep; [exact Hfl|].
        assert (pyle mc x = true) by (apply Hlow; py_ord). py_ord.
Qed.

End RootChoice.

Section Minimax.

Lemma minimax_bounded (d : nat) (s : V.vstate) :
  inv s -> bounded (minimax_max d s) /\ bounded (minimax_min d s).
Proof.
  intros Hinv.
  assert (Hab : pylt (PInt (LOSS - 1)) (PInt (VIC + 1)) = true)
    by reflexivity.
  destruct (alpha_beta_minimax d s _ _ Hab)
    as [(_ & Hmax & _) (_ & Hmin & _)].
  destruct (ab_bounded d s (PInt (LOSS - 1)) (PInt (VIC + 1)) Hinv)
    as [Hbmax Hbmin].
  assert (Hlow : forall v, bounded v -> pylt (PInt (LOSS - 1)) v = true).
  { intros v [Hl _]. apply (pylt_le_trans _ (PInt LOSS)); [|exact Hl].
    reflexivity. }
  split.
  - rewrite <- Hmax; auto using bounded_lt_beta.
  - rewrite <- Hmin; auto using bounded_lt_beta.
Qed.

Lemma root_value_minimax (s : V.vstate) :
  inv s ->
  fst (V.abmax DEPTH s (PInt (LOSS - 1)) (PInt (VIC + 1)))
  = minimax_max DEPTH s.
Proof.
  intros Hinv.
  assert (Hab : pylt (PInt (LOSS - 1)) (PInt (VIC + 1)) = true)
    by reflexivity.
  destruct (alpha_beta_minimax DEPTH s _ _ Hab) as [(_ & Hmax & _) _].
  destruct (ab_bounded DEPTH s (PInt (LOSS - 1)) (PInt (VIC + 1)) Hinv)
    as [[Hl Hu] _].
  apply Hmax.
  - apply (pylt_le_trans _ (PInt LOSS)); [reflexivity | exact Hl].
  - now apply bounded_lt_beta.
Qed.

Lemma root_first_minimax (b : board) (c : Z) :
  valid_board b -> 0 <= c < 7 -> cell b 5 c = 0 ->
  first_largest
    (map (fun ch => minimax_min 3 (V.first4 ch))
         (V.get_next (V.create_state b)))
    (generation_order b)
    (minimax_max DEPTH (V.create_state b)) (V.go b).
Proof.
  intros Hvalid Hc Htop.
  pose proof (inv_create_state b Hvalid) as Hinv.
  pose proof (root_not_finished b c (proj1 Hvalid) Hc Htop) as Hfin.
  rewrite <- (root_value_minimax _ Hinv).
  unfold V.go. simpl. rewrite Hfin.
  change (generation_order b)
    with (filter (fun col => cell (V.v_board (V.create_state b)) 5 col = 0)
            [3; 2; 4; 1; 5; 0; 6]).
  rewrite <- children_columns.
  apply (abmax_loop_first_optimal (V.abmin 3) (minimax_min 3)
           (PInt (LOSS - 1)) (PInt (VIC + 1))
           (fun c0 a0 b0 H => proj2 (alpha_beta_minimax 3 c0 a0 b0 H))
           (V.get_next (V.create_state b)) []).
  - intros ch Hin. simpl in Hin.
    destruct (minimax_bounded 3 (V.first4 ch)) as [_ [Hl Hu]];
      [now apply (inv_get_next (V.create_state b))|].
    split; [|now apply bounded_lt_beta].
    apply (pylt_le_trans _ (PInt LOSS)); [reflexivity | exact Hl].
  - auto.
  - intros H. now contradiction H.
  - simpl. now apply get_next_nonempty.
Qed.

End Minimax.

(** X9. Alpha-beta against plain minimax over the same tree, for any
    window [a < b] and any depth: a result at or below [a] bounds the
    minimax value from above, a result strictly inside the window is the
    minimax value, a result at or above [b] bounds it from below. *)
Theorem alpha_beta_fail_soft (d : nat) (h : heap) (s : state)
    (a b : pynum) :
  (s_board s < length h)%nat -> pylt a b = true ->
  fail_soft (fst (fst (abmax d s a b h))) (minimax_max d (view h s)) a b /\
  fail_soft (fst (fst (abmin d s a b h))) (minimax_min d (view h s)) a b.
Proof.
  intros Hs Hab.
  destruct (proj1 (abmax_abmin_view d) s a b h Hs) as (t1 & Hmax).
  destruct (proj2 (abmax_abmin_view d) s a b h Hs) as (t2 & Hmin).
  rewrite Hmax, Hmin. cbn [fst]. now apply alpha_beta_minimax.
Qed.

Lemma alpha_beta_fail_soft_witness :
  let s := mkState 0%nat PSmall COMPUTER 32 [] in
  let h := [two_threats_board] in
  fail_soft (fst (fst (abmax 3 s (PInt 0) (PInt 5) h)))
    (minimax_max 3 (view h s)) (PInt 0) (PInt 5) /\
  fail_soft (fst (fst (abmin 3 s (PInt 0) (PInt 5) h)))
    (minimax_min 3 (view h s)) (PInt 0) (PInt 5).
Proof.
  apply (alpha_beta_fail_soft 3 [two_threats_board]
           (mkState 0%nat PSmall COMPUTER 32 []) (PInt 0) (PInt 5)).
  - simpl. lia.
  - reflexivity.
Defined.

(** X10. On a valid board with a legal column, pruning changes nothing at
    the root: the value of the search is the depth-4 minimax value, and
    [go] returns the first column, in generation order, whose subtree has
    that minimax value. *)
Theorem go_returns_first_minimax_column (h : heap) (l : loc) (b : board)
    (c : Z) :
  h !! l = Some b -> valid_board b -> 0 <= c < 7 -> cell b 5 c = 0 ->
  fst (fst (abmax DEPTH (fst (create_state l h)) (PInt (LOSS - 1))
              (PInt (VIC + 1)) h))
  = minimax_max DEPTH (V.create_state b) /\
  first_largest
    (map (fun ch => minimax_min 3 (V.first4 ch))
         (V.get_next (V.create_state b)))
    (generation_order b)
    (minimax_max DEPTH (V.create_state b)) (fst (go l h)).
Proof.
  intros Hl Hvalid Hc Htop.
  pose proof (lookup_lt_Some _ _ _ Hl) as Hlt.
  split.
  - destruct (proj1 (abmax_abmin_view DEPTH) (fst (create_state l h))
                (PInt (LOSS - 1)) (PInt (VIC + 1)) h Hlt) as (t & Hrun).
    rewrite Hrun. cbn [fst].
    replace (view h (fst (create_state l h))) with (V.create_state b)
      by (unfold view, create_state, bind, deref, ret, V.create_state;
          simpl; now rewrite Hl).
    apply root_value_minimax. now apply inv_create_state.
  - destruct (go_view l h Hlt) as (t & Hgo).
    rewrite Hgo, Hl. simpl. now apply (root_first_minimax b c).
Qed.

Lemma go_returns_first_minimax_column_witness :
  fst (fst (abmax DEPTH (fst (create_state 0%nat [two_threats_board]))
              (PInt (LOSS - 1)) (PInt (VIC + 1)) [two_threats_board]))
  = minimax_max DEPTH (V.create_state two_threats_board) /\
  first_largest
    (map (fun ch => minimax_min 3 (V.first4 ch))
         (V.get_next (V.create_state two_threats_board)))
    (generation_order two_threats_board)
    (minimax_max DEPTH (V.create_state two_threats_board))
    (fst (go 0%nat [two_threats_board])).
Proof.
  apply (go_returns_first_minimax_column [two_threats_board] 0%nat
           two_threats_board 4).
  - reflexivity.
  - apply valid_boardb_spec. reflexivity.
  - lia.
  - reflexivity.
Defined.

(** * The game module *)

(** ** Substring search on joined digits *)

Section Digits.

Ltac digit_cases x H :=
  assert (x = 0 \/ x = 1 \/ x = 2 \/ x = 3 \/ x = 4 \/ x = 5 \/ x = 6 \/
          x = 7 \/ x = 8 \/ x = 9) as H by lia;
  destruct H as [-> | [-> | [-> | [-> | [-> | [-> | [-> | [-> | [-> | ->]]]]]]]]].

Lemma py_str_digit (x : Z) :
  0 <= x <= 9 -> py_str x = String.String (digit_char x) String.EmptyString.
Proof. intros Hx. digit_cases x H; reflexivity. Qed.

Lemma digit_char_eqb (x y : Z) :
  0 <= x <= 9 -> 0 <= y <= 9 ->
  Ascii.eqb (digit_char x) (digit_char y) = (y =? x).
Proof.
  intros Hx Hy. digit_cases x H; digit_cases y H'; reflexivity.
Qed.

Lemma append_empty (s : String.string) :
  String.append s String.EmptyString = s.
Proof. induction s as [|a s IH]; simpl; [reflexivity | now rewrite IH]. Qed.

Lemma join_str_cons (x : Z) (xs : list Z) :
  join_str (x :: xs) = String.append (py_str x) (join_str xs).
Proof.
  unfold join_str. simpl map.
  destruct (map py_str xs) as [|y ys] eqn:E.
  - simpl. now rewrite append_empty.
  - reflexivity.
Qed.

Lemma join_str_digit (x : Z) (xs : list Z) :
  0 <= x <= 9 ->
  join_str (x :: xs) = String.String (digit_char x) (join_str xs).
Proof.
  intros Hx. now rewrite join_str_cons, py_str_digit.
Qed.

Lemma starts_with_run (p : Z) (l : list Z) :
  0 <= p <= 9 -> Forall (fun x => 0 <= x <= 9) l ->
  starts_with (join_str [p; p; p; p]) (join_str l) = starts4 p l.
Proof.
  intros Hp Hl.
  rewrite !(join_str_digit p) by exact Hp.
  change (join_str []) with String.EmptyString.
  destruct Hl as [|a l Ha Hl]; [reflexivity|].
  rewrite (join_str_digit a) by exact Ha. cbn [starts_with starts4].
  rewrite (digit_char_eqb p a) by assumption.
  destruct Hl as [|b l Hb Hl];
    [change (join_str []) with String.EmptyString;
     now rewrite andb_false_r|].
  rewrite (join_str_digit b) by exact Hb. cbn [starts_with].
  rewrite (digit_char_eqb p b) by assumption.
  destruct Hl as [|c l Hc Hl];
    [change (join_str []) with String.EmptyString;
     now rewrite !andb_false_r|].
  rewrite (join_str_digit c) by exact Hc. cbn [starts_with].
  rewrite (digit_char_eqb p c) by assumption.
  destruct Hl as [|d l Hd Hl];
    [change (join_str []) with String.EmptyString;
     now rewrite !andb_false_r|].
  rewrite (join_str_digit d) by exact Hd. cbn [starts_with].
  rewrite (digit_char_eqb p d) by assumption.
  now rewrite andb_true_r, !andb_assoc.
Qed.

(** On one-digit entries the substring test is the search for four
    consecutive entries equal to [p]. *)
Lemma contains_run (p : Z) (l : list Z) :
  0 <= p <= 9 -> Forall (fun x => 0 <= x <= 9) l ->
  contains (join_str [p; p; p; p]) (join_str l) = has_run4 p l.
Proof.
  intros Hp Hl. induction Hl as [|a l Ha Hl IH].
  - rewrite !(join_str_digit p) by exact Hp. reflexivity.
  - cbn [has_run4]. rewrite <- IH.
    rewrite <- (starts_with_run p (a :: l)) by (auto using Forall_cons_2).
    rewrite (join_str_digit a l) by exact Ha. reflexivity.
Qed.

Lemma has_run4_map (f : Z -> Z) (p : Z) (len : Z) :
  has_run4 p (map f (range len)) = true <->
  exists i, 0 <= i /\ i + 3 < len /\
            f i = p /\ f (i + 1) = p /\ f (i + 2) = p /\ f (i + 3) = p.
Proof.
  unfold range.
  assert (Hgen : forall (n : nat) (m : Z),
            has_run4 p (map f (seqZ m (Z.of_nat n))) = true <->
            exists i, m <= i /\ i + 3 < m + Z.of_nat n /\
              f i = p /\ f (i + 1) = p /\ f (i + 2) = p /\ f (i + 3) = p).
  { induction n as [|n IH]; intros m.
    - rewrite seqZ_nil by lia. simpl. split; [discriminate|].
      intros (i & ? & ? & _). lia.
    - rewrite seqZ_cons by lia.
      replace (Z.pred (Z.of_nat (S n))) with (Z.of_nat n) by lia.
      cbn [map has_run4]. rewrite orb_true_iff, IH.
      assert (Hstart :
        starts4 p (f m :: map f (seqZ (Z.succ m) (Z.of_nat n))) = true <->
        m + 3 < m + Z.of_nat (S n) /\
        f m = p /\ f (m + 1) = p /\ f (m + 2) = p /\ f (m + 3) = p).
      { destruct n as [|[|[|n]]];
          try (rewrite ?seqZ_cons, ?seqZ_nil by lia; simpl;
               split; [discriminate | intros [? _]; lia]).
        rewrite !seqZ_cons by lia. cbn [map starts4].
        rewrite !andb_true_iff, !Z.eqb_eq.
        replace (Z.succ m) with (m + 1) by lia.
        replace (Z.succ (m + 1)) with (m + 2) by lia.
        replace (Z.succ (m + 2)) with (m + 3) by lia.
        split; [intros [[[? ?] ?] ?]; repeat split; auto; lia|].
        intros (_ & ? & ? & ? & ?). auto. }
      rewrite Hstart. split.
      + intros [(Hl & H0 & H1 & H2 & H3)|(i & Hi & Hl & H)].
        * exists m. repeat split; auto; lia.
        * exists i. split; [lia|]. split; [lia|exact H].
      + intros (i & Hi & Hl & H).
        destruct (Z.eq_dec i m) as [->|Hne].
        * left. split; [lia|exact H].
        * right. exists i. split; [lia|]. split; [lia|exact H]. }
  destruct (Z.le_gt_cases 0 len) as [Hpos|Hneg].
  - rewrite <- (Z2Nat.id len Hpos) at 1. rewrite Hgen.
    split; intros (i & ? & ? & H); exists i; repeat split; try lia;
      apply H.
  - rewrite seqZ_nil by lia. simpl. split; [discriminate|].
    intros (i & ? & ? & _). lia.
Qed.

End Digits.

(** ** [game_is_won] and four in a row *)

Section GameIsWon.

Ltac explode_row7 r :=
  destruct r as [|? [|? [|? [|? [|? [|? [|? [|? ?]]]]]]]]; try discriminate.

Lemma wf_shape (b : board) : wf_board b -> nrows b = 6 /\ ncols b = 7.
Proof.
  intros Hwf. destruct (wf_row b 0 Hwf ltac:(lia)) as (row & Hrow & Hlen).
  destruct Hwf as [Hl _]. unfold nrows, ncols, row_of.
  simpl in Hrow. rewrite Hl. simpl. rewrite Hrow. simpl. rewrite Hlen. auto.
Qed.

Lemma row_of_map (b : board) (r : Z) :
  wf_board b -> 0 <= r < 6 ->
  row_of b r = map (fun c => cell b r c) (range 7).
Proof.
  intros Hwf Hr. destruct (wf_row b r Hwf Hr) as (row & Hrow & Hlen).
  change (range 7) with [0; 1; 2; 3; 4; 5; 6]. cbn [map].
  unfold row_of, cell. rewrite Hrow. simpl.
  explode_row7 row. reflexivity.
Qed.

Lemma column_map (b : board) (c : Z) :
  wf_board b -> column b c = map (fun r => cell b r c) (range 6).
Proof.
  intros [Hlen _].
  destruct b as [|r0 [|r1 [|r2 [|r3 [|r4 [|r5 [|r6 b]]]]]]]; try discriminate.
  reflexivity.
Qed.

Lemma wf_flip (b : board) : wf_board b -> wf_board (flip_columns b).
Proof.
  intros [Hlen Hrows]. unfold flip_columns. split.
  - now rewrite length_map.
  - apply Forall_forall. intros row Hin.
    apply list_elem_of_In, in_map_iff in Hin.
    destruct Hin as (row0 & <- & Hin0). rewrite length_rev.
    rewrite Forall_forall in Hrows. apply Hrows. now apply list_elem_of_In.
Qed.

Lemma cell_flip (b : board) (r c : Z) :
  wf_board b -> 0 <= r < 6 -> 0 <= c < 7 ->
  cell (flip_columns b) r c = cell b r (6 - c).
Proof.
  intros Hwf Hr Hc. destruct (wf_row b r Hwf Hr) as (row & Hrow & Hlen).
  unfold cell, flip_columns. rewrite lookup_map, Hrow. simpl.
  explode_row7 row.
  assert (Hcase : c = 0 \/ c = 1 \/ c = 2 \/ c = 3 \/ c = 4 \/ c = 5 \/ c = 6)
    by lia.
  destruct Hcase as [-> | [-> | [-> | [-> | [-> | [-> | ->]]]]]]; reflexivity.
Qed.

Lemma valid_digits (b : board) : valid_board b -> digits_board b.
Proof.
  intros (_ & Hcells & _) r c Hr Hc.
  destruct (Hcells r c Hr Hc) as [H|[H|H]]; rewrite H;
    unfold EMPTY, HUMAN, COMPUTER; lia.
Qed.

Lemma digits_flip (b : board) :
  wf_board b -> digits_board b -> digits_board (flip_columns b).
Proof.
  intros Hwf Hd r c Hr Hc. rewrite cell_flip by assumption.
  apply Hd; lia.
Qed.

Lemma digits_map (f : Z -> Z) (len : Z) :
  (forall i, 0 <= i < len -> 0 <= f i <= 9) ->
  Forall (fun x => 0 <= x <= 9) (map f (range len)).
Proof.
  intros H. apply Forall_forall. intros x Hin.
  apply list_elem_of_In, in_map_iff in Hin. destruct Hin as (i & <- & Hi).
  apply H. now apply in_range.
Qed.

Variable b : board.
Variable p : Z.
Hypothesis Hwf : wf_board b.
Hypothesis Hd : digits_board b.
Hypothesis Hp : 0 <= p <= 9.

Lemma row_run (r : Z) :
  0 <= r < 6 ->
  (contains (join_str [p; p; p; p]) (join_str (row_of b r)) = true <->
   exists c, 0 <= c /\ c + 3 < 7 /\
     cell b r c = p /\ cell b r (c + 1) = p /\
     cell b r (c + 2) = p /\ cell b r (c + 3) = p).
Proof.
  intros Hr. rewrite row_of_map by assumption.
  rewrite contains_run by (auto; apply digits_map; intros; apply Hd; lia).
  apply has_run4_map.
Qed.

Lemma column_run (c : Z) :
  0 <= c < 7 ->
  (contains (join_str [p; p; p; p]) (join_str (column b c)) = true <->
   exists r, 0 <= r /\ r + 3 < 6 /\
     cell b r c = p /\ cell b (r + 1) c = p /\
     cell b (r + 2) c = p /\ cell b (r + 3) c = p).
Proof.
  intros Hc. rewrite column_map by assumption.
  rewrite contains_run by (auto; apply digits_map; intros; apply Hd; lia).
  apply has_run4_map.
Qed.

Ltac same_cell :=
  match goal with
  | H : cell ?bd ?r ?c = ?q |- cell ?bd ?x ?y = ?q =>
      replace x with r by lia; replace y with c by lia; exact H
  end.

Lemma diagonal_run (k : Z) :
  -2 <= k < 4 ->
  (contains (join_str [p; p; p; p]) (join_str (diagonal b k)) = true <->
   exists r c, 0 <= r /\ r + 3 < 6 /\ 0 <= c /\ c + 3 < 7 /\ c - r = k /\
     cell b r c = p /\ cell b (r + 1) (c + 1) = p /\
     cell b (r + 2) (c + 2) = p /\ cell b (r + 3) (c + 3) = p).
Proof.
  intros Hk. destruct (wf_shape b Hwf) as [Hnr Hnc].
  unfold diagonal. rewrite Hnr, Hnc.
  destruct (Z.leb_spec 0 k) as [Hpos|Hneg].
  - rewrite contains_run
      by (auto; apply digits_map; intros; apply Hd; lia).
    rewrite has_run4_map. split.
    + intros (i & Hi & Hlen & H0 & H1 & H2 & H3).
      exists i, (i + k). repeat split; try lia; same_cell.
    + intros (r & c & Hr & Hr3 & Hc & Hc3 & Hrc & H0 & H1 & H2 & H3).
      exists r. repeat split; try lia; same_cell.
  - rewrite contains_run
      by (auto; apply digits_map; intros; apply Hd; lia).
    rewrite has_run4_map. split.
    + intros (i & Hi & Hlen & H0 & H1 & H2 & H3).
      exists (i - k), i. repeat split; try lia; same_cell.
    + intros (r & c & Hr & Hr3 & Hc & Hc3 & Hrc & H0 & H1 & H2 & H3).
      exists c. repeat split; try lia; same_cell.
Qed.

End GameIsWon.

Section GameIsWonSpec.

Variable b : board.
Variable p : Z.
Hypothesis Hwf : wf_board b.
Hypothesis Hd : digits_board b.
Hypothesis Hp : 0 <= p <= 9.

Ltac same_cell :=
  match goal with
  | H : cell ?bd ?r ?c = ?q |- cell ?bd ?x ?y = ?q =>
      replace x with r by lia; replace y with c by lia; exact H
  end.

Lemma antidiagonal_run (k : Z) :
  -2 <= k < 4 ->
  (contains (join_str [p; p; p; p])
            (join_str (diagonal (flip_columns b) k)) = true <->
   exists r c, 3 <= r < 6 /\ 0 <= c /\ c + 3 < 7 /\ 6 - c - r = k /\
     cell b r c = p /\ cell b (r - 1) (c + 1) = p /\
     cell b (r - 2) (c + 2) = p /\ cell b (r - 3) (c + 3) = p).
Proof.
  intros Hk.
  rewrite (diagonal_run (flip_columns b) p (wf_flip b Hwf)
             (digits_flip b Hwf Hd) Hp k Hk).
  split.
  - intros (r & c & Hr & Hr3 & Hc & Hc3 & Hrc & H0 & H1 & H2 & H3).
    rewrite cell_flip in H0, H1, H2, H3 by (auto; lia).
    exists (r + 3), (3 - c). repeat split; try lia; same_cell.
  - intros (r & c & Hr & Hc & Hc3 & Hrc & H0 & H1 & H2 & H3).
    exists (r - 3), (3 - c). repeat split; try lia;
      rewrite cell_flip by (auto; lia); same_cell.
Qed.

Ltac window_cells H0 H1 H2 H3 :=
  intros i Hi;
  assert (Hcase : i = 0 \/ i = 1 \/ i = 2 \/ i = 3) by lia;
  destruct Hcase as [-> | [-> | [-> | ->]]];
  (split; [lia | split; [lia | same_cell]]).

Lemma game_is_won_four :
  game_is_won b p = true <-> four_in_a_row b p.
Proof.
  unfold game_is_won. cbv zeta. rewrite !orb_true_iff. split.
  - intros [[[H|H]|H]|H]; apply existsb_exists in H;
      destruct H as (x & Hx & H).
    + apply in_range in Hx. unfold ROW_COUNT in Hx.
      apply row_run in H; auto.
      destruct H as (c & Hc & Hc3 & H0 & H1 & H2 & H3).
      exists x, c, 0, 1. split; [simpl; auto|]. window_cells H0 H1 H2 H3.
    + apply in_range in Hx. unfold COLUMN_COUNT in Hx.
      apply column_run in H; auto.
      destruct H as (r & Hr & Hr3 & H0 & H1 & H2 & H3).
      exists r, x, 1, 0. split; [simpl; auto|]. window_cells H0 H1 H2 H3.
    + apply in_seqZ in Hx. apply diagonal_run in H; auto; try lia.
      destruct H as (r & c & Hr & Hr3 & Hc & Hc3 & Hrc & H0 & H1 & H2 & H3).
      exists r, c, 1, 1. split; [simpl; auto|]. window_cells H0 H1 H2 H3.
    + apply in_seqZ in Hx. apply antidiagonal_run in H; try lia.
      destruct H as (r & c & Hr & Hc & Hc3 & Hrc & H0 & H1 & H2 & H3).
      exists r, c, (-1), 1. split; [simpl; auto 6|].
      window_cells H0 H1 H2 H3.
  - intros (r & c & dr & dc & Hdir & H).
    pose proof (H 0 ltac:(lia)) as (Hr0 & Hc0 & H0).
    pose proof (H 1 ltac:(lia)) as (_ & _ & H1).
    pose proof (H 2 ltac:(lia)) as (_ & _ & H2).
    pose proof (H 3 ltac:(lia)) as (Hr3 & Hc3 & H3).
    simpl in Hdir.
    destruct Hdir as [Hdir|[Hdir|[Hdir|[Hdir|[]]]]]; inversion Hdir;
      subst dr dc; clear Hdir.
    + left; left; left. apply existsb_exists. exists r.
      split; [apply in_range; unfold ROW_COUNT; lia|].
      apply row_run; auto; [lia|].
      exists c. repeat split; try lia; same_cell.
    + left; left; right. apply existsb_exists. exists c.
      split; [apply in_range; unfold COLUMN_COUNT; lia|].
      apply column_run; auto; [lia|].
      exists r. repeat split; try lia; same_cell.
    + left; right. apply existsb_exists. exists (c - r).
      split; [apply in_seqZ; lia|].
      apply diagonal_run; auto; [lia|].
      exists r, c. repeat split; try lia; same_cell.
    + right. apply existsb_exists. exists (6 - c - r).
      split; [apply in_seqZ; lia|].
      apply antidiagonal_run; [lia|].
      exists r, c. repeat split; try lia; same_cell.
Qed.

Lemma game_is_won_check_win : game_is_won b p = check_win b p.
Proof.
  apply eq_true_iff_eq. rewrite game_is_won_four, check_win_spec.
  reflexivity.
Qed.

End GameIsWonSpec.

(** ** The shortcuts in front of the search *)

Section Shortcuts.

Lemma first_open_row_next_row (bd : board) (col : Z) (rows : list Z) :
  Forall (fun r => 0 <= r) rows ->
  first_open_row bd col rows
  = if first_empty_row bd col rows =? -1 then None
    else Some (first_empty_row bd col rows).
Proof.
  induction 1 as [|r rows Hr _ IH]; simpl; [reflexivity|].
  unfold EMPTY. destruct (cell bd r col =? 0).
  - destruct (Z.eqb_spec r (-1)); [lia|reflexivity].
  - exact IH.
Qed.

(** [get_next_open_row] and the engine's [get_next_row] find the same
    row; [None] stands where the engine returns -1. *)
Lemma get_next_open_row_next_row (bd : board) (col : Z) :
  get_next_open_row bd col
  = if get_next_row bd col =? -1 then None else Some (get_next_row bd col).
Proof.
  apply first_open_row_next_row. apply Forall_forall. intros r Hr.
  apply list_elem_of_In, in_range in Hr. lia.
Qed.

Lemma open_row_legal (bd : board) (col : Z) :
  cell bd 5 col = 0 ->
  get_next_open_row bd col = Some (get_next_row bd col).
Proof.
  intros Htop. rewrite get_next_open_row_next_row.
  destruct (Z.eqb_spec (get_next_row bd col) (-1)) as [H|]; [|reflexivity].
  exfalso. now apply (legal_has_row bd col).
Qed.

Lemma valid_locations_columns (bd : board) :
  get_valid_locations bd = get_valid_columns bd.
Proof.
  unfold get_valid_locations, get_valid_columns.
  induction (range COLUMN_COUNT) as [|c cs IH]; [reflexivity|].
  cbn [List.filter]. rewrite filter_cons, IH.
  unfold is_valid_location, EMPTY.
  destruct (Z.eqb_spec (cell bd (ROW_COUNT - 1) c) 0);
    destruct (decide (cell bd (ROW_COUNT - 1) c = 0)); try contradiction;
    reflexivity.
Qed.

Lemma valid_dropped (bd : board) (col piece : Z) :
  valid_board bd -> 0 <= col < 7 -> cell bd 5 col = 0 ->
  piece = RED_INT \/ piece = BLUE_INT ->
  valid_board (dropped bd col piece).
Proof.
  intros (Hwf & Hcells & Hg) Hcol Htop Hp.
  pose proof (legal_has_row bd col Htop) as Hrow.
  destruct (get_next_row_lowest bd col Hrow) as (Hr & _).
  unfold dropped. split; [now apply wf_set_cell|]. split.
  - intros r c Hrr Hcc. rewrite cell_set_cell by (auto; lia).
    destruct ((r =? get_next_row bd col) && (c =? col)); [|now apply Hcells].
    unfold HUMAN, COMPUTER, RED_INT, BLUE_INT in *. tauto.
  - apply gravity_set_cell; auto.
    unfold RED_INT, BLUE_INT in Hp. lia.
Qed.

(** One turn of the loop of [should_win]: copy the board, drop the chip
    on the copy, go on with the copy's contents. *)
Lemma try_drop {A} (k : board -> MX A) (l : loc) (h : heap) (bd : board)
    (col piece : Z) :
  h !! l = Some bd -> cell bd 5 col = 0 ->
  (let+ temp_board := lift (copy_board l) in
   let+ tb := lift (deref temp_board) in
   let row := get_next_open_row tb col in
   let+ _ := drop_chip temp_board row col piece in
   let+ tb := lift (deref temp_board) in
   k tb) h
  = k (dropped bd col piece) (h ++ [dropped bd col piece]).
Proof.
  intros Hl Htop.
  unfold xbind, lift, copy_board, deref, drop_chip, store_cell. simpl.
  rewrite Hl. simpl. rewrite !list_lookup_middle by reflexivity. simpl.
  rewrite (open_row_legal bd col Htop).
  unfold lift. rewrite list_lookup_middle by reflexivity. simpl.
  rewrite insert_app_r_alt by lia.
  replace (length h - length h)%nat with 0%nat by lia. simpl.
  rewrite list_lookup_middle by reflexivity. reflexivity.
Qed.

Lemma first_winning_drop_run (l : loc) (bd : board) (piece : Z)
    (cols : list Z) :
  forall h,
    h !! l = Some bd ->
    (forall col, In col cols -> cell bd 5 col = 0) ->
    exists t,
      first_winning_drop l piece cols h
      = Some (find (fun col => game_is_won (dropped bd col piece) piece) cols,
              h ++ t).
Proof.
  induction cols as [|col rest IH]; intros h Hl Hlegal.
  - exists []. simpl. unfold xret. now rewrite app_nil_r.
  - assert (Hstep :
      first_winning_drop l piece (col :: rest) h
      = (if game_is_won (dropped bd col piece) piece then xret (Some col)
         else first_winning_drop l piece rest)
          (h ++ [dropped bd col piece]))
      by exact (try_drop
                  (fun tb => if game_is_won tb piece then xret (Some col)
                             else first_winning_drop l piece rest)
                  l h bd col piece Hl (Hlegal col (or_introl eq_refl))).
    rewrite Hstep. cbn [find].
    destruct (game_is_won (dropped bd col piece) piece).
    + exists [dropped bd col piece]. reflexivity.
    + destruct (IH (h ++ [dropped bd col piece])) as (t & Hrun).
      * now apply lookup_app_l_Some.
      * intros c Hc. apply Hlegal. now right.
      * rewrite Hrun. exists ([dropped bd col piece] ++ t).
        now rewrite app_assoc.
Qed.

Lemma find_filter_seqZ (P : Z -> Prop) `{forall x, Decision (P x)}
    (f : Z -> bool) (n : nat) :
  forall m x,
    find f (filter P (seqZ m (Z.of_nat n))) = Some x ->
    forall y, m <= y < x -> P y -> f y = false.
Proof.
  induction n as [|n IH]; intros m x Hfind y Hy HP.
  - rewrite seqZ_nil in Hfind by lia. discriminate.
  - rewrite seqZ_cons in Hfind by lia.
    replace (Z.pred (Z.of_nat (S n))) with (Z.of_nat n) in Hfind by lia.
    rewrite filter_cons in Hfind.
    destruct (decide (P m)) as [Hm|Hm].
    + cbn [find] in Hfind. destruct (f m) eqn:Hfm.
      * injection Hfind as <-. lia.
      * destruct (Z.eq_dec y m) as [->|Hne]; [exact Hfm|].
        apply (IH (Z.succ m) x Hfind); [|exact HP].
        apply find_some in Hfind. destruct Hfind as [Hin _].
        apply list_elem_of_In, list_elem_of_filter in Hin.
        destruct Hin as [_ Hin]. apply elem_of_seqZ in Hin. lia.
    + destruct (Z.eq_dec y m) as [->|Hne]; [contradiction|].
      apply (IH (Z.succ m) x Hfind); [|exact HP].
      apply find_some in Hfind. destruct Hfind as [Hin _].
      apply list_elem_of_In, list_elem_of_filter in Hin.
      destruct Hin as [_ Hin]. apply elem_of_seqZ in Hin. lia.
Qed.

Lemma game_is_won_dropped (bd : board) (col piece : Z) :
  valid_board bd -> 0 <= col < 7 -> cell bd 5 col = 0 ->
  piece = RED_INT \/ piece = BLUE_INT ->
  (game_is_won (dropped bd col piece) piece = true <-> drop_wins bd col piece).
Proof.
  intros Hvalid Hcol Htop Hp.
  pose proof (valid_dropped bd col piece Hvalid Hcol Htop Hp) as Hv.
  rewrite (game_is_won_four (dropped bd col piece) piece (proj1 Hv)
             (valid_digits _ Hv))
    by (unfold RED_INT, BLUE_INT in Hp; lia).
  unfold drop_wins. tauto.
Qed.

(** What the loop of [should_win] and [should_block] finds. *)
Lemma first_winning_drop_spec (l : loc) (h : heap) (bd : board)
    (piece : Z) :
  h !! l = Some bd -> valid_board bd ->
  piece = RED_INT \/ piece = BLUE_INT ->
  exists t res,
    first_winning_drop l piece (get_valid_locations bd) h
    = Some (res, h ++ t) /\
    match res with
    | Some col =>
        drop_wins bd col piece /\
        forall c, 0 <= c < col -> ~ drop_wins bd c piece
    | None => forall c, ~ drop_wins bd c piece
    end.
Proof.
  intros Hl Hvalid Hp.
  destruct (first_winning_drop_run l bd piece (get_valid_locations bd) h Hl)
    as (t & Hrun).
  { intros col Hin. rewrite valid_locations_columns in Hin.
    now apply valid_columns_spec in Hin. }
  exists t, (find (fun col => game_is_won (dropped bd col piece) piece)
               (get_valid_locations bd)).
  split; [exact Hrun|].
  destruct (find _ _) as [col|] eqn:Hfind.
  - pose proof (find_some _ _ Hfind) as [Hin Hwon].
    rewrite valid_locations_columns in Hin.
    apply valid_columns_spec in Hin. destruct Hin as [Hcol Htop].
    split; [now apply game_is_won_dropped|].
    intros c Hc (Hc7 & Hctop & Hfour).
    rewrite valid_locations_columns in Hfind.
    unfold get_valid_columns, range in Hfind.
    change COLUMN_COUNT with (Z.of_nat 7) in Hfind.
    pose proof (find_filter_seqZ _ _ 7 0 col Hfind c ltac:(lia) Hctop) as Hf.
    simpl in Hf.
    assert (Ht : game_is_won (dropped bd c piece) piece = true)
      by (apply game_is_won_dropped; auto; unfold drop_wins; auto).
    congruence.
  - intros c (Hc7 & Hctop & Hfour).
    pose proof (find_none _ _ Hfind c) as Hf.
    rewrite valid_locations_columns in Hf.
    specialize (Hf (proj2 (valid_columns_spec bd c) (conj Hc7 Hctop))).
    simpl in Hf.
    assert (Ht : game_is_won (dropped bd c piece) piece = true)
      by (apply game_is_won_dropped; auto; unfold drop_wins; auto).
    congruence.
Qed.

End Shortcuts.

(** ** The moves of the AI player *)

Section Moves.

Lemma V_go_legal (bd : board) (c : Z) :
  valid_board bd -> 0 <= c < 7 -> cell bd 5 c = 0 ->
  0 <= V.go bd < 7 /\ cell bd 5 (V.go bd) = 0.
Proof.
  intros Hvalid Hc Htop. unfold V.go.
  pose proof (inv_create_state bd Hvalid) as Hinv.
  pose proof (root_not_finished bd c (proj1 Hvalid) Hc Htop) as Hfin.
  destruct (abmax_first_largest 3 _ (PInt (LOSS - 1)) (PInt (VIC + 1)) Hinv Hfin)
    as (i & _ & Hcol & _).
  apply (in_children_columns (V.create_state bd)).
  apply list_elem_of_In, list_elem_of_lookup. eauto.
Qed.

Lemma V_go_no_legal (bd : board) :
  get_valid_columns bd = [] -> V.go bd = 0.
Proof.
  intros Hnone. unfold V.go. simpl.
  destruct (V.is_finished (V.create_state bd)); [reflexivity|].
  unfold V.get_next. simpl. rewrite Hnone. reflexivity.
Qed.

(** The last two statements of every branch: find the row, drop. *)
Lemma final_drop (l : loc) (h : heap) (bd : board) (col color : Z) :
  h !! l = Some bd -> cell bd 5 col = 0 ->
  (let+ b := lift (deref l) in
   let row := get_next_open_row b col in
   drop_chip l row col color) h
  = Some (tt, <[l := dropped bd col color]> h).
Proof.
  intros Hl Htop. unfold xbind, lift, deref. rewrite Hl. simpl.
  rewrite (open_row_legal bd col Htop). unfold drop_chip, lift, store_cell.
  rewrite Hl. reflexivity.
Qed.

Lemma MoveAI_run (l : loc) (h : heap) (bd : board) (color : Z) :
  h !! l = Some bd -> cell bd 5 (V.go bd) = 0 ->
  exists t,
    MoveAI l color h = Some (tt, <[l := dropped bd (V.go bd) color]> (h ++ t)).
Proof.
  intros Hl Htop.
  destruct (go_view l h (lookup_lt_Some _ _ _ Hl)) as (t & Hgo).
  exists t. unfold MoveAI. unfold xbind at 1. unfold lift at 1.
  rewrite Hgo, Hl. simpl.
  apply final_drop; [now apply lookup_app_l_Some | exact Htop].
Qed.

Lemma blocks_loop_run (l : loc) (bd : board) (opp : Z) (cols : list Z) :
  forall h acc,
    h !! l = Some bd ->
    (forall col, In col cols -> cell bd 5 col = 0) ->
    exists t,
      blocks_loop l opp cols acc h
      = Some (acc ++ List.filter
                       (fun col => game_is_won (dropped bd col opp) opp) cols,
              h ++ t).
Proof.
  induction cols as [|col rest IH]; intros h acc Hl Hlegal.
  - exists []. simpl. unfold xret. now rewrite !app_nil_r.
  - assert (Hstep :
      blocks_loop l opp (col :: rest) acc h
      = blocks_loop l opp rest
          (if game_is_won (dropped bd col opp) opp then acc ++ [col] else acc)
          (h ++ [dropped bd col opp]))
      by exact (try_drop
                  (fun tb => blocks_loop l opp rest
                     (if game_is_won tb opp then acc ++ [col] else acc))
                  l h bd col opp Hl (Hlegal col (or_introl eq_refl))).
    rewrite Hstep. cbn [List.filter].
    destruct (IH (h ++ [dropped bd col opp])
                (if game_is_won (dropped bd col opp) opp
                 then acc ++ [col] else acc)) as (t & Hrun).
    + now apply lookup_app_l_Some.
    + intros c Hc. apply Hlegal. now right.
    + rewrite Hrun. exists ([dropped bd col opp] ++ t).
      rewrite app_assoc.
      destruct (game_is_won (dropped bd col opp) opp);
        [now rewrite <- app_assoc|reflexivity].
Qed.

Lemma should_win_run (l : loc) (h : heap) (bd : board) (piece : Z) :
  h !! l = Some bd ->
  should_win l piece h
  = first_winning_drop l piece (get_valid_locations bd) h.
Proof.
  intros Hl. unfold should_win, xbind, lift, deref. now rewrite Hl.
Qed.

Lemma should_block_run (l : loc) (h : heap) (bd : board) (piece : Z) :
  h !! l = Some bd ->
  should_block l piece h
  = first_winning_drop l (if piece =? BLUE_INT then RED_INT else BLUE_INT)
      (get_valid_locations bd) h.
Proof.
  intros Hl. unfold should_block, xbind, lift, deref. now rewrite Hl.
Qed.

Lemma singleton_length {A} (xs : list A) (d : A) :
  Z.of_nat (length xs) = 1 -> xs = [nth 0 xs d].
Proof.
  destruct xs as [|x [|y xs]]; simpl; intros H; try lia. reflexivity.
Qed.

Lemma in_threats (bd : board) (opp c : Z) :
  valid_board bd -> opp = RED_INT \/ opp = BLUE_INT ->
  (In c (List.filter (fun col => game_is_won (dropped bd col opp) opp)
           (get_valid_locations bd))
   <-> drop_wins bd c opp).
Proof.
  intros Hvalid Hopp. rewrite filter_In, valid_locations_columns,
    valid_columns_spec. split.
  - intros [[Hc Htop] Hwon]. now apply game_is_won_dropped.
  - intros Hw. pose proof Hw as (Hc & Htop & _).
    split; [auto|]. now apply game_is_won_dropped.
Qed.

Lemma threats_nodup (bd : board) (opp : Z) :
  List.NoDup (List.filter (fun col => game_is_won (dropped bd col opp) opp)
                (get_valid_locations bd)).
Proof.
  apply List.NoDup_filter. unfold get_valid_locations.
  apply List.NoDup_filter. unfold range.
  apply NoDup_ListNoDup, NoDup_seqZ.
Qed.

End Moves.

(** X11. On a valid board and for either player, the substring test of
    [game_is_won] on rows, columns and the diagonals of offsets -2..3 of
    the board and of its mirror image finds exactly the four-in-a-row
    positions: it answers as the engine's [check_win] does. *)
Theorem game_is_won_agrees_with_check_win (b : board) (p : Z) :
  valid_board b -> p = RED_INT \/ p = BLUE_INT ->
  game_is_won b p = check_win b p /\
  (game_is_won b p = true <-> four_in_a_row b p).
Proof.
  intros Hvalid Hp.
  assert (Hd : 0 <= p <= 9) by (unfold RED_INT, BLUE_INT in Hp; lia).
  split.
  - apply game_is_won_check_win; auto using valid_digits. apply Hvalid.
  - apply game_is_won_four; auto using valid_digits. apply Hvalid.
Qed.

Lemma game_is_won_agrees_with_check_win_witness :
  game_is_won two_threats_board BLUE_INT
  = check_win two_threats_board BLUE_INT /\
  (game_is_won two_threats_board BLUE_INT = true
   <-> four_in_a_row two_threats_board BLUE_INT).
Proof.
  apply (game_is_won_agrees_with_check_win two_threats_board BLUE_INT).
  - apply valid_boardb_spec. reflexivity.
  - right. reflexivity.
Defined.

(** X12. The board queries of the game module agree with the engine's:
    [get_next_open_row] finds the row [get_next_row] finds, with [None]
    for -1, and [get_valid_locations] lists the columns
    [get_valid_columns] lists. *)
Theorem game_queries_agree_with_engine (b : board) (col : Z) :
  get_next_open_row b col
  = (if get_next_row b col =? -1 then None else Some (get_next_row b col)) /\
  get_valid_locations b = get_valid_columns b /\
  (is_valid_location b col = true <-> cell b 5 col = 0).
Proof.
  split; [apply get_next_open_row_next_row|].
  split; [apply valid_locations_columns|].
  unfold is_valid_location. apply Z.eqb_eq.
Qed.

(** X13. On a valid board [should_win] returns the lowest-numbered legal
    column where dropping the piece makes four in a row, or [None] when
    no column does; it works on copies and leaves every existing array
    as it was. *)
Theorem should_win_finds_first_win (h : heap) (l : loc) (b : board)
    (piece : Z) :
  h !! l = Some b -> valid_board b ->
  piece = RED_INT \/ piece = BLUE_INT ->
  exists t res,
    should_win l piece h = Some (res, h ++ t) /\
    match res with
    | Some col =>
        drop_wins b col piece /\
        forall c, 0 <= c < col -> ~ drop_wins b c piece
    | None => forall c, ~ drop_wins b c piece
    end.
Proof.
  intros Hl Hvalid Hp. rewrite (should_win_run l h b piece Hl).
  now apply first_winning_drop_spec.
Qed.

Lemma should_win_finds_first_win_witness :
  exists t res,
    should_win 0%nat BLUE_INT [two_threats_board]
    = Some (res, [two_threats_board] ++ t) /\
    match res with
    | Some col =>
        drop_wins two_threats_board col BLUE_INT /\
        forall c, 0 <= c < col -> ~ drop_wins two_threats_board c BLUE_INT
    | None => forall c, ~ drop_wins two_threats_board c BLUE_INT
    end.
Proof.
  apply (should_win_finds_first_win [two_threats_board] 0%nat
           two_threats_board BLUE_INT).
  - reflexivity.
  - apply valid_boardb_spec. reflexivity.
  - right. reflexivity.
Defined.

(** X14. On a valid board [should_block] returns the lowest-numbered
    legal column where the opponent's drop would make four in a row, or
    [None] when there is none, and leaves every existing array as it
    was. *)
Theorem should_block_finds_first_threat (h : heap) (l : loc) (b : board)
    (piece : Z) :
  h !! l = Some b -> valid_board b ->
  piece = RED_INT \/ piece = BLUE_INT ->
  let opponent := if piece =? BLUE_INT then RED_INT else BLUE_INT in
  exists t res,
    should_block l piece h = Some (res, h ++ t) /\
    match res with
    | Some col =>
        drop_wins b col opponent /\
        forall c, 0 <= c < col -> ~ drop_wins b c opponent
    | None => forall c, ~ drop_wins b c opponent
    end.
Proof.
  intros Hl Hvalid Hp. rewrite (should_block_run l h b piece Hl).
  apply first_winning_drop_spec; auto.
  destruct Hp as [-> | ->]; [right|left]; reflexivity.
Qed.

Lemma should_block_finds_first_threat_witness :
  let opponent := if BLUE_INT =? BLUE_INT then RED_INT else BLUE_INT in
  exists t res,
    should_block 0%nat BLUE_INT [two_threats_board]
    = Some (res, [two_threats_board] ++ t) /\
    match res with
    | Some col =>
        drop_wins two_threats_board col opponent /\
        forall c, 0 <= c < col -> ~ drop_wins two_threats_board c opponent
    | None => forall c, ~ drop_wins two_threats_board c opponent
    end.
Proof.
  apply (should_block_finds_first_threat [two_threats_board] 0%nat
           two_threats_board BLUE_INT).
  - reflexivity.
  - apply valid_boardb_spec. reflexivity.
  - right. reflexivity.
Defined.

(** X15. On a valid board with a legal column [MoveAI] drops one chip of
    the given colour into the column [go] returns, at the lowest empty
    row of that column, in the caller's array; the other arrays that
    existed stay as they were. *)
Theorem MoveAI_drops_in_go_column (h : heap) (l : loc) (b : board)
    (color c : Z) :
  h !! l = Some b -> valid_board b -> 0 <= c < 7 -> cell b 5 c = 0 ->
  exists t,
    MoveAI l color h
    = Some (tt, <[l := dropped b (fst (go l h)) color]> (h ++ t)) /\
    0 <= fst (go l h) < 7 /\ cell b 5 (fst (go l h)) = 0.
Proof.
  intros Hl Hvalid Hc Htop.
  destruct (V_go_legal b c Hvalid Hc Htop) as [Hrange Hlegal].
  destruct (MoveAI_run l h b color Hl Hlegal) as (t & Hrun).
  destruct (go_view l h (lookup_lt_Some _ _ _ Hl)) as (t' & Hgo).
  rewrite Hgo, Hl. simpl. exists t. auto.
Qed.

Lemma MoveAI_drops_in_go_column_witness :
  exists t,
    MoveAI 0%nat BLUE_INT [empty_board]
    = Some (tt, <[0%nat := dropped empty_board
                             (fst (go 0%nat [empty_board])) BLUE_INT]>
                  ([empty_board] ++ t)) /\
    0 <= fst (go 0%nat [empty_board]) < 7 /\
    cell empty_board 5 (fst (go 0%nat [empty_board])) = 0.
Proof.
  apply (MoveAI_drops_in_go_column [empty_board] 0%nat empty_board
           BLUE_INT 3).
  - reflexivity.
  - apply valid_boardb_spec. reflexivity.
  - lia.
  - reflexivity.
Defined.

(** The run of [MoveSmartAI] on a valid board with a legal column. *)
Lemma MoveSmartAI_run (h : heap) (l : loc) (b : board)
    (color c0 : Z) :
  h !! l = Some b -> valid_board b ->
  color = RED_INT \/ color = BLUE_INT ->
  0 <= c0 < 7 -> cell b 5 c0 = 0 ->
  let opponent := if color =? BLUE_INT then RED_INT else BLUE_INT in
  exists col t,
    MoveSmartAI l color h
    = Some (tt, <[l := dropped b col color]> (h ++ t)) /\
    0 <= col < 7 /\ cell b 5 col = 0 /\
    ((exists c, drop_wins b c color) ->
     drop_wins b col color /\
     forall c, 0 <= c < col -> ~ drop_wins b c color) /\
    ((forall c, ~ drop_wins b c color) ->
     forall c, drop_wins b c opponent ->
       (forall c', drop_wins b c' opponent -> c' = c) -> col = c) /\
    ((forall c, ~ drop_wins b c color) ->
     (forall c, drop_wins b c opponent ->
        exists c', drop_wins b c' opponent /\ c' <> c) ->
     col = fst (go l h)).
Proof.
  intros Hl Hvalid Hcolor Hc0 Htop0 opponent.
  assert (Hopp : opponent = RED_INT \/ opponent = BLUE_INT)
    by (unfold opponent; destruct Hcolor as [-> | ->]; [right|left];
        reflexivity).
  destruct (first_winning_drop_spec l h b color Hl Hvalid Hcolor)
    as (t1 & res & Hrun1 & Hres).
  assert (Hl1 : (h ++ t1) !! l = Some b) by (now apply lookup_app_l_Some).
  unfold MoveSmartAI. unfold xbind at 1.
  rewrite (should_win_run l h b color Hl), Hrun1.
  destruct res as [wc|].
  - destruct Hres as [Hw Hfirst]. pose proof Hw as (Hwc & Hwtop & _).
    pose proof (final_drop l (h ++ t1) b wc color Hl1 Hwtop) as Hfd.
    cbv zeta in Hfd. rewrite Hfd.
    exists wc, t1. split; [reflexivity|]. split; [exact Hwc|].
    split; [exact Hwtop|]. split; [auto|].
    split; intros Hnone; exfalso; now apply (Hnone wc).
  - unfold xbind at 1. unfold lift at 1, deref at 1. rewrite Hl1.
    cbn [default from_option id].
    destruct (blocks_loop_run l b opponent (get_valid_locations b)
                (h ++ t1) [] Hl1) as (t2 & Hrun2).
    { intros col Hin. rewrite valid_locations_columns in Hin.
      now apply valid_columns_spec in Hin. }
    fold opponent. unfold xbind at 1. rewrite Hrun2. cbn [app].
    set (blocks := List.filter _ _) in *.
    assert (Hl2 : ((h ++ t1) ++ t2) !! l = Some b)
      by (now apply lookup_app_l_Some).
    destruct (Z.eqb_spec (Z.of_nat (length blocks)) 1) as [Hlen|Hlen].
    + pose proof (singleton_length blocks 0 Hlen) as Hsing.
      pose (col := nth 0 blocks 0). fold col in Hsing.
      assert (Hthreat : drop_wins b col opponent)
        by (apply (in_threats b opponent col Hvalid Hopp); fold blocks;
            rewrite Hsing; now left).
      pose proof Hthreat as (Hcol & Hctop & _).
      pose proof (final_drop l ((h ++ t1) ++ t2) b col color Hl2 Hctop)
        as Hfd.
      cbv zeta in Hfd. fold col. rewrite Hfd.
      exists col, (t1 ++ t2). rewrite app_assoc.
      split; [reflexivity|]. split; [exact Hcol|]. split; [exact Hctop|].
      split; [intros [c Hc]; exfalso; now apply (Hres c)|].
      split.
      * intros _ c Hc Huniq. now apply Huniq.
      * intros _ Hmany. exfalso.
        destruct (Hmany col Hthreat) as (c' & Hc' & Hne).
        apply (in_threats b opponent c' Hvalid Hopp) in Hc'.
        fold blocks in Hc'. rewrite Hsing in Hc'.
        destruct Hc' as [Hc'|[]]. congruence.
    + destruct (V_go_legal b c0 Hvalid Hc0 Htop0) as [Hrange Hlegal].
      destruct (MoveAI_run l ((h ++ t1) ++ t2) b color Hl2 Hlegal)
        as (t3 & Hrun3).
      rewrite Hrun3. exists (V.go b), ((t1 ++ t2) ++ t3).
      rewrite !app_assoc.
      split; [reflexivity|]. split; [exact Hrange|]. split; [exact Hlegal|].
      split; [intros [c Hc]; exfalso; now apply (Hres c)|].
      split.
      * intros _ c Hc Huniq. exfalso. apply Hlen.
        assert (Hall : forall x, In x blocks -> x = c).
        { intros x Hx. apply Huniq.
          now apply (in_threats b opponent x Hvalid Hopp). }
        assert (Hin : In c blocks)
          by (now apply (in_threats b opponent c Hvalid Hopp)).
        pose proof (threats_nodup b opponent) as Hnd. fold blocks in Hnd.
        destruct blocks as [|x [|y ys]]; [destruct Hin|reflexivity|].
        exfalso. inversion Hnd as [|? ? Hnotin _]; subst.
        apply Hnotin. left.
        rewrite (Hall x) by (now left). rewrite (Hall y) by (right; now left).
        reflexivity.
      * intros _ _.
        destruct (go_view l h (lookup_lt_Some _ _ _ Hl)) as (t' & Hgo).
        rewrite Hgo, Hl. reflexivity.
Qed.

(** X16. On a valid board with a legal column [MoveSmartAI] drops exactly
    one chip of its colour, at the lowest empty row of a legal column of
    the caller's array, and raises nothing.  If some drop wins, the column
    is the lowest-numbered winning one; if none wins and the opponent has
    exactly one winning drop, it is that column; otherwise it is the
    column [go] returns. *)
Theorem MoveSmartAI_places_one_chip (h : heap) (l : loc) (b : board)
    (color c0 : Z) :
  h !! l = Some b -> valid_board b ->
  color = RED_INT \/ color = BLUE_INT ->
  0 <= c0 < 7 -> cell b 5 c0 = 0 ->
  let opponent := if color =? BLUE_INT then RED_INT else BLUE_INT in
  exists col t,
    MoveSmartAI l color h
    = Some (tt, <[l := dropped b col color]> (h ++ t)) /\
    0 <= col < 7 /\ cell b 5 col = 0 /\
    ((exists c, drop_wins b c color) ->
     drop_wins b col color /\
     forall c, 0 <= c < col -> ~ drop_wins b c color) /\
    ((forall c, ~ drop_wins b c color) ->
     forall c, drop_wins b c opponent ->
       (forall c', drop_wins b c' opponent -> c' = c) -> col = c) /\
    ((forall c, ~ drop_wins b c color) ->
     (forall c, drop_wins b c opponent ->
        exists c', drop_wins b c' opponent /\ c' <> c) ->
     col = fst (go l h)).
Proof.
  intros Hl Hvalid Hcolor Hc0 Htop0 opponent.
  destruct (MoveSmartAI_run h l b color c0 Hl Hvalid Hcolor Hc0 Htop0)
    as (col & t & Hrun & Hrest).
  exists col, t. split; [exact Hrun | exact Hrest].
Qed.

Lemma MoveSmartAI_places_one_chip_witness :
  let opponent := if BLUE_INT =? BLUE_INT then RED_INT else BLUE_INT in
  exists col t,
    MoveSmartAI 0%nat BLUE_INT [two_threats_board]
    = Some (tt, <[0%nat := dropped two_threats_board col BLUE_INT]>
                  ([two_threats_board] ++ t)) /\
    0 <= col < 7 /\ cell two_threats_board 5 col = 0 /\
    ((exists c, drop_wins two_threats_board c BLUE_INT) ->
     drop_wins two_threats_board col BLUE_INT /\
     forall c, 0 <= c < col -> ~ drop_wins two_threats_board c BLUE_INT) /\
    ((forall c, ~ drop_wins two_threats_board c BLUE_INT) ->
     forall c, drop_wins two_threats_board c opponent ->
       (forall c', drop_wins two_threats_board c' opponent -> c' = c) ->
       col = c) /\
    ((forall c, ~ drop_wins two_threats_board c BLUE_INT) ->
     (forall c, drop_wins two_threats_board c opponent ->
        exists c', drop_wins two_threats_board c' opponent /\ c' <> c) ->
     col = fst (go 0%nat [two_threats_board])).
Proof.
  apply (MoveSmartAI_places_one_chip [two_threats_board] 0%nat
           two_threats_board BLUE_INT 4).
  - reflexivity.
  - apply valid_boardb_spec. reflexivity.
  - right. reflexivity.
  - lia.
  - reflexivity.
Defined.

(** X17. The edge the game loop avoids: on a board without an empty cell
    [MoveSmartAI] finds no column, [go] answers 0, no row is open, and
    the assignment through [None] overwrites every cell of the caller's
    board with the AI's colour. *)
Theorem MoveSmartAI_full_board_overwritten (h : heap) (l : loc) (b : board)
    (color : Z) :
  h !! l = Some b ->
  (forall r c, 0 <= r < 6 -> 0 <= c < 7 -> cell b r c <> 0) ->
  exists t,
    MoveSmartAI l color h
    = Some (tt, <[l := map (map (fun _ => color)) b]> (h ++ t)).
Proof.
  intros Hl Hfull.
  assert (Hnone : get_valid_columns b = []).
  { destruct (get_valid_columns b) as [|c cs] eqn:E; [reflexivity|].
    exfalso.
    assert (Hin : In c (get_valid_columns b)) by (rewrite E; now left).
    apply valid_columns_spec in Hin. destruct Hin as [Hc Htop].
    now apply (Hfull 5 c). }
  assert (Hrow : get_next_open_row b 0 = None).
  { rewrite get_next_open_row_next_row.
    assert (Hm : get_next_row b 0 = -1)
      by (apply get_next_row_full; intros r Hr; apply Hfull; lia).
    now rewrite Hm. }
  destruct (go_view l h (lookup_lt_Some _ _ _ Hl)) as (t & Hgo).
  exists t.
  unfold MoveSmartAI. unfold xbind at 1.
  rewrite (should_win_run l h b color Hl), valid_locations_columns, Hnone.
  cbn [first_winning_drop]. unfold xret at 1.
  unfold xbind at 1. unfold lift at 1, deref at 1. rewrite Hl.
  cbn [default from_option id].
  rewrite valid_locations_columns, Hnone. cbn [blocks_loop].
  unfold xbind at 1, xret at 1. cbn [length].
  change (Z.of_nat 0 =? 1) with false. cbv iota.
  unfold MoveAI. unfold xbind at 1. unfold lift at 1.
  rewrite Hgo, Hl. cbn [default from_option id].
  rewrite (V_go_no_legal b Hnone).
  unfold xbind, lift, deref.
  rewrite (lookup_app_l_Some _ _ _ _ Hl). cbn [default from_option id fst].
  rewrite Hrow. unfold drop_chip. cbn [Z.eqb orb].
  rewrite (lookup_app_l_Some _ _ _ _ Hl). reflexivity.
Qed.

Lemma MoveSmartAI_full_board_overwritten_witness :
  exists t,
    MoveSmartAI 0%nat BLUE_INT [full_board]
    = Some (tt, <[0%nat := map (map (fun _ => BLUE_INT)) full_board]>
                  ([full_board] ++ t)).
Proof.
  apply (MoveSmartAI_full_board_overwritten [full_board] 0%nat full_board
           BLUE_INT).
  - reflexivity.
  - intros r c Hr Hc.
    assert (Hr' : r = 0 \/ r = 1 \/ r = 2 \/ r = 3 \/ r = 4 \/ r = 5) by lia.
    assert (Hc' : c = 0 \/ c = 1 \/ c = 2 \/ c = 3 \/ c = 4 \/ c = 5 \/ c = 6)
      by lia.
    destruct Hr' as [-> | [-> | [-> | [-> | [-> | ->]]]]];
      destruct Hc' as [-> | [-> | [-> | [-> | [-> | [-> | ->]]]]]];
      discriminate.
Defined.

(** X18. The draw test of the game loop: on a valid board
    [get_valid_locations] is empty exactly when no cell of the grid is
    empty. *)
Theorem no_valid_location_means_full (b : board) :
  valid_board b ->
  (get_valid_locations b = [] <->
   forall r c, 0 <= r < 6 -> 0 <= c < 7 -> cell b r c <> 0).
Proof.
  intros (Hwf & _ & Hg). rewrite valid_locations_columns. split.
  - intros Hnone r c Hr Hc Hz.
    assert (Hin : In c (get_valid_columns b)).
    { apply valid_columns_spec. split; [exact Hc|].
      apply (Hg r 5 c); [lia | lia | exact Hc | exact Hz]. }
    rewrite Hnone in Hin. destruct Hin.
  - intros Hfull.
    destruct (get_valid_columns b) as [|c cs] eqn:E; [reflexivity|].
    exfalso.
    assert (Hin : In c (get_valid_columns b)) by (rewrite E; now left).
    apply valid_columns_spec in Hin. destruct Hin as [Hc Htop].
    now apply (Hfull 5 c).
Qed.

Lemma no_valid_location_means_full_witness :
  get_valid_locations full_board = [] <->
  forall r c, 0 <= r < 6 -> 0 <= c < 7 -> cell full_board r c <> 0.
Proof.
  apply (no_valid_location_means_full full_board).
  apply valid_boardb_spec. reflexivity.
Defined.

(** X19. A turn of [MoveSmartAI] keeps the game going on a sound board:
    on a valid board with a legal column the call raises nothing, the
    caller's array is again a valid board with exactly one empty cell
    less, and the arrays that existed beside it are unchanged. *)
Theorem MoveSmartAI_keeps_board_valid (h : heap) (l : loc) (b : board)
    (color c0 : Z) :
  h !! l = Some b -> valid_board b ->
  color = RED_INT \/ color = BLUE_INT ->
  0 <= c0 < 7 -> cell b 5 c0 = 0 ->
  exists b' h',
    MoveSmartAI l color h = Some (tt, h') /\
    h' !! l = Some b' /\ valid_board b' /\
    count_board 0 b' = count_board 0 b - 1 /\
    forall l' : loc, (l' < length h)%nat -> l' <> l -> h' !! l' = h !! l'.
Proof.
  intros Hl Hvalid Hcolor Hc0 Htop0.
  destruct (MoveSmartAI_run h l b color c0 Hl Hvalid Hcolor Hc0 Htop0)
    as (col & t & Hrun & Hcol & Htop & _).
  pose proof (lookup_lt_Some _ _ _ Hl) as Hlt.
  exists (dropped b col color), (<[l := dropped b col color]> (h ++ t)).
  split; [exact Hrun|]. split.
  { apply list_lookup_insert_eq. rewrite length_app. lia. }
  split; [now apply valid_dropped|]. split.
  - pose proof (legal_has_row b col Htop) as Hrow.
    destruct (get_next_row_lowest b col Hrow) as (Hr & Hz & _).
    unfold dropped. apply count_board_set_cell; auto.
    + exact (proj1 Hvalid).
    + destruct Hcolor as [-> | ->]; discriminate.
  - intros l' Hl' Hne.
    rewrite list_lookup_insert_ne by congruence.
    now apply lookup_app_l.
Qed.

Lemma MoveSmartAI_keeps_board_valid_witness :
  exists b' h',
    MoveSmartAI 0%nat BLUE_INT [two_threats_board; empty_board]
    = Some (tt, h') /\
    h' !! 0%nat = Some b' /\ valid_board b' /\
    count_board 0 b' = count_board 0 two_threats_board - 1 /\
    forall l' : loc,
      (l' < length [two_threats_board; empty_board])%nat -> l' <> 0%nat ->
      h' !! l' = [two_threats_board; empty_board] !! l'.
Proof.
  apply (MoveSmartAI_keeps_board_valid [two_threats_board; empty_board]
           0%nat two_threats_board BLUE_INT 4).
  - reflexivity.
  - apply valid_boardb_spec. reflexivity.
  - right. reflexivity.
  - lia.
  - reflexivity.
Defined.
